(** * PDF Keyword Value Estimator: a shallow embedding of [main.py]

    The development follows the layout of the program.

    - [PyStr]: the Python string built-ins the program calls
      ([str.lower], [str.strip], [int], [str], [dict] assignment, [sorted]).
    - [Regex]: [re.compile(re.escape(k), re.IGNORECASE).findall(text)].
    - [PyFloat]: the binary64 arithmetic behind the progress percentages.
    - [OCRWorker]: the worker thread's [run], as a trace of signals and
      service calls.
    - [App]: the methods of [KeywordEstimatorApp] that read the keyword
      table, count, aggregate, display and export.
    - [Csv]: [csv.writer] and [csv.reader] with the default dialect, and
      text files read with universal newlines.
    - [Store]: the start of the window, the buttons of the keyword table,
      and the keywords file ([load_keywords], [save_keywords]).
    - [ExportName]: the file name that [export_to_excel] proposes.

    Characters are the code points 0..255 ([ascii]); on that range Python's
    simple and full case mappings coincide and stay inside the range. *)

From Stdlib Require Import ZArith List Bool Lia Arith.
From Stdlib Require Import Strings.String Strings.Ascii.
From Stdlib Require Import Numbers.DecimalString.
From Stdlib Require Import Sorting.Sorted Sorting.Permutation.
From Stdlib Require Import Floats.SpecFloat.
Import ListNotations.

Local Open Scope string_scope.
Local Open Scope Z_scope.

(* ===================================================================== *)
(** * Python built-ins on strings *)
(* ===================================================================== *)

Module PyStr.

(** Code point of a character. *)
Definition ord (c : ascii) : Z := Z.of_N (N_of_ascii c).

Definition chr (n : Z) : ascii := ascii_of_N (Z.to_N n).

(** Upper-case letters of the first 256 code points: A..Z, and the
    Latin-1 capitals U+00C0..U+00DE without the multiplication sign. *)
Definition is_upper (c : ascii) : bool :=
  let n := ord c in
  ((65 <=? n) && (n <=? 90))
  || ((192 <=? n) && (n <=? 222) && negb (n =? 215)).

(** [str.lower] on one character: the lower-case partner is 32 further. *)
Definition lower_char (c : ascii) : ascii :=
  if is_upper c then chr (ord c + 32) else c.

(** [s.lower()] *)
Fixpoint lower (s : string) : string :=
  match s with
  | EmptyString => EmptyString
  | String c r => String (lower_char c) (lower r)
  end.

(** [str.isspace] on one character: TAB, LF, VT, FF, CR, FS, GS, RS, US,
    SPACE, NEL and NBSP. *)
Definition is_space (c : ascii) : bool :=
  let n := ord c in
  ((9 <=? n) && (n <=? 13)) || ((28 <=? n) && (n <=? 32))
  || (n =? 133) || (n =? 160).

Fixpoint lstrip (s : string) : string :=
  match s with
  | EmptyString => EmptyString
  | String c r => if is_space c then lstrip r else s
  end.

Fixpoint rstrip (s : string) : string :=
  match s with
  | EmptyString => EmptyString
  | String c r =>
      match rstrip r with
      | EmptyString => if is_space c then EmptyString else String c EmptyString
      | r' => String c r'
      end
  end.

(** [s.strip()] *)
Definition strip (s : string) : string := rstrip (lstrip s).

(** Truthiness of a string: [if s:] holds for the non-empty ones. *)
Definition truthy (s : string) : bool :=
  match s with EmptyString => false | _ => true end.

Definition is_digit (c : ascii) : bool :=
  let n := ord c in (48 <=? n) && (n <=? 57).

(** The digit part of an integer literal given to [int]: decimal digits,
    with single underscores allowed between two digits.  [seen] tells
    whether the previous character was a digit. *)
Fixpoint digits_value (acc : Z) (seen : bool) (s : string) : option Z :=
  match s with
  | EmptyString => if seen then Some acc else None
  | String c r =>
      if is_digit c then digits_value (10 * acc + (ord c - 48)) true r
      else if Ascii.eqb c "_"%char then
        (if seen then digits_value acc false r else None)
      else None
  end.

(** [int(s)] for a string: surrounding white space is dropped, one sign is
    accepted; [None] stands for [ValueError]. *)
Definition py_int (s : string) : option Z :=
  match strip s with
  | String "+"%char r => digits_value 0 false r
  | String "-"%char r => option_map Z.opp (digits_value 0 false r)
  | t => digits_value 0 false t
  end.

(** [str(n)] for an integer. *)
Definition str_of_int (n : Z) : string := NilZero.string_of_int (Z.to_int n).

(** [s[:n]] *)
Fixpoint take (n : nat) (s : string) : string :=
  match n, s with
  | S k, String c r => String c (take k r)
  | _, _ => EmptyString
  end.

(** A [dict] with string keys, in insertion order.  Assigning to a key
    that is present keeps its place and replaces the value. *)
Definition dict (V : Type) := list (string * V).

Fixpoint dict_set {V} (d : dict V) (k : string) (v : V) : dict V :=
  match d with
  | [] => [(k, v)]
  | (k', v') :: d' =>
      if String.eqb k' k then (k', v) :: d' else (k', v') :: dict_set d' k v
  end.

Fixpoint dict_get {V} (d : dict V) (k : string) : option V :=
  match d with
  | [] => None
  | (k', v') :: d' => if String.eqb k' k then Some v' else dict_get d' k
  end.

(** [sorted(l, key=key)]: the sort compares keys with [<] only and is
    stable.  [insert_sorted x l] puts [x], which stood before every
    element of [l], in front of the first element whose key is not
    smaller than the key of [x]. *)
Section Sorted.
Context {A : Type} (key : A -> string).

Fixpoint insert_sorted (x : A) (l : list A) : list A :=
  match l with
  | [] => [x]
  | y :: l' =>
      if String.ltb (key y) (key x) then y :: insert_sorted x l'
      else x :: y :: l'
  end.

Definition sorted (l : list A) : list A := fold_right insert_sorted [] l.

End Sorted.

End PyStr.

(* ===================================================================== *)
(** * Literal, case-insensitive patterns of [re] *)
(* ===================================================================== *)

Module Regex.

(** [re.compile(re.escape(keyword), re.IGNORECASE)]: escaping makes every
    character of the keyword a literal, and the compiler stores each
    literal case folded. *)
Definition pattern := list ascii.

Definition compile_escaped (keyword : string) : pattern :=
  list_ascii_of_string (PyStr.lower keyword).

(** The pattern matches at the very start of [text]: every text character
    is folded and compared with the stored literal. *)
Fixpoint match_at (p : pattern) (text : string) : bool :=
  match p with
  | [] => true
  | a :: p' =>
      match text with
      | EmptyString => false
      | String c r => Ascii.eqb (PyStr.lower_char c) a && match_at p' r
      end
  end.

(** The search loop of [findall], one text position per step.  [skip] is
    the number of characters still covered by the last match: the search
    resumes right after a match, and one character further after an empty
    match.  The result lists the matched pieces of the text. *)
Fixpoint scan (p : pattern) (skip : nat) (text : string) : list string :=
  match skip with
  | S k =>
      match text with
      | EmptyString => []
      | String _ r => scan p k r
      end
  | O =>
      if match_at p text then
        PyStr.take (List.length p) text ::
        match text with
        | EmptyString => []
        | String _ r => scan p (Nat.pred (List.length p)) r
        end
      else
        match text with
        | EmptyString => []
        | String _ r => scan p 0 r
        end
  end.

(** [pattern.findall(text)] *)
Definition findall (p : pattern) (text : string) : list string := scan p 0 text.

(** The same loop, listing the offsets of the matches instead of their
    text; [off] is the offset of [text] in the whole subject. *)
Fixpoint scan_offsets (p : pattern) (skip off : nat) (text : string) : list nat :=
  match skip with
  | S k =>
      match text with
      | EmptyString => []
      | String _ r => scan_offsets p k (S off) r
      end
  | O =>
      if match_at p text then
        off ::
        match text with
        | EmptyString => []
        | String _ r => scan_offsets p (Nat.pred (List.length p)) (S off) r
        end
      else
        match text with
        | EmptyString => []
        | String _ r => scan_offsets p 0 (S off) r
        end
  end.

End Regex.

(* ===================================================================== *)
(** * Results and exceptions *)
(* ===================================================================== *)

(** A Python expression either yields a value or raises; [Raise] carries
    [str(e)] of the exception. *)
Inductive result (A : Type) : Type :=
| Ok (a : A)
| Raise (msg : string).
Arguments Ok {A} a.
Arguments Raise {A} msg.

(* ===================================================================== *)
(** * Python floats: IEEE 754 binary64 *)
(* ===================================================================== *)

Module PyFloat.

Definition prec : Z := 53.
Definition emax : Z := 1024.

(** [a / b] on two integers: CPython returns the correctly rounded
    quotient of the integers themselves.  The division core of the
    standard specification is applied to the magnitudes with exponent 0
    and its result is rounded to nearest, ties to even. *)
Definition truediv (a b : Z) : result spec_float :=
  if b =? 0 then Raise "division by zero"
  else if a =? 0 then Ok (S754_zero (b <? 0))
  else
    let '(q, e, l) := SFdiv_core_binary prec emax (Z.abs a) 0 (Z.abs b) 0 in
    match binary_round_aux prec emax (xorb (a <? 0) (b <? 0)) q e l with
    | S754_infinity _ => Raise "integer division result too large for a float"
    | f => Ok f
    end.

(** [float(n)] as applied to the integer operand of a mixed product. *)
Definition of_int (n : Z) : result spec_float :=
  match binary_normalize prec emax n 0 false with
  | S754_infinity _ => Raise "int too large to convert to float"
  | f => Ok f
  end.

(** [x * n] for a float [x] and an integer [n]. *)
Definition mul_int (x : spec_float) (n : Z) : result spec_float :=
  match of_int n with
  | Ok y => Ok (SFmul prec emax x y)
  | Raise e => Raise e
  end.

(** [int(x)]: truncation towards zero. *)
Definition to_int (x : spec_float) : result Z :=
  match x with
  | S754_zero _ => Ok 0
  | S754_finite s m e =>
      let a := if 0 <=? e then Zpos m * 2 ^ e else Zpos m / 2 ^ (- e) in
      Ok (if s then - a else a)
  | S754_infinity _ => Raise "cannot convert float infinity to integer"
  | S754_nan => Raise "cannot convert float NaN to integer"
  end.

(** [int((a / b) * c)], the shape of every percentage in the worker. *)
Definition int_of_ratio (a b c : Z) : result Z :=
  match truediv a b with
  | Ok q =>
      match mul_int q c with
      | Ok x => to_int x
      | Raise e => Raise e
      end
  | Raise e => Raise e
  end.

End PyFloat.

(* ===================================================================== *)
(** * [OCRWorker]: the extraction thread *)
(* ===================================================================== *)

Module OCRWorker.

(** The three Qt signals of the worker. *)
Inductive Signal : Type :=
| progress (value : Z) (message : string)
| finished (text : string)
| error (message : string).

(** A rendered page, as [convert_from_path] returns it. *)
Variant Image : Type := PageImage (id : nat).

(** What the thread does, in order: it emits a signal or calls one of the
    three external services. *)
Inductive Action : Type :=
| Emit (s : Signal)
| OpenDocument
| ConvertPage (page_num : Z)
| Recognize (image : Image).

(** The external services, as the run finds them: [fitz.open(...)] and the
    page count it reports, [convert_from_path(..., first_page=p,
    last_page=p)] and [pytesseract.image_to_string]. *)
Record Services : Type := {
  page_count : result Z;
  convert_from_path : Z -> result (list Image);
  image_to_string : Image -> result string
}.

(** Statements of [run]: the actions performed, and a value or the
    exception that stopped them. *)
Definition M (A : Type) : Type := (list Action * result A)%type.

Definition ret {A} (a : A) : M A := ([], Ok a).

Definition bind {A B} (m : M A) (f : A -> M B) : M B :=
  match m with
  | (t, Ok a) => let '(t', r) := f a in ((t ++ t')%list, r)
  | (t, Raise e) => (t, Raise e)
  end.

Definition emit (s : Signal) : M unit := ([Emit s], Ok tt).

Definition call {A} (a : Action) (r : result A) : M A := ([a], r).

Definition eval {A} (r : result A) : M A := ([], r).

Notation "x <- m ;; f" := (bind m (fun x => f))
  (at level 61, m at next level, right associativity).
Notation "m ;;; f" := (bind m (fun _ => f))
  (at level 61, right associativity).

(** [range(1, total_pages + 1)] *)
Definition page_range (total_pages : Z) : list Z :=
  map (fun i => Z.of_nat i) (seq 1 (Z.to_nat total_pages)).

(** [5 + int(((page_num - 1) / total_pages) * 90)] *)
Definition progress_percent (page_num total_pages : Z) : result Z :=
  match PyFloat.int_of_ratio (page_num - 1) total_pages 90 with
  | Ok x => Ok (5 + x)
  | Raise e => Raise e
  end.

(** [progress_percent + int((1 / total_pages) * 9)] *)
Definition conversion_progress (page_num total_pages : Z) : result Z :=
  match progress_percent page_num total_pages with
  | Ok x =>
      match PyFloat.int_of_ratio 1 total_pages 9 with
      | Ok y => Ok (x + y)
      | Raise e => Raise e
      end
  | Raise e => Raise e
  end.

(** [5 + int((page_num / total_pages) * 90)] *)
Definition ocr_progress (page_num total_pages : Z) : result Z :=
  match PyFloat.int_of_ratio page_num total_pages 90 with
  | Ok x => Ok (5 + x)
  | Raise e => Raise e
  end.

Definition conversion_message (page_num total_pages : Z) : string :=
  "Converting page " ++ PyStr.str_of_int page_num ++ " of "
  ++ PyStr.str_of_int total_pages ++ " to image...".

Definition ocr_message (page_num total_pages : Z) : string :=
  "Extracting text from page " ++ PyStr.str_of_int page_num ++ " of "
  ++ PyStr.str_of_int total_pages ++ "...".

Definition newline : string := String (PyStr.chr 10) EmptyString.

(** The body of the [for] loop over the pages still to do; [text] is the
    accumulator. *)
Fixpoint pages_loop (sv : Services) (total_pages : Z) (pages : list Z)
    (text : string) : M string :=
  match pages with
  | [] => ret text
  | page_num :: rest =>
      c <- eval (conversion_progress page_num total_pages) ;;
      emit (progress c (conversion_message page_num total_pages)) ;;;
      images <- call (ConvertPage page_num) (convert_from_path sv page_num) ;;
      match images with
      | [] => pages_loop sv total_pages rest text
      | image :: _ =>
          o <- eval (ocr_progress page_num total_pages) ;;
          emit (progress o (ocr_message page_num total_pages)) ;;;
          page_text <- call (Recognize image) (image_to_string sv image) ;;
          pages_loop sv total_pages rest (text ++ page_text ++ newline)
      end
  end.

(** The [try] block of [run]. *)
Definition run_body (sv : Services) : M unit :=
  emit (progress 0 "Opening PDF and counting pages...") ;;;
  total_pages <- call OpenDocument (page_count sv) ;;
  if total_pages =? 0 then
    emit (error "No pages found in PDF")
  else
    emit (progress 5 ("Found " ++ PyStr.str_of_int total_pages
                      ++ " page(s). Starting conversion...")) ;;;
    text <- pages_loop sv total_pages (page_range total_pages) "" ;;
    emit (progress 100 "OCR complete!") ;;;
    emit (finished text).

(** [run]: the [except] clause turns an exception into the error signal. *)
Definition run (sv : Services) : list Action :=
  match run_body sv with
  | (t, Ok _) => t
  | (t, Raise e) => (t ++ [Emit (error ("OCR Error: " ++ e))])%list
  end.

(** The percentages a trace emits, in order. *)
Definition percents (t : list Action) : list Z :=
  flat_map (fun a => match a with Emit (progress v _) => [v] | _ => [] end) t.

Definition is_terminal (a : Action) : bool :=
  match a with
  | Emit (finished _) | Emit (error _) => true
  | _ => false
  end.

Definition is_page_call (a : Action) : bool :=
  match a with
  | ConvertPage _ | Recognize _ => true
  | _ => false
  end.

(** A run was successful when its last action emits [finished]. *)
Definition succeeded (t : list Action) : Prop :=
  exists text, last t OpenDocument = Emit (finished text).

End OCRWorker.

(* ===================================================================== *)
(** * [KeywordEstimatorApp]: table, counting, aggregation, export *)
(* ===================================================================== *)

Module App.

Import PyStr.

(** The tuples [(keyword, count, value, subtotal)]. *)
Definition CountRecord : Type := (string * Z * Z * Z)%type.

Definition keyword_of (r : CountRecord) : string := let '(k, _, _, _) := r in k.
Definition count_of (r : CountRecord) : Z := let '(_, c, _, _) := r in c.
Definition value_of (r : CountRecord) : Z := let '(_, _, v, _) := r in v.
Definition subtotal_of (r : CountRecord) : Z := let '(_, _, _, s) := r in s.

(** A [QMessageBox] that was shown. *)
Variant Icon : Type := Warning | Critical | Information.

Record MessageBox : Type := {
  icon : Icon;
  title : string;
  body : string
}.

(** One row of the keyword table: [item(row, 0)] and [item(row, 1)], each
    [None] for a cell that holds no item, else the item's text. *)
Definition TableRow : Type := (option string * option string)%type.

(** The worker thread as the window sees it: the actions of its [run],
    and how many of them it has performed so far. *)
Record Thread : Type := {
  script : list OCRWorker.Action;
  executed : nat
}.

Record ProgressDialog : Type := {
  dialog_value : Z;
  dialog_label : string;
  dialog_open : bool
}.

(** A cell of the exported work sheet. *)
Variant Cell : Type := CStr (s : string) | CInt (n : Z).

(** The fields of the window that the methods below read or write;
    [boxes] lists the message boxes shown so far, oldest first. *)
Record State : Type := {
  pdf_path : option string;
  keywords_table : list TableRow;
  ocr_worker : option Thread;
  progress_dialog : option ProgressDialog;
  extracted_text : string;
  results_table : list (list string);
  export_enabled : bool;
  current_results : option (list CountRecord);
  boxes : list MessageBox
}.

Definition show (b : MessageBox) (st : State) : State :=
  {| pdf_path := pdf_path st; keywords_table := keywords_table st;
     ocr_worker := ocr_worker st; progress_dialog := progress_dialog st;
     extracted_text := extracted_text st; results_table := results_table st;
     export_enabled := export_enabled st; current_results := current_results st;
     boxes := (boxes st ++ [b])%list |}.

(** ** [get_keywords_from_table] *)

Definition invalid_value_box (keyword : string) : MessageBox :=
  {| icon := Warning; title := "Invalid Value";
     body := "Value for keyword '" ++ keyword
             ++ "' must be an integer. Skipping this entry." |}.

(** One turn of the loop over the rows: the dictionary so far and the
    warnings shown so far. *)
Definition read_row (acc : dict Z * list MessageBox) (row : TableRow)
    : dict Z * list MessageBox :=
  match row with
  | (Some keyword_item, Some value_item) =>
      let keyword := strip keyword_item in
      let value_text := strip value_item in
      if truthy keyword && truthy value_text then
        match py_int value_text with
        | Some value => (dict_set (fst acc) keyword value, snd acc)
        | None => (fst acc, (snd acc ++ [invalid_value_box keyword])%list)
        end
      else acc
  | _ => acc
  end.

Definition get_keywords_from_table (table : list TableRow)
    : dict Z * list MessageBox :=
  fold_left read_row table ([], []).

(** ** [count_keywords] *)

Definition count_keywords (text : string) (keywords : dict Z) : list CountRecord :=
  fold_left
    (fun results kv =>
       let '(keyword, value) := kv in
       let pattern := Regex.compile_escaped keyword in
       let count := Z.of_nat (List.length (Regex.findall pattern text)) in
       let subtotal := count * value in
       (results ++ [(keyword, count, value, subtotal)])%list)
    keywords [].

(** ** [display_extracted_text] *)

Definition max_chars : nat := 5000.

Definition display_extracted_text (text : string) (st : State) : State :=
  let display_text := take max_chars text in
  let display_text :=
    if (max_chars <? String.length text)%nat then
      display_text ++ OCRWorker.newline ++ OCRWorker.newline
      ++ "... (showing first " ++ str_of_int (Z.of_nat max_chars)
      ++ " characters of " ++ str_of_int (Z.of_nat (String.length text))
      ++ " total)"
    else display_text in
  {| pdf_path := pdf_path st; keywords_table := keywords_table st;
     ocr_worker := ocr_worker st; progress_dialog := progress_dialog st;
     extracted_text := display_text; results_table := results_table st;
     export_enabled := export_enabled st; current_results := current_results st;
     boxes := boxes st |}.

(** ** [display_results] *)

(** [results_table] lists the rows in the order in which the method
    inserts them; what the widget does with them afterwards (its own
    interactive sorting) is outside the program. *)

(** The loop [grand_total += subtotal]. *)
Definition sum_subtotals (results : list CountRecord) : Z :=
  fold_left (fun grand_total r => grand_total + subtotal_of r) results 0.

(** [sorted(results, key=lambda x: x[0].lower())] *)
Definition sort_results (results : list CountRecord) : list CountRecord :=
  sorted (fun x => lower (keyword_of x)) results.

Definition result_row (r : CountRecord) : list string :=
  [keyword_of r; str_of_int (count_of r); str_of_int (value_of r);
   str_of_int (subtotal_of r)].

Definition total_row (grand_total : Z) : list string :=
  ["GRAND TOTAL"; ""; ""; str_of_int grand_total].

Definition display_results (results : list CountRecord) (st : State) : State :=
  let grand_total := sum_subtotals results in
  let sorted_results := sort_results results in
  {| pdf_path := pdf_path st; keywords_table := keywords_table st;
     ocr_worker := ocr_worker st; progress_dialog := progress_dialog st;
     extracted_text := extracted_text st;
     results_table := (map result_row sorted_results ++ [total_row grand_total])%list;
     export_enabled := true;
     current_results := Some results;
     boxes := boxes st |}.

(** ** The slots of the worker's signals *)

Definition close_progress_dialog (st : State) : State :=
  {| pdf_path := pdf_path st; keywords_table := keywords_table st;
     ocr_worker := ocr_worker st;
     progress_dialog :=
       option_map (fun d => {| dialog_value := dialog_value d;
                               dialog_label := dialog_label d;
                               dialog_open := false |}) (progress_dialog st);
     extracted_text := extracted_text st; results_table := results_table st;
     export_enabled := export_enabled st; current_results := current_results st;
     boxes := boxes st |}.

Definition on_ocr_progress (value : Z) (message : string) (st : State) : State :=
  {| pdf_path := pdf_path st; keywords_table := keywords_table st;
     ocr_worker := ocr_worker st;
     progress_dialog :=
       option_map (fun d => {| dialog_value := value;
                               dialog_label := message;
                               dialog_open := dialog_open d |}) (progress_dialog st);
     extracted_text := extracted_text st; results_table := results_table st;
     export_enabled := export_enabled st; current_results := current_results st;
     boxes := boxes st |}.

Definition no_text_box : MessageBox :=
  {| icon := Warning; title := "No Text Found";
     body := "OCR completed but no text was found in the PDF. "
             ++ "The PDF might be empty or the images might not contain readable text." |}.

Definition on_ocr_finished (text : string) (keywords : dict Z) (st : State) : State :=
  let st := close_progress_dialog st in
  if negb (truthy (strip text)) then show no_text_box st
  else
    let st := display_extracted_text text st in
    let results := count_keywords text keywords in
    display_results results st.

Definition on_ocr_error (error_message : string) (st : State) : State :=
  let st := close_progress_dialog st in
  show {| icon := Critical; title := "OCR Error";
          body := error_message ++ OCRWorker.newline ++ OCRWorker.newline
                  ++ "Please ensure Tesseract OCR is properly installed on your system." |}
       st.

(** ** Cancellation: [on_ocr_canceled] *)

Definition is_running (w : Thread) : bool :=
  (executed w <? List.length (script w))%nat.


(** [terminate()] followed by [wait()]: the thread is stopped where it
    stands, or [lag] actions later when the operating system does not stop
    it at once; nothing of its script is run after that. *)
Definition terminate (lag : nat) (w : Thread) : Thread :=
  let done := firstn (executed w + lag) (script w) in
  {| script := done; executed := List.length done |}.

Definition on_ocr_canceled (lag : nat) (st : State) : State :=
  {| pdf_path := pdf_path st; keywords_table := keywords_table st;
     ocr_worker :=
       match ocr_worker st with
       | Some w => if is_running w then Some (terminate lag w) else Some w
       | None => None
       end;
     progress_dialog := progress_dialog st;
     extracted_text := extracted_text st; results_table := results_table st;
     export_enabled := export_enabled st; current_results := current_results st;
     boxes := boxes st |}.

(** ** [calculate_total] and [extract_text_with_ocr] *)

Definition extract_text_with_ocr (sv : OCRWorker.Services) (st : State) : State :=
  {| pdf_path := pdf_path st; keywords_table := keywords_table st;
     ocr_worker := Some {| script := OCRWorker.run sv; executed := 0 |};
     progress_dialog := Some {| dialog_value := 0;
                                dialog_label := "Initializing OCR...";
                                dialog_open := true |};
     extracted_text := extracted_text st; results_table := results_table st;
     export_enabled := export_enabled st; current_results := current_results st;
     boxes := boxes st |}.

(** The button's slot.  The second component is the keyword dictionary the
    worker's [finished] signal was connected with, when a worker was
    started.  The auto-save of the keywords file is left aside here;
    [Store.calculate_total_and_save] gives the method with it. *)
Definition calculate_total (sv : OCRWorker.Services) (st : State)
    : State * option (dict Z) :=
  match pdf_path st with
  | None =>
      (show {| icon := Warning; title := "No PDF Selected";
               body := "Please select a PDF file first." |} st, None)
  | Some _ =>
      let '(keywords, warnings) := get_keywords_from_table (keywords_table st) in
      let st := fold_left (fun s b => show b s) warnings st in
      match keywords with
      | [] =>
          (show {| icon := Warning; title := "No Keywords";
                   body := "Please enter at least one keyword with a value." |} st,
           None)
      | _ => (extract_text_with_ocr sv st, Some keywords)
      end
  end.

(** ** [export_to_excel] *)

Definition header_row : list Cell :=
  [CStr "Keyword"; CStr "Count"; CStr "Value"; CStr "Subtotal"].

Definition export_row (r : CountRecord) : list Cell :=
  [CStr (keyword_of r); CInt (count_of r); CInt (value_of r); CInt (subtotal_of r)].

(** The loop over the sorted rows: each row is appended to the sheet and
    its subtotal is added to [grand_total]. *)
Definition export_step (acc : list (list Cell) * Z) (r : CountRecord)
    : list (list Cell) * Z :=
  ((fst acc ++ [export_row r])%list, snd acc + subtotal_of r).

(** The sheet written inside the [try] block. *)
Definition build_sheet (results : list CountRecord) : list (list Cell) :=
  let sorted_results := sort_results results in
  let '(ws, grand_total) := fold_left export_step sorted_results ([header_row], 0) in
  (ws ++ [[CStr "GRAND TOTAL"; CStr ""; CStr ""; CInt grand_total]])%list.

(** [file_path] is what the save dialog returned (empty when the user
    cancelled); [save] is what [wb.save] does: [Ok tt] or the exception. *)
Definition export_to_excel (file_path : string) (save : result unit) (st : State)
    : State * option (list (list Cell)) :=
  match current_results st with
  | None | Some [] =>
      (show {| icon := Warning; title := "No Results";
               body := "No results to export. Please calculate first." |} st, None)
  | Some results =>
      if negb (truthy file_path) then (st, None)
      else
        match save with
        | Ok _ =>
            (show {| icon := Information; title := "Export Successful";
                     body := "Results exported successfully to:"
                             ++ OCRWorker.newline ++ file_path |} st,
             Some (build_sheet results))
        | Raise e =>
            (show {| icon := Critical; title := "Export Error";
                     body := "Could not export to Excel:" ++ OCRWorker.newline ++ e |} st,
             None)
        end
  end.

End App.

(* ===================================================================== *)
(** * The [csv] module with its default dialect, and text files *)
(* ===================================================================== *)

Module Csv.

Import PyStr.

(** The dialect [excel]: delimiter [,], quote character the double quote
    (doubled inside a quoted field), minimal quoting, line terminator
    CR LF, no escape character, not strict. *)
Definition delimiter : ascii := ","%char.
Definition quotechar : ascii := chr 34.
Definition CR : ascii := chr 13.
Definition LF : ascii := chr 10.

(** ** [csv.writer] *)

(** The characters that make the writer quote a field: the delimiter, the
    quote character and the characters of the line terminator. *)
Definition is_special (c : ascii) : bool :=
  Ascii.eqb c delimiter || Ascii.eqb c quotechar || Ascii.eqb c CR || Ascii.eqb c LF.

Fixpoint has_special (s : string) : bool :=
  match s with
  | EmptyString => false
  | String c r => is_special c || has_special r
  end.

(** The field data as it is copied: every quote character is doubled. *)
Fixpoint doubled (s : string) : string :=
  match s with
  | EmptyString => EmptyString
  | String c r =>
      if Ascii.eqb c quotechar then String quotechar (String quotechar (doubled r))
      else String c (doubled r)
  end.

(** One field of a record. *)
Definition join_append (field : string) : string :=
  if has_special field then String quotechar (doubled field ++ String quotechar "")
  else field.

(** The fields of a record, a delimiter before each but the first. *)
Fixpoint join (fields : list string) : string :=
  match fields with
  | [] => ""
  | [f] => join_append f
  | f :: fs => join_append f ++ String delimiter (join fs)
  end.

(** The record that [writer.writerow(fields)] composes from fields that
    are strings: a record that would be empty (one empty field) is an
    empty quoted field. *)
Definition record_text (fields : list string) : string :=
  match fields, join fields with
  | _ :: _, EmptyString => String quotechar (String quotechar "")
  | _, rec => rec
  end.

(** [writer.writerow(fields)]: the record and the line terminator. *)
Definition writerow (fields : list string) : string :=
  record_text fields ++ String CR (String LF "").

(** [writer.writerows(rows)] *)
Definition writerows (rows : list (list string)) : string :=
  String.concat "" (map writerow rows).

(** ** [csv.reader] *)

(** The states of the parser that the dialect can reach. *)
Variant ParserState : Type :=
| START_RECORD | START_FIELD | IN_FIELD | IN_QUOTED_FIELD
| QUOTE_IN_QUOTED_FIELD | EAT_CRNL.

Record Reader : Type := {
  state : ParserState;
  fields : list string;
  field : string
}.

Definition field_limit : Z := 131072.

Definition set_state (s : ParserState) (r : Reader) : Reader :=
  {| state := s; fields := fields r; field := field r |}.

Definition parse_add_char (r : Reader) (c : ascii) : result Reader :=
  if field_limit <=? Z.of_nat (String.length (field r)) then
    Raise "field larger than field limit (131072)"
  else Ok {| state := state r; fields := fields r; field := field r ++ String c "" |}.

Definition parse_save_field (r : Reader) : Reader :=
  {| state := state r; fields := (fields r ++ [field r])%list; field := "" |}.

Definition is_newline (c : ascii) : bool := Ascii.eqb c LF || Ascii.eqb c CR.

Definition then_state (s : ParserState) (r : result Reader) : result Reader :=
  match r with
  | Ok r' => Ok (set_state s r')
  | Raise e => Raise e
  end.

(** The case [START_FIELD] of the parser; [None] is the end of a line. *)
Definition start_field (r : Reader) (c : option ascii) : result Reader :=
  match c with
  | None => Ok (set_state START_RECORD (parse_save_field r))
  | Some ch =>
      if is_newline ch then Ok (set_state EAT_CRNL (parse_save_field r))
      else if Ascii.eqb ch quotechar then Ok (set_state IN_QUOTED_FIELD r)
      else if Ascii.eqb ch delimiter then Ok (parse_save_field r)
      else then_state IN_FIELD (parse_add_char r ch)
  end.

(** [parse_process_char] *)
Definition parse_process_char (r : Reader) (c : option ascii) : result Reader :=
  match state r with
  | START_RECORD =>
      match c with
      | None => Ok r
      | Some ch =>
          if is_newline ch then Ok (set_state EAT_CRNL r)
          else start_field (set_state START_FIELD r) c
      end
  | START_FIELD => start_field r c
  | IN_FIELD =>
      match c with
      | None => Ok (set_state START_RECORD (parse_save_field r))
      | Some ch =>
          if is_newline ch then Ok (set_state EAT_CRNL (parse_save_field r))
          else if Ascii.eqb ch delimiter then Ok (set_state START_FIELD (parse_save_field r))
          else parse_add_char r ch
      end
  | IN_QUOTED_FIELD =>
      match c with
      | None => Ok r
      | Some ch =>
          if Ascii.eqb ch quotechar then Ok (set_state QUOTE_IN_QUOTED_FIELD r)
          else parse_add_char r ch
      end
  | QUOTE_IN_QUOTED_FIELD =>
      match c with
      | None => Ok (set_state START_RECORD (parse_save_field r))
      | Some ch =>
          if Ascii.eqb ch quotechar then then_state IN_QUOTED_FIELD (parse_add_char r ch)
          else if Ascii.eqb ch delimiter then Ok (set_state START_FIELD (parse_save_field r))
          else if is_newline ch then Ok (set_state EAT_CRNL (parse_save_field r))
          else then_state IN_FIELD (parse_add_char r ch)
      end
  | EAT_CRNL =>
      match c with
      | None => Ok (set_state START_RECORD r)
      | Some ch =>
          if is_newline ch then Ok r
          else Raise ("new-line character seen in unquoted field - "
                      ++ "do you need to open the file with newline=''?")
      end
  end.

(** [parse_reset] *)
Definition reset : Reader := {| state := START_RECORD; fields := []; field := "" |}.

(** The characters of one line, then the end of the line. *)
Fixpoint process_line (r : Reader) (line : string) : result Reader :=
  match line with
  | EmptyString => parse_process_char r None
  | String c rest =>
      match parse_process_char r (Some c) with
      | Ok r' => process_line r' rest
      | Raise e => Raise e
      end
  end.

(** The end of the input inside a record: what was read of it is the last
    record. *)
Definition end_of_input (r : Reader) : list (list string) :=
  match field r, state r with
  | EmptyString, IN_QUOTED_FIELD => [fields (parse_save_field r)]
  | EmptyString, _ => []
  | _, _ => [fields (parse_save_field r)]
  end.

(** [list(reader)] on the lines of the input: a record is complete when a
    line ends in the state [START_RECORD]; [r] is [reset] at the start of
    each record. *)
Fixpoint read_records (r : Reader) (lines : list string)
    : result (list (list string)) :=
  match lines with
  | [] => Ok (end_of_input r)
  | line :: rest =>
      match process_line r line with
      | Raise e => Raise e
      | Ok r' =>
          match state r' with
          | START_RECORD =>
              match read_records reset rest with
              | Ok records => Ok (fields r' :: records)
              | Raise e => Raise e
              end
          | _ => read_records r' rest
          end
      end
  end.

(** ** Text files *)

(** Reading with [newline=None]: CR LF and CR arrive as LF. *)
Fixpoint universal_newlines (s : string) : string :=
  match s with
  | EmptyString => EmptyString
  | String c r =>
      if Ascii.eqb c CR then
        String LF (match r with
                   | String c' r' =>
                       if Ascii.eqb c' LF then universal_newlines r'
                       else universal_newlines r
                   | EmptyString => EmptyString
                   end)
      else String c (universal_newlines r)
  end.

(** The lines of a text, each with its line feed. *)
Fixpoint readlines (s : string) : list string :=
  match s with
  | EmptyString => []
  | String c r =>
      if Ascii.eqb c LF then String c "" :: readlines r
      else match readlines r with
           | [] => [String c ""]
           | l :: ls => String c l :: ls
           end
  end.

(** [list(csv.reader(f))] for a file opened for reading in text mode, of
    which [text] is the decoded content. *)
Definition reader (text : string) : result (list (list string)) :=
  read_records reset (readlines (universal_newlines text)).

End Csv.

(* ===================================================================== *)
(** * [KeywordEstimatorApp]: the keyword table and the keywords file *)
(* ===================================================================== *)

Module Store.

Import PyStr App.

(** The file [~/.word_estimator/keywords.csv] as the program finds it:
    [None] when it does not exist; otherwise what opening and reading it
    gives, its decoded text or the exception raised. *)
Definition KeywordsFile : Type := option (result string).

Definition with_table (t : list TableRow) (st : State) : State :=
  {| pdf_path := pdf_path st; keywords_table := t;
     ocr_worker := ocr_worker st; progress_dialog := progress_dialog st;
     extracted_text := extracted_text st; results_table := results_table st;
     export_enabled := export_enabled st; current_results := current_results st;
     boxes := boxes st |}.

(** ** The window as [__init__] and [init_ui] build it *)

(** No document, five empty rows, nothing extracted, no results, the
    export button disabled. *)
Definition init_ui : State :=
  {| pdf_path := None; keywords_table := repeat (None, None) 5;
     ocr_worker := None; progress_dialog := None; extracted_text := "";
     results_table := []; export_enabled := false; current_results := None;
     boxes := [] |}.

(** ** [load_keywords] *)

(** [setItem(row, column, QTableWidgetItem(text))]; a cell outside the
    table is not set. *)
Fixpoint set_item (row column : nat) (text : string) (t : list TableRow)
    : list TableRow :=
  match t, row with
  | [], _ => []
  | (keyword_item, value_item) :: t', O =>
      match column with
      | O => (Some text, value_item) :: t'
      | S O => (keyword_item, Some text) :: t'
      | _ => t
      end
  | r :: t', S n => r :: set_item n column text t'
  end.

(** [str(e)] when a list of [n] fields is unpacked into two names. *)
Definition unpack_error (n : nat) : string :=
  if (n <? 2)%nat then
    "not enough values to unpack (expected 2, got " ++ str_of_int (Z.of_nat n) ++ ")"
  else "too many values to unpack (expected 2)".

(** The loop [for row, (keyword, value) in enumerate(keywords)], from the
    index [row] on: the table so far, and the exception that stopped the
    loop if any. *)
Fixpoint populate (keywords : list (list string)) (row : nat) (t : list TableRow)
    : list TableRow * result unit :=
  match keywords with
  | [] => (t, Ok tt)
  | [keyword; value] :: rest =>
      populate rest (S row) (set_item row 1 value (set_item row 0 keyword t))
  | fields :: _ => (t, Raise (unpack_error (List.length fields)))
  end.

Definition load_error_box (e : string) : MessageBox :=
  {| icon := Warning; title := "Load Error";
     body := "Could not load keywords from file:" ++ OCRWorker.newline ++ e
             ++ OCRWorker.newline ++ OCRWorker.newline
             ++ "Starting with empty table." |}.

Definition load_keywords (file : KeywordsFile) (st : State) : State :=
  match file with
  | None => st
  | Some (Raise e) => show (load_error_box e) st
  | Some (Ok text) =>
      match Csv.reader text with
      | Raise e => show (load_error_box e) st
      | Ok [] => st
      | Ok keywords =>
          (* clearContents(), setRowCount(len(keywords)) *)
          let blank := repeat (None, None) (List.length keywords) in
          let '(t, r) := populate keywords 0 blank in
          match r with
          | Ok _ => with_table t st
          | Raise e => show (load_error_box e) (with_table t st)
          end
      end
  end.

(** [__init__]: the window is built, then the keywords are loaded. *)
Definition init (file : KeywordsFile) : State := load_keywords file init_ui.

(** ** [save_keywords] and [manual_save_keywords] *)

(** One turn of the loop over the rows of the table. *)
Definition save_row (keywords : list (list string)) (row : TableRow)
    : list (list string) :=
  match row with
  | (Some keyword_item, Some value_item) =>
      let keyword := strip keyword_item in
      let value := strip value_item in
      if truthy keyword && truthy value then (keywords ++ [[keyword; value]])%list
      else keywords
  | _ => keywords
  end.

Definition save_error_box (e : string) : MessageBox :=
  {| icon := Critical; title := "Save Error";
     body := "Could not save keywords to file:" ++ OCRWorker.newline ++ e |}.

(** What the system lets the [try] block do: it runs to its end; or
    making the directory ([get_keywords_dir]) or opening the file raises
    [e], before the file is touched; or the file is opened for writing,
    which empties it, and writing or closing it raises [e], after which
    the file is there and reading it gives [remains]. *)
Variant SaveIO : Type :=
| Saved
| RaisesBeforeOpen (e : string)
| RaisesAfterOpen (e : string) (remains : result string).

(** The file is opened with [newline=''], so the text is written as the
    writer composes it. *)
Definition save_keywords (io : SaveIO) (st : State) (file : KeywordsFile)
    : State * KeywordsFile :=
  let keywords := fold_left save_row (keywords_table st) [] in
  match io with
  | RaisesBeforeOpen e => (show (save_error_box e) st, file)
  | RaisesAfterOpen e remains => (show (save_error_box e) st, Some remains)
  | Saved => (st, Some (Ok (Csv.writerows keywords)))
  end.

(** [path] is [str(self.keywords_file)]. *)
Definition manual_save_keywords (path : string) (io : SaveIO) (st : State)
    (file : KeywordsFile) : State * KeywordsFile :=
  let '(st, file) := save_keywords io st file in
  (show {| icon := Information; title := "Keywords Saved";
           body := "Keywords have been saved to:" ++ OCRWorker.newline ++ path |} st,
   file).

(** ** The buttons of the keyword table, and [browse_pdf] *)

(** [file_path] is what the file dialog returned, empty when it was
    cancelled. *)
Definition browse_pdf (file_path : string) (st : State) : State :=
  if truthy file_path then
    {| pdf_path := Some file_path; keywords_table := keywords_table st;
       ocr_worker := ocr_worker st; progress_dialog := progress_dialog st;
       extracted_text := extracted_text st; results_table := results_table st;
       export_enabled := export_enabled st; current_results := current_results st;
       boxes := boxes st |}
  else st.

Definition add_table_row (st : State) : State :=
  with_table (keywords_table st ++ [(None, None)])%list st.

(** [removeRow(n)] *)
Fixpoint remove_row (n : nat) (t : list TableRow) : list TableRow :=
  match t, n with
  | [], _ => []
  | _ :: t', O => t'
  | r :: t', S m => r :: remove_row m t'
  end.

(** [current_row] is [currentRow()]: the index of the selected row, or -1
    when no row is selected. *)
Definition remove_table_row (current_row : Z) (st : State) : State :=
  if 0 <=? current_row then
    with_table (remove_row (Z.to_nat current_row) (keywords_table st)) st
  else
    show {| icon := Warning; title := "No Selection";
            body := "Please select a row to remove." |} st.

(** [clearContents()]: the rows stay, their items go. *)
Definition clear_table (st : State) : State :=
  with_table (map (fun _ => (None, None)) (keywords_table st)) st.

(** ** [calculate_total] with its auto-save *)

(** [App.calculate_total] leaves the keywords file aside; here the method
    is given with the file, statement by statement. *)
Definition calculate_total_and_save (sv : OCRWorker.Services) (io : SaveIO)
    (st : State) (file : KeywordsFile) : State * KeywordsFile * option (dict Z) :=
  if negb (match pdf_path st with Some p => truthy p | None => false end) then
    (show {| icon := Warning; title := "No PDF Selected";
             body := "Please select a PDF file first." |} st, file, None)
  else
    let '(keywords, warnings) := get_keywords_from_table (keywords_table st) in
    let st := fold_left (fun s b => show b s) warnings st in
    match keywords with
    | [] =>
        (show {| icon := Warning; title := "No Keywords";
                 body := "Please enter at least one keyword with a value." |} st,
         file, None)
    | _ =>
        let '(st, file) := save_keywords io st file in
        (extract_text_with_ocr sv st, file, Some keywords)
    end.

End Store.

(* ===================================================================== *)
(** * [export_to_excel]: the file name proposed to the save dialog *)
(* ===================================================================== *)

Module ExportName.

Import PyStr.

(** [str.isalnum] on one character of the first 256 code points: the
    ASCII digits and letters, the Latin-1 letters, the ordinal
    indicators, the micro sign, the superscript digits and the vulgar
    fractions. *)
Definition is_alnum (c : ascii) : bool :=
  let n := ord c in
  ((48 <=? n) && (n <=? 57)) || ((65 <=? n) && (n <=? 90))
  || ((97 <=? n) && (n <=? 122))
  || (n =? 170) || (n =? 178) || (n =? 179) || (n =? 181) || (n =? 185)
  || (n =? 186) || ((188 <=? n) && (n <=? 190))
  || ((192 <=? n) && (n <=? 214)) || ((216 <=? n) && (n <=? 246))
  || ((248 <=? n) && (n <=? 255)).

(** [c.isalnum() or c in (' ', '-', '_')] *)
Definition kept_char (c : ascii) : bool :=
  is_alnum c || Ascii.eqb c " "%char || Ascii.eqb c "-"%char || Ascii.eqb c "_"%char.

(** ["".join(c for c in s if keep(c))] *)
Fixpoint join_filter (keep : ascii -> bool) (s : string) : string :=
  match s with
  | EmptyString => EmptyString
  | String c r => if keep c then String c (join_filter keep r) else join_filter keep r
  end.

(** The sanitized name of the document. *)
Definition sanitize (pdf_name : string) : string :=
  strip (join_filter kept_char pdf_name).

(** [default_filename]: [stem] is [Path(self.pdf_path).stem] when a
    document is selected, [timestamp] is
    [datetime.now().strftime('%Y%m%d_%H%M%S')]. *)
Definition default_filename (stem : option string) (timestamp : string) : string :=
  match stem with
  | Some pdf_name => sanitize pdf_name ++ "_results_" ++ timestamp ++ ".xlsx"
  | None => "keyword_results_" ++ timestamp ++ ".xlsx"
  end.

End ExportName.

(* ===================================================================== *)
(** * Notions used in the statements and in their proofs *)
(* ===================================================================== *)

Import PyStr OCRWorker App.

(** ** Aggregation, the keyword table, occurrences *)

(** The sum of the [subtotal] fields of a list of records. *)
Definition total_of_subtotals (records : list CountRecord) : Z :=
  fold_right (fun r acc => subtotal_of r + acc) 0 records.

(** Case-insensitive, locale-independent comparison of two keywords: the
    code points of the lower-cased keywords, compared lexicographically. *)
Definition ci_key (r : CountRecord) : string := lower (keyword_of r).

Definition ci_le (a b : CountRecord) : Prop :=
  String.leb (ci_key a) (ci_key b) = true.

(** The records of [l] whose keyword is [k] up to case, in the order of [l]. *)
Definition same_keyword (k : string) (l : list CountRecord) : list CountRecord :=
  filter (fun r => String.eqb (ci_key r) k) l.

(** A row contributes the entry [k -> v]: both cells hold an item, both
    texts are non-empty once trimmed, and the value text is an integer. *)
Definition valid_row (row : TableRow) (k : string) (v : Z) : Prop :=
  exists kt vt, row = (Some kt, Some vt) /\ strip kt = k /\ k <> ""
                /\ strip vt <> "" /\ py_int (strip vt) = Some v.

(** A row names the keyword [k] with a value text that is present but is
    no integer. *)
Definition invalid_row (row : TableRow) (k : string) : Prop :=
  exists kt vt, row = (Some kt, Some vt) /\ strip kt = k /\ k <> ""
                /\ strip vt <> "" /\ py_int (strip vt) = None.

(** One warning for each invalid row, in the order of the rows, and none
    for any other row. *)
Inductive warnings_for : list TableRow -> list MessageBox -> Prop :=
| warnings_nil : warnings_for [] []
| warnings_invalid row k rows ws :
    invalid_row row k -> warnings_for rows ws ->
    warnings_for (row :: rows) (invalid_value_box k :: ws)
| warnings_other row rows ws :
    (forall k, ~ invalid_row row k) -> warnings_for rows ws ->
    warnings_for (row :: rows) ws.

(** The entry of [k] comes from the last row that contributes one. *)
Definition last_entry (table : list TableRow) (k : string) (v : Z) : Prop :=
  exists pre row post,
    table = (pre ++ row :: post)%list /\ valid_row row k v
    /\ forall r v', In r post -> ~ valid_row r k v'.

(** The keyword [k] occurs in [T] at offset [q], ignoring case: the text
    splits as [pre ++ m ++ post] with [q] characters in [pre] and [m]
    equal to [k] once both are lower-cased. *)
Definition occurs_at (k T : string) (q : nat) : Prop :=
  exists pre m post,
    T = pre ++ m ++ post /\ String.length pre = q /\ lower m = lower k.

(** The offsets picked by a left-to-right, non-overlapping reading of the
    occurrences of [k] in [T]: an occurrence is picked exactly when no
    occurrence picked further left still covers its first character. *)
Definition leftmost_occurrences (k T : string) (P : list nat) : Prop :=
  NoDup P
  /\ forall q, In q P <->
       occurs_at k T q
       /\ forall p, In p P -> (p < q)%nat -> (p + String.length k <= q)%nat.

(** ** Rounding in binary64 *)

(** Where the discarded part [rho / d] of a mantissa lies with respect to
    one half: [loc_Exact] when it is zero, otherwise below, at or above
    the middle. *)
Definition locates (l : location) (rho d : Z) : Prop :=
  match l with
  | loc_Exact => rho = 0
  | loc_Inexact Lt => 0 < rho /\ 2 * rho < d
  | loc_Inexact Eq => 2 * rho = d
  | loc_Inexact Gt => d < 2 * rho
  end.

(** A shift record stands for the mantissa [M] followed by the fraction
    [rho / d]. *)
Definition represents (mrs : shr_record) (M rho d : Z) : Prop :=
  shr_m mrs = M /\ 0 <= M /\ 0 <= rho < d
  /\ locates (loc_of_shr_record mrs) rho d.

(** The value of a float in units of [2 ^ emin], an integer for every
    float that is in the format. *)
Definition float_value (prec emax : Z) (f : spec_float) : Z :=
  match f with
  | S754_finite _ m e => Z.pos m * 2 ^ (e - SpecFloat.emin prec emax)
  | _ => 0
  end.

(** The non-negative numbers of the format: zero, and the finite floats
    in canonical form. *)
Definition representable (prec emax : Z) (f : spec_float) : Prop :=
  match f with
  | S754_zero false => True
  | S754_finite false m e => bounded prec emax m e = true
  | _ => False
  end.

(** [f] is a number of the format nearest to the rational [N / D] (taken
    in units of [2 ^ emin]): no number of the format is closer. *)
Definition nearest_float (prec emax : Z) (N D : Z) (f : spec_float) : Prop :=
  0 < D /\ representable prec emax f
  /\ forall g, representable prec emax g ->
       Z.abs (float_value prec emax f * D - N)
       <= Z.abs (float_value prec emax g * D - N).

(** [a / b] for two positive integers, before [truediv] wraps it. *)
Definition quotient (a b : Z) : spec_float :=
  let '(q, e, l) := SFdiv_core_binary PyFloat.prec PyFloat.emax a 0 b 0 in
  binary_round_aux PyFloat.prec PyFloat.emax false q e l.

(** The floats 1.0, 90.0 and 9.0. *)
Definition one : spec_float := S754_finite false 4503599627370496 (-52).
Definition ninety : spec_float := S754_finite false 6333186975989760 (-46).
Definition nine : spec_float := S754_finite false 5066549580791808 (-49).

(** A positive integer constant [C] whose float [c] is exact and normal. *)
Definition normal_const (C : Z) (c : spec_float) : Prop :=
  PyFloat.of_int C = Ok c /\ 0 < C
  /\ exists mc ec, c = S754_finite false mc ec
       /\ bounded PyFloat.prec PyFloat.emax mc ec = true
       /\ Zdigits2 (Z.pos mc) = PyFloat.prec
       /\ SpecFloat.emin PyFloat.prec PyFloat.emax <= ec <= 0
       /\ Z.pos mc = C * 2 ^ (- ec) /\ PyFloat.prec + ec <= 8.

(** [(a / b) * C] before the conversion to an integer. *)
Definition scaled (a b : Z) (c : spec_float) : spec_float :=
  SFmul PyFloat.prec PyFloat.emax (quotient a b) c.

(** [int((a / b) * C)] as a number; 0 stands in when it raises. *)
Definition ratio_int (a b C : Z) : Z :=
  match PyFloat.int_of_ratio a b C with
  | Ok x => x
  | Raise _ => 0
  end.

(** ** Traces of the worker *)

Definition opening : Action := Emit (progress 0 "Opening PDF and counting pages...").

Definition found_pages (N : Z) : Action :=
  Emit (progress 5 ("Found " ++ str_of_int N ++ " page(s). Starting conversion...")).

Definition complete : Action := Emit (progress 100 "OCR complete!").

(** What the worker does for page [p] of [N] when nothing raises: the
    conversion event, the rendering call and, when the rendering returned
    an image, the recognition event and the recognition call. *)
Definition page_trace (sv : Services) (N p : Z) : list Action :=
  Emit (progress (5 + ratio_int (p - 1) N 90 + ratio_int 1 N 9) (conversion_message p N))
  :: ConvertPage p
  :: match convert_from_path sv p with
     | Ok (image :: _) =>
         [Emit (progress (5 + ratio_int p N 90) (ocr_message p N)); Recognize image]
     | _ => []
     end.

(** The terminal signal that a trace delivers, if any. *)
Fixpoint outcome (t : list Action) : option Signal :=
  match t with
  | [] => None
  | a :: t' =>
      match outcome t' with
      | Some s => Some s
      | None => match a with
                | Emit (finished x) => Some (finished x)
                | Emit (error x) => Some (error x)
                | _ => None
                end
      end
  end.

(** No service raises on the pages 1..N of the document. *)
Definition services_ok (sv : Services) (N : Z) : Prop :=
  forall p, 1 <= p <= N ->
    exists images, convert_from_path sv p = Ok images
      /\ match images with
         | [] => True
         | image :: _ => exists s, image_to_string sv image = Ok s
         end.

(** ** Sample documents and windows *)

(** One page, rendered and read without error. *)
Definition one_page : Services :=
  {| page_count := Ok 1;
     convert_from_path := fun _ => Ok [PageImage 1];
     image_to_string := fun _ => Ok "text" |}.

(** Three pages, the second of which renders to no image. *)
Definition three_pages : Services :=
  {| page_count := Ok 3;
     convert_from_path := fun p => if p =? 2 then Ok [] else Ok [PageImage (Z.to_nat p)];
     image_to_string := fun i => match i with
                                 | PageImage n => Ok ("page " ++ str_of_int (Z.of_nat n))
                                 end |}.

(** A document that reports no page. *)
Definition no_pages : Services :=
  {| page_count := Ok 0;
     convert_from_path := fun _ => Ok [PageImage 1];
     image_to_string := fun _ => Ok "text" |}.

Definition idle : State :=
  {| pdf_path := Some "scan.pdf"; keywords_table := [];
     ocr_worker := None; progress_dialog := None; extracted_text := "";
     results_table := []; export_enabled := false; current_results := None;
     boxes := [] |}.


(** ** Pages of the worker *)

(** Nothing raises on page [q]: it renders, and when the rendering returns
    an image, the first image is read. *)
Definition page_ok (sv : Services) (q : Z) : Prop :=
  exists images, convert_from_path sv q = Ok images
    /\ match images with
       | [] => True
       | image :: _ => exists s, image_to_string sv image = Ok s
       end.

(** Page [p] raises [e]: in the rendering, or in the reading of its first
    image. *)
Definition page_fails (sv : Services) (p : Z) (e : string) : Prop :=
  convert_from_path sv p = Raise e
  \/ exists image images,
       convert_from_path sv p = Ok (image :: images)
       /\ image_to_string sv image = Raise e.

(** What page [p] adds to the text: the text read from its first image and
    a line feed, or nothing when the rendering returned no image. *)
Definition page_text (sv : Services) (p : Z) : string :=
  match convert_from_path sv p with
  | Ok (image :: _) =>
      match image_to_string sv image with
      | Ok s => s ++ newline
      | Raise _ => ""
      end
  | _ => ""
  end.

(** The text of the pages [1..N], in page order. *)
Definition document_text (sv : Services) (N : Z) : string :=
  String.concat "" (map (page_text sv) (page_range N)).

(** The pages that a trace renders, in the order of the calls. *)
Definition rendered_pages (t : list Action) : list Z :=
  flat_map (fun a => match a with ConvertPage p => [p] | _ => [] end) t.

(** Two pages, the second of which cannot be read. *)
Definition unreadable_second_page : Services :=
  {| page_count := Ok 2;
     convert_from_path := fun p => Ok [PageImage (Z.to_nat p)];
     image_to_string := fun i => match i with
                                 | PageImage 1 => Ok "first"
                                 | PageImage _ => Raise "tesseract is not installed"
                                 end |}.

(** ** Counts *)

(** The count that [count_keywords] computes for one keyword. *)
Definition occurrences (k T : string) : Z :=
  Z.of_nat (List.length (Regex.findall (Regex.compile_escaped k) T)).

(** The line feed does not occur in [k]. *)
Definition single_line (k : string) : Prop :=
  ~ In (chr 10) (list_ascii_of_string k).

(** An ascending list of offsets at which [k] occurs in [T], each at
    least [lo] and at least [String.length k] after the one before: a
    choice of occurrences that do not overlap. *)
Fixpoint disjoint_occurrences (k T : string) (lo : nat) (Q : list nat) : Prop :=
  match Q with
  | [] => True
  | q :: Q' =>
      (lo <= q)%nat /\ occurs_at k T q
      /\ disjoint_occurrences k T (q + String.length k) Q'
  end.

(** ** Reading a text character by character *)

(** The carriage return does not occur in [s]. *)
Definition no_carriage_return (s : string) : Prop :=
  ~ In Csv.CR (list_ascii_of_string s).

(** A text that the file keeps as one field: no carriage return, which
    reading with universal newlines would turn into a line feed; no NUL
    character, which the [csv] module of the Python versions before 3.11
    refuses; and no longer than the field limit of the reader. *)
Definition plain_field (s : string) : Prop :=
  no_carriage_return s
  /\ ~ In (PyStr.chr 0) (list_ascii_of_string s)
  /\ Z.of_nat (String.length s) <= Csv.field_limit.

(** The records read from [text] by a reader in state [r]: the loop of
    [Csv.read_records] over the lines and of [Csv.process_line] over
    their characters, as one loop over the characters.  A line ends after
    each line feed and at the end of the text; [mid_line] tells whether
    the current line has received a character. *)
Fixpoint read_chars (r : Csv.Reader) (mid_line : bool) (text : string)
    : result (list (list string)) :=
  match text with
  | EmptyString =>
      if mid_line then Csv.read_records r [EmptyString]
      else Ok (Csv.end_of_input r)
  | String c rest =>
      match Csv.parse_process_char r (Some c) with
      | Raise e => Raise e
      | Ok r1 =>
          if Ascii.eqb c Csv.LF then
            match Csv.parse_process_char r1 None with
            | Raise e => Raise e
            | Ok r2 =>
                match Csv.state r2 with
                | Csv.START_RECORD =>
                    match read_chars Csv.reset false rest with
                    | Ok records => Ok (Csv.fields r2 :: records)
                    | Raise e => Raise e
                    end
                | _ => read_chars r2 false rest
                end
            end
          else read_chars r1 true rest
      end
  end.

(** ** The keyword table and the keywords file *)

(** The rows that saving keeps, as rows of a table: those with an item in
    both cells and both texts non-empty once trimmed, with the trimmed
    texts. *)
Definition kept_rows (table : list TableRow) : list TableRow :=
  flat_map (fun row =>
              match row with
              | (Some k, Some v) =>
                  if truthy (strip k) && truthy (strip v)
                  then [(Some (strip k), Some (strip v))] else []
              | _ => []
              end) table.

(** A document is selected: [self.pdf_path] is a path that is not empty. *)
Definition document_selected (st : State) : Prop :=
  exists path, pdf_path st = Some path /\ path <> "".

(** The box that a save shows: none, or the "Save Error" box. *)
Definition save_boxes (io : Store.SaveIO) : list MessageBox :=
  match io with
  | Store.Saved => []
  | Store.RaisesBeforeOpen e => [Store.save_error_box e]
  | Store.RaisesAfterOpen e _ => [Store.save_error_box e]
  end.

(** Every text of the table can be a field of the file. *)
Definition plain_cells (table : list TableRow) : Prop :=
  Forall (fun row =>
            (forall s, fst row = Some s -> plain_field s)
            /\ (forall s, snd row = Some s -> plain_field s)) table.

(** The record written for a row that is kept. *)
Definition fields_of_row (row : TableRow) : list string :=
  match row with
  | (Some k, Some v) => [k; v]
  | _ => []
  end.

(** A table in the user's hands. *)
Definition sample_table : list TableRow :=
  [(Some " invoice ", Some "12"); (None, None); (Some "tax, total", Some "x");
   (Some "", Some "3");
   (Some ("say " ++ String Csv.quotechar "hi" ++ String Csv.quotechar ""), Some " -4")].

(** ** The window at work *)

(** The window, the keywords file, and the dictionaries that the
    [finished] signals of the workers started so far are connected
    with. *)
Record Session : Type := {
  window : State;
  file : Store.KeywordsFile;
  connected : list (dict Z)
}.

Definition with_window (st : State) (s : Session) : Session :=
  {| window := st; file := file s; connected := connected s |}.

(** One turn of the event loop: a button is clicked and its slot runs
    (the connections of [init_ui]), the user edits a cell of the keyword
    table, or a signal of a worker or of the progress dialog reaches its
    slot (the connections of [extract_text_with_ocr]).  The arguments are
    what the dialogs and the system answer.  The export button can be
    clicked only while it is enabled, and a [finished] signal comes with
    a dictionary it was connected with. *)
Inductive step : Session -> Session -> Prop :=
| browse_clicked s file_path :
    step s (with_window (Store.browse_pdf file_path (window s)) s)
| cell_edited s row column text :
    step s (with_window
              (Store.with_table
                 (Store.set_item row column text (keywords_table (window s)))
                 (window s)) s)
| add_row_clicked s :
    step s (with_window (Store.add_table_row (window s)) s)
| remove_row_clicked s current_row :
    step s (with_window (Store.remove_table_row current_row (window s)) s)
| clear_all_clicked s :
    step s (with_window (Store.clear_table (window s)) s)
| save_keywords_clicked s path io :
    step s {| window := fst (Store.manual_save_keywords path io (window s) (file s));
              file := snd (Store.manual_save_keywords path io (window s) (file s));
              connected := connected s |}
| reload_keywords_clicked s :
    step s (with_window (Store.load_keywords (file s) (window s)) s)
| calculate_clicked s sv io :
    step s {| window := fst (fst (Store.calculate_total_and_save sv io (window s) (file s)));
              file := snd (fst (Store.calculate_total_and_save sv io (window s) (file s)));
              connected :=
                match snd (Store.calculate_total_and_save sv io (window s) (file s)) with
                | Some keywords => (connected s ++ [keywords])%list
                | None => connected s
                end |}
| progress_signal s value message :
    step s (with_window (on_ocr_progress value message (window s)) s)
| finished_signal s text keywords :
    In keywords (connected s) ->
    step s (with_window (on_ocr_finished text keywords (window s)) s)
| error_signal s message :
    step s (with_window (on_ocr_error message (window s)) s)
| dialog_canceled s lag :
    step s (with_window (on_ocr_canceled lag (window s)) s)
| export_clicked s file_path save :
    export_enabled (window s) = true ->
    step s (with_window (fst (export_to_excel file_path save (window s))) s).

(** The sessions that the program can be in: it starts with [__init__]
    on the keywords file as it is found. *)
Inductive reachable : Session -> Prop :=
| started file0 :
    reachable {| window := Store.init file0; file := file0; connected := [] |}
| stepped s s' : reachable s -> step s s' -> reachable s'.

(** What the window shows of the results. *)
Definition results_view (st : State)
    : bool * option (list CountRecord) * list (list string) :=
  (export_enabled st, current_results st, results_table st).

(** The records stored are those of a count: one per keyword of a
    dictionary that is not empty and names no keyword twice. *)
Definition stored_results_ok (st : State) : Prop :=
  match current_results st with
  | None => export_enabled st = false /\ results_table st = []
  | Some results =>
      export_enabled st = true
      /\ results <> []
      /\ NoDup (map keyword_of results)
      /\ Forall (fun r => 0 <= count_of r /\ subtotal_of r = count_of r * value_of r)
           results
      /\ results_table st
         = (map result_row (sort_results results)
            ++ [total_row (total_of_subtotals results)])%list
  end.


(** A first session: the program starts on a keywords file written
    earlier, the user selects a document and clicks "Calculate Total",
    and the worker delivers its text. *)
Definition session_0 : Session :=
  {| window := Store.init (Some (Ok ("apple,10" ++ String Csv.CR (String Csv.LF ""))));
     file := Some (Ok ("apple,10" ++ String Csv.CR (String Csv.LF "")));
     connected := [] |}.

Definition session_1 : Session :=
  with_window (Store.load_keywords (file session_0) (window session_0)) session_0.

Definition session_2 : Session :=
  with_window (Store.browse_pdf "scan.pdf" (window session_1)) session_1.

Definition session_3 : Session :=
  {| window :=
       fst (fst (Store.calculate_total_and_save one_page Store.Saved (window session_2) (file session_2)));
     file :=
       snd (fst (Store.calculate_total_and_save one_page Store.Saved (window session_2) (file session_2)));
     connected :=
       match snd (Store.calculate_total_and_save one_page Store.Saved (window session_2)
                    (file session_2)) with
       | Some keywords => (connected session_2 ++ [keywords])%list
       | None => connected session_2
       end |}.

Definition session_4 : Session :=
  with_window (on_ocr_finished "Apple pie, apple tart" [("apple", 10)] (window session_3))
    session_3.

(** ** The signals of a worker and their slots *)

(** The slot that an action of the worker reaches, as
    [extract_text_with_ocr] connects the signals: [progress] with
    [on_ocr_progress], [finished] with [on_ocr_finished] and the
    dictionary of the calculation, [error] with [on_ocr_error].  The
    calls of the services reach no slot. *)
Definition slot (keywords : dict Z) (a : Action) (st : State) : State :=
  match a with
  | Emit (progress value message) => on_ocr_progress value message st
  | Emit (finished text) => on_ocr_finished text keywords st
  | Emit (error message) => on_ocr_error message st
  | _ => st
  end.

(** The signals of a trace, delivered in the order of their emission. *)
Definition deliver (keywords : dict Z) (t : list Action) (st : State) : State :=
  fold_left (fun s a => slot keywords a s) t st.

Definition dialog_is_open (st : State) : option bool :=
  option_map dialog_open (progress_dialog st).

Definition ocr_error_box (error_message : string) : MessageBox :=
  {| icon := Critical; title := "OCR Error";
     body := error_message ++ newline ++ newline
             ++ "Please ensure Tesseract OCR is properly installed on your system." |}.

(* ===================================================================== *)
(** * Ordering of strings *)
(* ===================================================================== *)

Section StringOrder.

Lemma ascii_compare_refl (a : ascii) : Ascii.compare a a = Eq.
Proof. unfold Ascii.compare. apply N.compare_refl. Qed.

Lemma ascii_compare_lt_trans (a b c : ascii) :
  Ascii.compare a b = Lt -> Ascii.compare b c = Lt -> Ascii.compare a c = Lt.
Proof.
  unfold Ascii.compare. rewrite !N.compare_lt_iff. apply N.lt_trans.
Qed.

Lemma string_compare_refl (s : string) : String.compare s s = Eq.
Proof.
  induction s as [|a s IH]; simpl; [reflexivity|].
  now rewrite ascii_compare_refl.
Qed.

Lemma string_compare_lt_trans (s1 : string) :
  forall s2 s3, String.compare s1 s2 = Lt -> String.compare s2 s3 = Lt ->
                String.compare s1 s3 = Lt.
Proof.
  induction s1 as [|a s1 IH]; intros [|b s2] [|c s3]; simpl; try congruence.
  destruct (Ascii.compare a b) eqn:Hab; try discriminate;
    destruct (Ascii.compare b c) eqn:Hbc; try discriminate; intros H1 H2.
  - apply Ascii.compare_eq_iff in Hab, Hbc. subst.
    rewrite ascii_compare_refl. eauto.
  - apply Ascii.compare_eq_iff in Hab. subst. now rewrite Hbc.
  - apply Ascii.compare_eq_iff in Hbc. subst. now rewrite Hab.
  - now rewrite (ascii_compare_lt_trans a b c).
Qed.

Lemma string_leb_cases (s1 s2 : string) :
  String.leb s1 s2 = true <-> String.compare s1 s2 = Lt \/ s1 = s2.
Proof.
  unfold String.leb. split.
  - destruct (String.compare s1 s2) eqn:H; try discriminate; auto.
    right. now apply String.compare_eq_iff.
  - intros [H| ->]; [now rewrite H | now rewrite string_compare_refl].
Qed.

Lemma string_leb_trans (s1 s2 s3 : string) :
  String.leb s1 s2 = true -> String.leb s2 s3 = true -> String.leb s1 s3 = true.
Proof.
  rewrite !string_leb_cases. intros [H1| ->] [H2| ->]; auto.
  left. eapply string_compare_lt_trans; eauto.
Qed.

Lemma string_ltb_leb (s1 s2 : string) :
  String.ltb s1 s2 = true -> String.leb s1 s2 = true.
Proof.
  unfold String.ltb, String.leb. now destruct (String.compare s1 s2).
Qed.

Lemma string_not_ltb_leb (s1 s2 : string) :
  String.ltb s1 s2 = false -> String.leb s2 s1 = true.
Proof.
  unfold String.ltb, String.leb. rewrite (String.compare_antisym s2 s1).
  now destruct (String.compare s1 s2).
Qed.

Lemma string_ltb_neq (s1 s2 : string) :
  String.ltb s1 s2 = true -> String.eqb s1 s2 = false.
Proof.
  unfold String.ltb. intros H. apply String.eqb_neq. intros ->.
  now rewrite string_compare_refl in H.
Qed.

End StringOrder.

(* ===================================================================== *)
(** * [sorted]: permutation, order, stability *)
(* ===================================================================== *)

Section SortedFacts.

Context {A : Type} (key : A -> string).

Let le_key (a b : A) : Prop := String.leb (key a) (key b) = true.

Lemma insert_sorted_perm (x : A) (l : list A) :
  Permutation (insert_sorted key x l) (x :: l).
Proof.
  induction l as [|y l IH]; simpl; [reflexivity|].
  destruct (String.ltb (key y) (key x)); [|reflexivity].
  rewrite IH. apply perm_swap.
Qed.

Lemma sorted_perm (l : list A) : Permutation (sorted key l) l.
Proof.
  induction l as [|x l IH]; simpl; [reflexivity|].
  rewrite insert_sorted_perm. now constructor.
Qed.

Lemma insert_sorted_ordered (x : A) (l : list A) :
  StronglySorted le_key l -> StronglySorted le_key (insert_sorted key x l).
Proof.
  induction 1 as [|y l Hl IH Hy]; simpl.
  - repeat constructor.
  - destruct (String.ltb (key y) (key x)) eqn:Hlt.
    + constructor; [exact IH|].
      rewrite Forall_forall in *. intros z Hz.
      apply (Permutation_in _ (insert_sorted_perm x l)) in Hz.
      destruct Hz as [<- | Hz]; [now apply string_ltb_leb | now apply Hy].
    + apply string_not_ltb_leb in Hlt.
      constructor; [now constructor|].
      constructor; [exact Hlt|].
      rewrite Forall_forall in *. intros z Hz.
      unfold le_key. eapply string_leb_trans; [exact Hlt|]. now apply Hy.
Qed.

Lemma sorted_ordered (l : list A) : StronglySorted le_key (sorted key l).
Proof.
  induction l as [|x l IH]; simpl; [constructor|].
  now apply insert_sorted_ordered.
Qed.

Lemma insert_sorted_stable (k : string) (x : A) (l : list A) :
  filter (fun r => String.eqb (key r) k) (insert_sorted key x l)
  = filter (fun r => String.eqb (key r) k) (x :: l).
Proof.
  induction l as [|y l IH]; [reflexivity|].
  cbn [insert_sorted].
  destruct (String.ltb (key y) (key x)) eqn:Hlt; [|reflexivity].
  cbn [filter] in *. rewrite IH.
  destruct (String.eqb (key x) k) eqn:Hx; [|reflexivity].
  apply String.eqb_eq in Hx. subst k.
  now rewrite (string_ltb_neq _ _ Hlt).
Qed.

Lemma sorted_stable (k : string) (l : list A) :
  filter (fun r => String.eqb (key r) k) (sorted key l)
  = filter (fun r => String.eqb (key r) k) l.
Proof.
  induction l as [|x l IH]; [reflexivity|].
  cbn [sorted fold_right]. rewrite insert_sorted_stable.
  cbn [filter]. fold (sorted key l). now rewrite IH.
Qed.

End SortedFacts.

(* ===================================================================== *)
(** * Aggregation: grand total and ordering of the result set *)
(* ===================================================================== *)

Section Aggregation.

Lemma sum_subtotals_from (results : list CountRecord) (a : Z) :
  fold_left (fun grand_total r => grand_total + subtotal_of r) results a
  = a + total_of_subtotals results.
Proof.
  revert a. induction results as [|r l IH]; intros a; simpl; [lia|].
  rewrite IH. lia.
Qed.

Lemma total_of_subtotals_perm (l1 l2 : list CountRecord) :
  Permutation l1 l2 -> total_of_subtotals l1 = total_of_subtotals l2.
Proof. induction 1; simpl; lia. Qed.

Lemma export_loop (l : list CountRecord) (ws : list (list Cell)) (g : Z) :
  fold_left export_step l (ws, g)
  = ((ws ++ map export_row l)%list, g + total_of_subtotals l).
Proof.
  revert ws g. induction l as [|r l IH]; intros ws g; simpl.
  - now rewrite app_nil_r, Z.add_0_r.
  - unfold export_step at 2. simpl. rewrite IH, <- app_assoc. simpl.
    f_equal. lia.
Qed.

Lemma build_sheet_rows (results : list CountRecord) :
  build_sheet results
  = (header_row :: map export_row (sort_results results)
     ++ [[CStr "GRAND TOTAL"; CStr ""; CStr ""; CInt (total_of_subtotals results)]])%list.
Proof.
  unfold build_sheet. rewrite export_loop. simpl.
  rewrite (total_of_subtotals_perm (sort_results results) results);
    [reflexivity | apply sorted_perm].
Qed.

(** C2: the grand total shown by [display_results] and the one written
    by [export_to_excel] are the exact sum of the subtotal fields of the
    records, whatever their order; for the empty list the table holds the
    total row alone with total 0, the stored result list is empty and no
    message box is shown; in particular this holds for the records that
    [count_keywords] produces from any text and keyword dictionary.  The
    export writes the sheet whenever results are stored and a file was
    chosen. *)
Theorem grand_total_is_sum_of_subtotals (results : list CountRecord) (st : State) :
  sum_subtotals results = total_of_subtotals results
  /\ results_table (display_results results st)
     = (map result_row (sort_results results)
        ++ [total_row (total_of_subtotals results)])%list
  /\ total_of_subtotals (sort_results results) = total_of_subtotals results
  /\ last (build_sheet results) []
     = [CStr "GRAND TOTAL"; CStr ""; CStr ""; CInt (total_of_subtotals results)]
  /\ (results_table (display_results [] st) = [total_row 0]
      /\ current_results (display_results [] st) = Some []
      /\ boxes (display_results [] st) = boxes st)
  /\ (forall T K,
        last (results_table (display_results (count_keywords T K) st)) []
        = total_row (total_of_subtotals (count_keywords T K)))
  /\ (forall r rs file_path,
        truthy file_path = true ->
        snd (export_to_excel file_path (Ok tt) (display_results (r :: rs) st))
        = Some (build_sheet (r :: rs))).
Proof.
  assert (Hsum : forall l, sum_subtotals l = total_of_subtotals l).
  { intros l. unfold sum_subtotals. now rewrite sum_subtotals_from. }
  split; [apply Hsum|].
  split; [unfold display_results; simpl; now rewrite Hsum|].
  split; [apply total_of_subtotals_perm, sorted_perm|].
  split.
  { rewrite build_sheet_rows.
    change (header_row :: ?l ++ ?x)%list with ((header_row :: l) ++ x)%list.
    apply last_last. }
  split; [repeat split|].
  split.
  { intros T K. unfold display_results. simpl. rewrite Hsum. apply last_last. }
  intros r rs file_path Hf. unfold export_to_excel.
  cbn [display_results current_results]. now rewrite Hf.
Qed.

(** C6: the rows shown by [display_results] and the rows written by
    [export_to_excel] are the records sorted by lower-cased keyword: a
    permutation of the input, every record at most every later one under
    the case-insensitive code-point order, and for each keyword (up to
    case) the records carrying it stand in their input order. *)
Theorem results_sorted_case_insensitive_stable (results : list CountRecord) (st : State) :
  Permutation (sort_results results) results
  /\ StronglySorted ci_le (sort_results results)
  /\ (forall k, same_keyword k (sort_results results) = same_keyword k results)
  /\ removelast (results_table (display_results results st))
     = map result_row (sort_results results)
  /\ removelast (tl (build_sheet results))
     = map export_row (sort_results results).
Proof.
  split; [apply sorted_perm|].
  split; [apply (sorted_ordered (fun x => lower (keyword_of x)))|].
  split; [intros k; apply (sorted_stable (fun x => lower (keyword_of x)))|].
  split.
  - unfold display_results. simpl. apply removelast_last.
  - rewrite build_sheet_rows. simpl. apply removelast_last.
Qed.

End Aggregation.

(* ===================================================================== *)
(** * Reading the keyword table *)
(* ===================================================================== *)

Section KeywordTable.

Lemma dict_get_set {V} (d : dict V) (k k' : string) (v : V) :
  dict_get (dict_set d k v) k' = if String.eqb k k' then Some v else dict_get d k'.
Proof.
  induction d as [|[k0 v0] d IH]; simpl.
  - reflexivity.
  - destruct (String.eqb k0 k) eqn:E0; simpl.
    + apply String.eqb_eq in E0. subst k0.
      now destruct (String.eqb k k').
    + destruct (String.eqb k0 k') eqn:E1; [|exact IH].
      apply String.eqb_eq in E1. subst k0. now rewrite String.eqb_sym, E0.
Qed.

Lemma dict_set_keys {V} (d : dict V) (k k' : string) (v : V) :
  In k' (map fst (dict_set d k v)) <-> k' = k \/ In k' (map fst d).
Proof.
  induction d as [|[k0 v0] d IH]; simpl.
  - intuition.
  - destruct (String.eqb k0 k) eqn:E0; simpl.
    + apply String.eqb_eq in E0. subst k0. intuition.
    + rewrite IH. intuition.
Qed.

Lemma dict_set_nodup {V} (d : dict V) (k : string) (v : V) :
  NoDup (map fst d) -> NoDup (map fst (dict_set d k v)).
Proof.
  induction d as [|[k0 v0] d IH]; simpl; intros H.
  - repeat constructor. intros [].
  - inversion H as [|? ? Hn Hd]; subst.
    destruct (String.eqb k0 k) eqn:E0; simpl; [now constructor|].
    constructor; [|now apply IH].
    rewrite dict_set_keys. intros [->|Hin]; [|contradiction].
    now rewrite String.eqb_refl in E0.
Qed.

Lemma dict_get_in {V} (d : dict V) (k : string) :
  In k (map fst d) -> exists v, dict_get d k = Some v.
Proof.
  induction d as [|[k0 v0] d IH]; simpl; [intros []|].
  intros [->|H]; [rewrite String.eqb_refl; eauto|].
  destruct (String.eqb k0 k); eauto.
Qed.

Lemma truthy_iff (s : string) : truthy s = true <-> s <> "".
Proof. destruct s; simpl; split; congruence. Qed.

Lemma valid_row_functional (row : TableRow) (k k' : string) (v v' : Z) :
  valid_row row k v -> valid_row row k' v' -> k = k' /\ v = v'.
Proof.
  intros (kt & vt & -> & <- & _ & _ & Hv) (kt' & vt' & E & <- & _ & _ & Hv').
  inversion E; subst. split; congruence.
Qed.

Lemma valid_not_invalid (row : TableRow) (k k' : string) (v : Z) :
  valid_row row k v -> ~ invalid_row row k'.
Proof.
  intros (kt & vt & -> & _ & _ & _ & Hv) (kt' & vt' & E & _ & _ & _ & Hv').
  inversion E; subst. congruence.
Qed.

(** What one turn of the loop does, by the kind of the row. *)
Lemma read_row_cases (acc : dict Z * list MessageBox) (row : TableRow) :
  (exists k v, valid_row row k v
               /\ read_row acc row = (dict_set (fst acc) k v, snd acc))
  \/ (exists k, invalid_row row k
                /\ read_row acc row = (fst acc, (snd acc ++ [invalid_value_box k])%list))
  \/ ((forall k v, ~ valid_row row k v) /\ (forall k, ~ invalid_row row k)
      /\ read_row acc row = acc).
Proof.
  destruct row as [[kt|] [vt|]]; simpl;
    try (right; right; repeat split; auto;
         intros; intros (? & ? & E & _); discriminate).
  destruct (truthy (strip kt)) eqn:Hk; simpl.
  2:{ right; right. assert (strip kt = "") by (destruct (strip kt); [auto|discriminate]).
      repeat split; auto; intros; intros (? & ? & E & <- & Hne & _);
        inversion E; subst; congruence. }
  destruct (truthy (strip vt)) eqn:Hv; simpl.
  2:{ right; right. assert (strip vt = "") by (destruct (strip vt); [auto|discriminate]).
      repeat split; auto; intros; intros (? & ? & E & _ & _ & Hne & _);
        inversion E; subst; congruence. }
  apply truthy_iff in Hk, Hv.
  destruct (py_int (strip vt)) as [v|] eqn:Hp.
  - left. exists (strip kt), v. split; [|reflexivity].
    exists kt, vt. auto.
  - right; left. exists (strip kt). split; [|reflexivity].
    exists kt, vt. auto.
Qed.

Lemma fold_read_row_snoc (table : list TableRow) (row : TableRow) acc :
  fold_left read_row (table ++ [row]) acc = read_row (fold_left read_row table acc) row.
Proof. now rewrite fold_left_app. Qed.

Lemma split_snoc {A} (t pre post : list A) (row r : A) :
  (t ++ [row])%list = (pre ++ r :: post)%list ->
  (post = [] /\ pre = t /\ r = row)
  \/ (exists post', post = (post' ++ [row])%list /\ t = (pre ++ r :: post')%list).
Proof.
  intros H. induction post as [|x post' _] using rev_ind.
  - left. apply app_inj_tail in H. intuition.
  - right. exists post'.
    change (pre ++ r :: post' ++ [x])%list with (pre ++ (r :: post') ++ [x])%list in H.
    rewrite app_assoc in H. apply app_inj_tail in H. destruct H as [-> ->]. auto.
Qed.

Lemma warnings_for_snoc_invalid table ws row k :
  warnings_for table ws -> invalid_row row k ->
  warnings_for (table ++ [row]) (ws ++ [invalid_value_box k]).
Proof.
  induction 1; intros Hi; simpl.
  - apply warnings_invalid; [exact Hi | constructor].
  - apply warnings_invalid; auto.
  - apply warnings_other; auto.
Qed.

Lemma warnings_for_snoc_other table ws row :
  warnings_for table ws -> (forall k, ~ invalid_row row k) ->
  warnings_for (table ++ [row]) ws.
Proof.
  induction 1; intros Hi; simpl.
  - apply warnings_other; [exact Hi | constructor].
  - apply warnings_invalid; auto.
  - apply warnings_other; auto.
Qed.

Lemma last_entry_snoc_valid table row k v :
  valid_row row k v ->
  forall k' v', last_entry (table ++ [row]) k' v'
                <-> (k' = k /\ v' = v) \/ (k' <> k /\ last_entry table k' v').
Proof.
  intros Hv k' v'. split.
  - intros (pre & r & post & E & Hr & Hpost).
    apply split_snoc in E. destruct E as [(-> & -> & ->)|(post' & -> & ->)].
    + left. destruct (valid_row_functional _ _ _ _ _ Hv Hr). auto.
    + right. assert (k' <> k).
      { intros ->. apply (Hpost row v); [apply in_or_app; simpl; auto | exact Hv]. }
      split; [assumption|]. exists pre, r, post'. repeat split; auto.
      intros r0 v0 Hin. apply Hpost, in_or_app. auto.
  - intros [(-> & ->)|(Hne & pre & r & post & -> & Hr & Hpost)].
    + exists table, row, []. repeat split; auto.
    + exists pre, r, (post ++ [row])%list. rewrite <- app_assoc. repeat split; auto.
      intros r0 v0 Hin Hv0. apply in_app_or in Hin. destruct Hin as [Hin|[<-|[]]].
      * now apply (Hpost r0 v0).
      * destruct (valid_row_functional _ _ _ _ _ Hv Hv0). congruence.
Qed.

Lemma last_entry_snoc_other table row :
  (forall k v, ~ valid_row row k v) ->
  forall k' v', last_entry (table ++ [row]) k' v' <-> last_entry table k' v'.
Proof.
  intros Hn k' v'. split.
  - intros (pre & r & post & E & Hr & Hpost).
    apply split_snoc in E. destruct E as [(-> & -> & ->)|(post' & -> & ->)].
    + now apply Hn in Hr.
    + exists pre, r, post'. repeat split; auto.
      intros r0 v0 Hin. apply Hpost, in_or_app. auto.
  - intros (pre & r & post & -> & Hr & Hpost).
    exists pre, r, (post ++ [row])%list. rewrite <- app_assoc. repeat split; auto.
    intros r0 v0 Hin Hv0. apply in_app_or in Hin. destruct Hin as [Hin|[<-|[]]].
    + now apply (Hpost r0 v0).
    + now apply Hn in Hv0.
Qed.

Lemma get_keywords_from_table_spec (table : list TableRow) :
  NoDup (map fst (fst (get_keywords_from_table table)))
  /\ warnings_for table (snd (get_keywords_from_table table))
  /\ (forall k v, dict_get (fst (get_keywords_from_table table)) k = Some v
                  <-> last_entry table k v).
Proof.
  unfold get_keywords_from_table.
  induction table as [|row table IH] using rev_ind.
  - simpl. split; [constructor|]. split; [constructor|].
    intros k v. split; [discriminate|].
    intros (pre & r & post & E & _). now destruct pre.
  - rewrite fold_read_row_snoc.
    destruct IH as (Hnd & Hw & Hget).
    destruct (read_row_cases (fold_left read_row table ([], [])) row)
      as [(k & v & Hv & ->)|[(k & Hi & ->)|(Hnv & Hni & ->)]]; simpl.
    + split; [now apply dict_set_nodup|].
      split.
      { apply warnings_for_snoc_other; [exact Hw|].
        intros k'. eapply valid_not_invalid; eauto. }
      intros k' v'. rewrite dict_get_set, (last_entry_snoc_valid _ _ _ _ Hv).
      destruct (String.eqb k k') eqn:E.
      * apply String.eqb_eq in E. subst k'. split.
        -- intros [= ->]. auto.
        -- intros [(_ & ->)|(Hne & _)]; congruence.
      * apply String.eqb_neq in E. rewrite Hget. split.
        -- intros H. right. split; [congruence | exact H].
        -- intros [(-> & _)|(_ & H)]; [congruence | exact H].
    + split; [exact Hnd|].
      split; [now apply warnings_for_snoc_invalid|].
      intros k' v'. rewrite Hget. symmetry. apply last_entry_snoc_other.
      intros k0 v0 Hv. eapply valid_not_invalid; eauto.
    + split; [exact Hnd|].
      split; [now apply warnings_for_snoc_other|].
      intros k' v'. rewrite Hget. symmetry. now apply last_entry_snoc_other.
Qed.



(** Example scenario 3 of the specification: the entry "value" with the
    value text "abc" is dropped with a warning and "cost" is kept. *)
Example scenario_invalid_value :
  get_keywords_from_table [(Some "value", Some "abc"); (Some "cost", Some "3")]
  = ([("cost", 3)], [invalid_value_box "value"]).
Proof. vm_compute. reflexivity. Qed.

End KeywordTable.

(* ===================================================================== *)
(** * Counting keywords *)
(* ===================================================================== *)

Section Counting.

Lemma str_app_assoc (a b c : string) : (a ++ b) ++ c = a ++ b ++ c.
Proof. induction a as [|x a IH]; simpl; [reflexivity | now rewrite IH]. Qed.

Lemma str_app_length (a b : string) :
  String.length (a ++ b) = (String.length a + String.length b)%nat.
Proof. induction a as [|x a IH]; simpl; [reflexivity | now rewrite IH]. Qed.

Lemma str_app_inj (a : string) :
  forall a' b b', String.length a = String.length a' ->
                  a ++ b = a' ++ b' -> a = a' /\ b = b'.
Proof.
  induction a as [|x a IH]; intros [|x' a'] b b'; simpl; try discriminate.
  - auto.
  - intros [= Hl] [= -> H]. destruct (IH _ _ _ Hl H). subst. auto.
Qed.

Lemma lower_length (s : string) : String.length (lower s) = String.length s.
Proof. induction s as [|x s IH]; simpl; [reflexivity | now rewrite IH]. Qed.

Lemma lower_eq_length (a b : string) :
  lower a = lower b -> String.length a = String.length b.
Proof. intros H. rewrite <- (lower_length a), H. apply lower_length. Qed.

Lemma compile_escaped_length (k : string) :
  List.length (Regex.compile_escaped k) = String.length k.
Proof.
  unfold Regex.compile_escaped.
  induction k as [|x k IH]; simpl; [reflexivity | now rewrite IH].
Qed.

(** [match_at] decides an occurrence at the start of the text. *)
Lemma match_at_spec (k : string) :
  forall text,
    Regex.match_at (Regex.compile_escaped k) text = true
    <-> exists m post, text = m ++ post /\ lower m = lower k.
Proof.
  unfold Regex.compile_escaped.
  induction k as [|a k IH]; intros text; simpl.
  - split; [|reflexivity]. intros _. now exists "", text.
  - destruct text as [|c r].
    + split; [discriminate|]. intros ([|? ?] & post & E & H); discriminate.
    + rewrite andb_true_iff, Ascii.eqb_eq, IH. split.
      * intros (Hc & m & post & -> & Hm).
        exists (String c m), post. simpl. split; congruence.
      * intros ([|c' m] & post & E & H); [discriminate|].
        simpl in E, H. inversion E; subst. inversion H.
        split; [reflexivity|]. now exists m, post.
Qed.

Lemma occurs_at_here (k pre text : string) :
  occurs_at k (pre ++ text) (String.length pre)
  <-> Regex.match_at (Regex.compile_escaped k) text = true.
Proof.
  rewrite match_at_spec. split.
  - intros (pre' & m & post & E & Hl & Hm).
    symmetry in Hl. destruct (str_app_inj _ _ _ _ Hl E) as [_ ->]. eauto.
  - intros (m & post & -> & Hm). now exists pre, m, post.
Qed.

Lemma occurs_at_bound (k T : string) (q : nat) :
  occurs_at k T q -> (q + String.length k <= String.length T)%nat.
Proof.
  intros (pre & m & post & -> & <- & Hm).
  rewrite !str_app_length, (lower_eq_length _ _ Hm). lia.
Qed.

Lemma snoc_char (pre : string) (c : ascii) (r : string) :
  (pre ++ String c "") ++ r = pre ++ String c r
  /\ String.length (pre ++ String c "") = S (String.length pre).
Proof. rewrite str_app_assoc, str_app_length. simpl. split; [reflexivity | lia]. Qed.

(** The offsets found by the search loop, for the text [pre ++ text] read
    from offset [length pre] with [skip] characters still to jump. *)
Lemma scan_offsets_spec (k : string) :
  forall text pre skip,
    let P := Regex.scan_offsets (Regex.compile_escaped k) skip (String.length pre) text in
    NoDup P
    /\ forall q, In q P <->
         (String.length pre + skip <= q)%nat
         /\ occurs_at k (pre ++ text) q
         /\ forall p, In p P -> (p < q)%nat -> (p + String.length k <= q)%nat.
Proof.
  induction text as [|c r IH]; intros pre skip; cbn zeta.
  - (* the end of the text *)
    destruct skip as [|skip]; simpl.
    + destruct (Regex.match_at (Regex.compile_escaped k) "") eqn:Hm.
      * split; [repeat constructor; intros []|].
        intros q. split.
        -- intros [<-|[]]. split; [lia|]. split; [now apply occurs_at_here|].
           intros p [<-|[]] Hp. lia.
        -- intros (Hq & Ho & _). left. apply occurs_at_bound in Ho.
           rewrite str_app_length in Ho. simpl in Ho. lia.
      * split; [constructor|]. intros q. split; [intros []|].
        intros (Hq & Ho & _).
        assert (q = String.length pre).
        { apply occurs_at_bound in Ho. rewrite str_app_length in Ho. simpl in Ho. lia. }
        subst q. apply occurs_at_here in Ho. congruence.
    + split; [constructor|]. intros q. split; [intros []|].
      intros (Hq & Ho & _). apply occurs_at_bound in Ho.
      rewrite str_app_length in Ho. simpl in Ho. lia.
  - destruct (snoc_char pre c r) as [HT HL].
    destruct skip as [|skip]; simpl.
    + destruct (Regex.match_at (Regex.compile_escaped k) (String c r)) eqn:Hm.
      * (* a match here: the search resumes after it *)
        specialize (IH (pre ++ String c "")
                       (Nat.pred (List.length (Regex.compile_escaped k)))).
        cbn zeta in IH. rewrite HT, HL, compile_escaped_length in IH.
        rewrite compile_escaped_length.
        destruct IH as [Hnd IH].
        set (P' := Regex.scan_offsets (Regex.compile_escaped k)
                     (Nat.pred (String.length k)) (S (String.length pre)) r) in *.
        split.
        { constructor; [|exact Hnd]. intros Hin. apply IH in Hin. lia. }
        intros q. split.
        -- intros [<-|Hin].
           ++ split; [lia|]. split; [now apply occurs_at_here|].
              intros p [<-|Hp] Hlt; [lia|]. apply IH in Hp. lia.
           ++ apply IH in Hin. destruct Hin as (Hq & Ho & Hno).
              split; [lia|]. split; [exact Ho|].
              intros p [<-|Hp] Hlt; [lia | now apply Hno].
        -- intros (Hq & Ho & Hno).
           destruct (Nat.eq_dec q (String.length pre)) as [->|Hne]; [now left|].
           right. apply IH. split.
           ++ specialize (Hno (String.length pre) (or_introl eq_refl)). lia.
           ++ split; [exact Ho|]. intros p Hp. apply Hno. now right.
      * (* no match here *)
        specialize (IH (pre ++ String c "") 0%nat).
        cbn zeta in IH. rewrite HT, HL in IH. destruct IH as [Hnd IH].
        split; [exact Hnd|].
        intros q. rewrite IH. split.
        -- intros (Hq & Ho & Hno). split; [lia | auto].
        -- intros (Hq & Ho & Hno). split; [|auto].
           destruct (Nat.eq_dec q (String.length pre)) as [->|Hne]; [|lia].
           apply occurs_at_here in Ho. congruence.
    + (* inside the last match *)
      specialize (IH (pre ++ String c "") skip).
      cbn zeta in IH. rewrite HT, HL in IH. destruct IH as [Hnd IH].
      split; [exact Hnd|].
      intros q. rewrite IH.
      replace (S (String.length pre) + skip)%nat
        with (String.length pre + S skip)%nat by lia.
      reflexivity.
Qed.

Lemma scan_offsets_length (p : Regex.pattern) :
  forall text skip off,
    List.length (Regex.scan_offsets p skip off text) = List.length (Regex.scan p skip text).
Proof.
  induction text as [|c r IH]; intros skip off.
  - destruct skip; simpl; [|reflexivity].
    now destruct (Regex.match_at p "").
  - destruct skip; simpl; [|apply IH].
    destruct (Regex.match_at p (String c r)); simpl; now rewrite IH.
Qed.

Lemma findall_leftmost (k T : string) :
  exists P, leftmost_occurrences k T P
            /\ List.length (Regex.findall (Regex.compile_escaped k) T) = List.length P.
Proof.
  exists (Regex.scan_offsets (Regex.compile_escaped k) 0 0 T).
  split; [|unfold Regex.findall; now rewrite scan_offsets_length].
  destruct (scan_offsets_spec k T "" 0%nat) as [Hnd H]. simpl in Hnd, H.
  split; [exact Hnd|]. intros q. rewrite H. split.
  - intros (_ & Ho & Hno). auto.
  - intros (Ho & Hno). split; [lia | auto].
Qed.

(** The selection is determined by the text and the keyword. *)
Lemma leftmost_occurrences_same (k T : string) (P1 P2 : list nat) :
  leftmost_occurrences k T P1 -> leftmost_occurrences k T P2 ->
  forall q, In q P1 <-> In q P2.
Proof.
  intros [_ H1] [_ H2] q.
  induction q as [q IH] using (well_founded_induction lt_wf).
  rewrite H1, H2. split; intros [Ho Hno]; (split; [exact Ho|]);
    intros p Hp Hlt; apply Hno; auto; now apply (IH p Hlt).
Qed.

Lemma leftmost_occurrences_unique (k T : string) (P1 P2 : list nat) :
  leftmost_occurrences k T P1 -> leftmost_occurrences k T P2 ->
  List.length P1 = List.length P2.
Proof.
  intros H1 H2. apply Permutation_length, NoDup_Permutation.
  - apply H1.
  - apply H2.
  - now apply leftmost_occurrences_same with k T.
Qed.

Lemma count_keywords_from (text : string) (keywords : dict Z) (acc : list CountRecord) :
  fold_left
    (fun results kv =>
       let '(keyword, value) := kv in
       let pattern := Regex.compile_escaped keyword in
       let count := Z.of_nat (List.length (Regex.findall pattern text)) in
       let subtotal := count * value in
       (results ++ [(keyword, count, value, subtotal)])%list)
    keywords acc
  = (acc ++ count_keywords text keywords)%list.
Proof.
  unfold count_keywords. revert acc.
  induction keywords as [|[k v] K IH]; intros acc; simpl.
  - now rewrite app_nil_r.
  - rewrite IH. rewrite (IH [_]). now rewrite <- app_assoc.
Qed.

Lemma count_keywords_cons (text : string) (k : string) (v : Z) (K : dict Z) :
  count_keywords text ((k, v) :: K)
  = (k, Z.of_nat (List.length (Regex.findall (Regex.compile_escaped k) text)), v,
     Z.of_nat (List.length (Regex.findall (Regex.compile_escaped k) text)) * v)
    :: count_keywords text K.
Proof.
  unfold count_keywords at 1. simpl. now rewrite count_keywords_from.
Qed.

(** C1: [count_keywords] yields one record per keyword of the dictionary,
    in its order; the record of keyword [k] with value [v] is
    [(k, c, v, c * v)] where [c] is the number of offsets picked by the
    left-to-right, non-overlapping reading of the case-insensitive
    occurrences of [k] as a literal substring of the text (that number is
    determined by [k] and the text).  An occurrence inside a longer word
    counts.  For apple/banana and "Apple pie, banana split, apple tart"
    the counts are 2 and 1 and the subtotals 20 and -5. *)
Theorem count_keywords_counts_occurrences (T : string) (K : dict Z) :
  Forall2
    (fun kv r =>
       exists P, leftmost_occurrences (fst kv) T P
                 /\ r = (fst kv, Z.of_nat (List.length P), snd kv,
                         Z.of_nat (List.length P) * snd kv))
    K (count_keywords T K)
  /\ (forall k P1 P2, leftmost_occurrences k T P1 -> leftmost_occurrences k T P2 ->
                      List.length P1 = List.length P2)
  /\ count_keywords "Apple pie, banana split, apple tart" [("apple", 10); ("banana", -5)]
     = [("apple", 2, 10, 20); ("banana", 1, -5, -5)]
  /\ count_keywords "pineapple" [("apple", 1)] = [("apple", 1, 1, 1)].
Proof.
  split.
  - induction K as [|[k v] K IH]; [constructor|].
    rewrite count_keywords_cons. constructor; [|exact IH].
    destruct (findall_leftmost k T) as (P & HP & ->). now exists P.
  - split; [intros k; apply leftmost_occurrences_unique|].
    split; vm_compute; reflexivity.
Qed.

End Counting.

(* ===================================================================== *)
(** * The empty keyword *)
(* ===================================================================== *)

Section EmptyKeyword.

Lemma findall_empty_pattern (T : string) :
  List.length (Regex.findall (Regex.compile_escaped "") T) = S (String.length T).
Proof.
  unfold Regex.findall. simpl.
  induction T as [|c r IH]; simpl; [reflexivity | now rewrite IH].
Qed.

Lemma table_keywords_nonempty (table : list TableRow) :
  ~ In "" (map fst (fst (get_keywords_from_table table))).
Proof.
  intros Hin. destruct (get_keywords_from_table_spec table) as (_ & _ & Hget).
  destruct (dict_get_in _ _ Hin) as [v Hv]. apply Hget in Hv.
  destruct Hv as (_ & row & _ & _ & (kt & vt & _ & _ & Hne & _) & _).
  now apply Hne.
Qed.

(** C8 (as the code has it): counting with the empty keyword does not
    fail; the empty pattern matches once at every offset of the text, the
    end included, so the count is the length of the text plus one and the
    subtotal is that count times the value.  The table reader never puts
    the empty keyword into the dictionary. *)
Theorem empty_keyword_matches_everywhere (T : string) (v : Z) :
  count_keywords T [("", v)]
  = [("", Z.of_nat (String.length T) + 1, v, (Z.of_nat (String.length T) + 1) * v)]
  /\ (forall table, ~ In "" (map fst (fst (get_keywords_from_table table)))).
Proof.
  split; [|apply table_keywords_nonempty].
  rewrite count_keywords_cons, findall_empty_pattern.
  replace (Z.of_nat (S (String.length T))) with (Z.of_nat (String.length T) + 1) by lia.
  reflexivity.
Qed.

(** C8, counterexample: on the text "abc" the empty keyword is counted
    four times, not zero times, and its subtotal is four times the value. *)
Lemma empty_keyword_count_not_zero :
  count_keywords "abc" [("", 7)] = [("", 4, 7, 28)]
  /\ count_keywords "" [("", 7)] = [("", 1, 7, 7)].
Proof. split; vm_compute; reflexivity. Qed.

End EmptyKeyword.

(* ===================================================================== *)
(** * The slot of [finished]: blank text *)
(* ===================================================================== *)

Section Finished.

(** C10: when the text handed over by [finished] is empty or white space
    only, [on_ocr_finished] shows the "No Text Found" warning and leaves
    the stored results, the results table, the state of the export button
    and the text preview as they were; otherwise it shows no box, stores
    the records that [count_keywords] yields for this text, fills the
    table from them and enables the export button.  So the results change
    hands only for a non-blank text. *)
Theorem blank_text_skips_counting (text : string) (keywords : dict Z) (st : State) :
  (strip text = "" ->
     boxes (on_ocr_finished text keywords st) = (boxes st ++ [no_text_box])%list
     /\ current_results (on_ocr_finished text keywords st) = current_results st
     /\ results_table (on_ocr_finished text keywords st) = results_table st
     /\ export_enabled (on_ocr_finished text keywords st) = export_enabled st
     /\ extracted_text (on_ocr_finished text keywords st) = extracted_text st)
  /\ (strip text <> "" ->
     boxes (on_ocr_finished text keywords st) = boxes st
     /\ current_results (on_ocr_finished text keywords st)
        = Some (count_keywords text keywords)
     /\ results_table (on_ocr_finished text keywords st)
        = results_table (display_results (count_keywords text keywords) st)
     /\ export_enabled (on_ocr_finished text keywords st) = true)
  /\ (current_results (on_ocr_finished text keywords st) <> current_results st ->
      strip text <> "").
Proof.
  unfold on_ocr_finished.
  destruct (strip text) eqn:E; simpl.
  - split; [intros _; repeat split|].
    split; [intros H; now elim H|].
    intros H _. now apply H.
  - split; [discriminate|].
    split; [intros _; repeat split | intros _; discriminate].
Qed.

Example blank_text_example :
  boxes (on_ocr_finished (String (chr 12) (String (chr 10) " ")) [("cost", 3)] idle)
  = [no_text_box]
  /\ current_results
       (on_ocr_finished (String (chr 12) (String (chr 10) " ")) [("cost", 3)] idle)
     = None
  /\ current_results (on_ocr_finished "Cost and cost" [("cost", 3)] idle)
     = Some [("cost", 2, 3, 6)]
  /\ export_enabled (on_ocr_finished "Cost and cost" [("cost", 3)] idle) = true.
Proof. repeat split; vm_compute; reflexivity. Qed.

End Finished.

(* ===================================================================== *)
(** * Digits of a mantissa *)
(* ===================================================================== *)

Lemma digits2_pos_size (p : positive) : digits2_pos p = Pos.size p.
Proof. induction p; simpl; congruence. Qed.

Lemma Zdigits2_bounds (m : Z) :
  0 < m -> 0 < Zdigits2 m /\ 2 ^ (Zdigits2 m - 1) <= m < 2 ^ Zdigits2 m.
Proof.
  destruct m as [|p|p]; try lia. intros _.
  change (Zdigits2 (Z.pos p)) with (Z.pos (digits2_pos p)). rewrite digits2_pos_size.
  split; [lia|].
  pose proof (Pos.size_gt p) as Hgt. pose proof (Pos.size_le p) as Hle.
  split.
  - assert (H : 2 ^ Z.pos (Pos.size p) <= 2 * Z.pos p).
    { change (2 * Z.pos p) with (Z.pos (p~0)).
      rewrite <- Pos2Z.inj_pow. apply Pos2Z.pos_le_pos. exact Hle. }
    replace (Z.pos (Pos.size p)) with (Z.succ (Z.pos (Pos.size p) - 1)) in H by lia.
    rewrite Z.pow_succ_r in H by lia. lia.
  - rewrite <- Pos2Z.inj_pow. apply Pos2Z.pos_lt_pos. exact Hgt.
Qed.

Lemma Zdigits2_nonneg (m : Z) : 0 <= Zdigits2 m.
Proof. destruct m; simpl; lia. Qed.

Lemma Zdigits2_unique (m d : Z) :
  0 < m -> 2 ^ (d - 1) <= m < 2 ^ d -> Zdigits2 m = d.
Proof.
  intros Hm [Hlo Hhi]. destruct (Zdigits2_bounds m Hm) as (Hp & Hlo' & Hhi').
  assert (0 <= d).
  { destruct (Z.le_gt_cases 0 d); [assumption|]. rewrite Z.pow_neg_r in Hhi; lia. }
  destruct (Z.lt_trichotomy (Zdigits2 m) d) as [Hlt|[Heq|Hgt]]; [|assumption|].
  - assert (2 ^ Zdigits2 m <= 2 ^ (d - 1)) by (apply Z.pow_le_mono_r; lia). lia.
  - assert (2 ^ d <= 2 ^ (Zdigits2 m - 1)) by (apply Z.pow_le_mono_r; lia). lia.
Qed.

Lemma Zdigits2_le (m n : Z) : 0 <= m <= n -> Zdigits2 m <= Zdigits2 n.
Proof.
  intros [Hm Hmn]. destruct (Z.eq_dec m 0) as [->|Hne]; [apply Zdigits2_nonneg|].
  destruct (Zdigits2_bounds m ltac:(lia)) as (_ & Hlo & _).
  destruct (Zdigits2_bounds n ltac:(lia)) as (_ & _ & Hhi).
  destruct (Z.le_gt_cases (Zdigits2 m) (Zdigits2 n)); [assumption|].
  assert (2 ^ Zdigits2 n <= 2 ^ (Zdigits2 m - 1)) by (apply Z.pow_le_mono_r; lia). lia.
Qed.

Lemma Zdigits2_lt_pow (m d : Z) : 0 <= d -> 0 <= m < 2 ^ d -> Zdigits2 m <= d.
Proof.
  intros Hd [Hm Hlt]. destruct (Z.eq_dec m 0) as [->|Hne]; [simpl; lia|].
  destruct (Zdigits2_bounds m ltac:(lia)) as (_ & Hlo & _).
  destruct (Z.le_gt_cases (Zdigits2 m) d); [assumption|].
  assert (2 ^ d <= 2 ^ (Zdigits2 m - 1)) by (apply Z.pow_le_mono_r; lia). lia.
Qed.

Lemma Zdigits2_ge_pow (m d : Z) : 0 <= d -> 2 ^ d <= m -> d + 1 <= Zdigits2 m.
Proof.
  intros Hd Hle. assert (0 < m) by (pose proof (Z.pow_pos_nonneg 2 d); lia).
  destruct (Zdigits2_bounds m ltac:(lia)) as (_ & _ & Hhi).
  destruct (Z.le_gt_cases (d + 1) (Zdigits2 m)); [assumption|].
  assert (2 ^ Zdigits2 m <= 2 ^ d) by (apply Z.pow_le_mono_r; lia). lia.
Qed.

(** shifting right by n *)
Lemma Zdigits2_div_pow (m n : Z) :
  0 <= n -> 2 ^ n <= m -> Zdigits2 (m / 2 ^ n) = Zdigits2 m - n.
Proof.
  intros Hn Hle.
  assert (Hp : 0 < 2 ^ n) by (apply Z.pow_pos_nonneg; lia).
  assert (0 < m) by lia.
  destruct (Zdigits2_bounds m ltac:(lia)) as (Hd & Hlo & Hhi).
  assert (Hdn : n + 1 <= Zdigits2 m) by (apply Zdigits2_ge_pow; lia).
  apply Zdigits2_unique.
  - apply Z.div_str_pos. lia.
  - split.
    + apply Z.div_le_lower_bound; [lia|].
      rewrite <- Z.pow_add_r by lia. replace (n + (Zdigits2 m - n - 1)) with (Zdigits2 m - 1) by lia. lia.
    + apply Z.div_lt_upper_bound; [lia|].
      rewrite <- Z.pow_add_r by lia. replace (n + (Zdigits2 m - n)) with (Zdigits2 m) by lia. lia.
Qed.

(* ===================================================================== *)
(** * Shifting a mantissa to the right *)
(* ===================================================================== *)

Lemma iter_pos_nat {A} (f : A -> A) (p : positive) :
  forall x, iter_pos f p x = Nat.iter (Pos.to_nat p) f x.
Proof.
  induction p as [p IH|p IH|]; intros x; cbn [iter_pos].
  - rewrite !IH, Pos2Nat.inj_xI, Nat.iter_succ_r.
    replace (2 * Pos.to_nat p)%nat with (Pos.to_nat p + Pos.to_nat p)%nat by lia.
    now rewrite Nat.iter_add.
  - rewrite !IH, Pos2Nat.inj_xO.
    replace (2 * Pos.to_nat p)%nat with (Pos.to_nat p + Pos.to_nat p)%nat by lia.
    now rewrite Nat.iter_add.
  - reflexivity.
Qed.

Lemma represents_of_loc (m rho d : Z) (l : location) :
  0 <= m -> 0 <= rho < d -> locates l rho d ->
  represents (shr_record_of_loc m l) m rho d.
Proof.
  intros Hm Hr Hl. unfold represents.
  destruct l as [|[| |]]; simpl; auto.
Qed.

Lemma shr_1_represents (mrs : shr_record) (M rho d : Z) :
  represents mrs M rho d ->
  represents (shr_1 mrs) (M / 2) ((M mod 2) * d + rho) (2 * d).
Proof.
  destruct mrs as [m r s]. intros (Hm & HM & Hr & Hl).
  cbn [shr_m] in Hm. subst m.
  assert (Hb : shr_1 {| shr_m := M; shr_r := r; shr_s := s |}
               = {| shr_m := M / 2; shr_r := Z.odd M; shr_s := r || s |}).
  { rewrite <- Z.div2_div. destruct M as [|[p|p|]|p]; try lia; reflexivity. }
  unfold represents. rewrite Hb. cbn [shr_m].
  assert (Hodd : M mod 2 = if Z.odd M then 1 else 0) by apply Zmod_odd.
  assert (0 <= M / 2) by (apply Z.div_pos; lia).
  rewrite Hodd. repeat split; try lia.
  - destruct (Z.odd M); lia.
  - destruct (Z.odd M); lia.
  - destruct r, s; cbn [locates loc_of_shr_record orb] in Hl |- *;
      destruct (Z.odd M); cbn [locates loc_of_shr_record]; lia.
Qed.

Lemma iter_shr_1_represents (n : nat) (mrs : shr_record) (M rho d : Z) :
  represents mrs M rho d ->
  represents (Nat.iter n shr_1 mrs)
    (M / 2 ^ Z.of_nat n) ((M mod 2 ^ Z.of_nat n) * d + rho) (d * 2 ^ Z.of_nat n).
Proof.
  intros H. induction n as [|n IH].
  - simpl. rewrite Z.div_1_r, Z.mod_1_r. 
    replace (0 * d + rho) with rho by lia. replace (d * 1) with d by lia. exact H.
  - rewrite Nat.iter_succ. apply shr_1_represents in IH.
    assert (Hp : 0 < 2 ^ Z.of_nat n) by (apply Z.pow_pos_nonneg; lia).
    rewrite Nat2Z.inj_succ, Z.pow_succ_r by lia.
    replace (2 * 2 ^ Z.of_nat n) with (2 ^ Z.of_nat n * 2) by lia.
    rewrite <- Z.div_div by lia.
    rewrite Z.rem_mul_r by lia.
    replace (d * (2 ^ Z.of_nat n * 2)) with (2 * (d * 2 ^ Z.of_nat n)) by lia.
    replace ((M mod 2 ^ Z.of_nat n + 2 ^ Z.of_nat n * ((M / 2 ^ Z.of_nat n) mod 2)) * d + rho)
      with ((M / 2 ^ Z.of_nat n) mod 2 * (d * 2 ^ Z.of_nat n) + (M mod 2 ^ Z.of_nat n * d + rho)) by lia.
    exact IH.
Qed.

Lemma shr_represents (mrs : shr_record) (e n M rho d : Z) :
  0 <= n -> represents mrs M rho d ->
  snd (shr mrs e n) = e + n
  /\ represents (fst (shr mrs e n)) (M / 2 ^ n) ((M mod 2 ^ n) * d + rho) (d * 2 ^ n).
Proof.
  intros Hn H. destruct n as [|p|p]; try lia; simpl shr.
  - simpl. split; [lia|]. rewrite Z.div_1_r, Z.mod_1_r.
    replace (0 * d + rho) with rho by lia. replace (d * 1) with d by lia. exact H.
  - cbn [fst snd]. split; [reflexivity|]. rewrite iter_pos_nat.
    rewrite <- (positive_nat_Z p). now apply iter_shr_1_represents.
Qed.

Lemma new_location_locates (d r : Z) :
  0 <= r < d -> locates (new_location d r) r d.
Proof.
  intros Hr. unfold new_location.
  destruct (Z.even d) eqn:He.
  - unfold new_location_even. destruct (Z.eqb_spec r 0) as [->|Hne]; cbn [locates]; [reflexivity|].
    destruct (Z.compare_spec (2 * r) d); cbn [locates]; lia.
  - unfold new_location_odd. destruct (Z.eqb_spec r 0) as [->|Hne]; cbn [locates]; [reflexivity|].
    assert (Hodd : Z.odd d = true) by (rewrite <- Z.negb_even, He; reflexivity).
    apply Z.odd_spec in Hodd. destruct Hodd as [k Hk].
    destruct (Z.compare_spec (2 * r + 1) d); cbn [locates]; lia.
Qed.

(* ===================================================================== *)
(** * Rounding to nearest in a binary format *)
(* ===================================================================== *)

Section Rounding.

Variables prec emax : Z.
Hypothesis Hprec : 0 < prec.
Hypothesis Hemax : 2 <= emax.

Local Abbreviation emin := (SpecFloat.emin prec emax).
Local Abbreviation fexp := (SpecFloat.fexp prec emax).
Local Abbreviation Vf := (float_value prec emax).
Local Abbreviation good := (representable prec emax).
Local Abbreviation nearest := (nearest_float prec emax).

Lemma fexp_mono (x y : Z) : x <= y -> fexp x <= fexp y.
Proof using Hprec Hemax. unfold SpecFloat.fexp. lia. Qed.

Lemma fexp_succ (x : Z) : fexp (x + 1) <= fexp x + 1.
Proof using Hprec Hemax. unfold SpecFloat.fexp. lia. Qed.

Lemma fexp_ge_emin (x : Z) : emin <= fexp x.
Proof using Hprec Hemax. unfold SpecFloat.fexp. lia. Qed.

Lemma bounded_spec (m : positive) (e : Z) :
  bounded prec emax m e = true <->
  fexp (Zdigits2 (Z.pos m) + e) = e /\ e <= emax - prec.
Proof using Hprec Hemax.
  unfold bounded, canonical_mantissa. rewrite andb_true_iff, Z.eqb_eq, Z.leb_le.
  reflexivity.
Qed.

(** after the first shift *)
Lemma stage1 (m e : Z) :
  0 <= m -> e <= fexp (Zdigits2 m + e) ->
  let n1 := fexp (Zdigits2 m + e) - e in
  let m1 := m / 2 ^ n1 in
  let e1 := e + n1 in
  Zdigits2 m1 <= prec /\ fexp (Zdigits2 m1 + e1) = e1 /\ emin <= e1
  /\ (emin < e1 -> 2 ^ (prec - 1) <= m1).
Proof using Hprec Hemax.
  intros Hm Hc n1 m1 e1.
  assert (Hn1 : 0 <= n1) by (unfold n1; lia).
  assert (Hp : 0 < 2 ^ n1) by (apply Z.pow_pos_nonneg; lia).
  assert (He1 : e1 = fexp (Zdigits2 m + e)) by (unfold e1, n1; lia).
  assert (Hm1 : 0 <= m1) by (apply Z.div_pos; lia).
  destruct (Z.eq_dec m1 0) as [H0|H0].
  - assert (m < 2 ^ n1).
    { destruct (Z.lt_ge_cases m (2 ^ n1)); [assumption|].
      assert (1 <= m1) by (apply Z.div_le_lower_bound; lia). lia. }
    assert (Zdigits2 m <= n1) by (apply Zdigits2_lt_pow; lia).
    assert (e1 = emin) by (unfold SpecFloat.fexp in *; lia).
    rewrite H0. simpl Zdigits2. 
    repeat split; try lia. unfold SpecFloat.fexp in *; lia.
  - assert (2 ^ n1 <= m).
    { destruct (Z.lt_ge_cases m (2 ^ n1)); [|assumption].
      unfold m1 in H0. rewrite Z.div_small in H0; lia. }
    assert (Hd : Zdigits2 m1 = Zdigits2 m - n1) by (apply Zdigits2_div_pow; lia).
    assert (Hg : Zdigits2 m1 + e1 = Zdigits2 m + e) by (unfold e1; lia).
    rewrite Hg. repeat split; try lia.
    + unfold SpecFloat.fexp in *; lia.
    + rewrite He1. apply fexp_ge_emin.
    + intros Hlt. assert (Zdigits2 m1 = prec) by (unfold SpecFloat.fexp in *; lia).
      destruct (Zdigits2_bounds m1 ltac:(lia)) as (_ & Hlo & _).
      now rewrite H1 in Hlo.
Qed.

(** no representable number lies strictly between two neighbours of the grid *)
Lemma grid (m1 e1 : Z) (g : spec_float) :
  0 <= m1 -> emin <= e1 -> (emin < e1 -> 2 ^ (prec - 1) <= m1) ->
  good g ->
  Vf g <= m1 * 2 ^ (e1 - emin) \/ (m1 + 1) * 2 ^ (e1 - emin) <= Vf g.
Proof using Hprec Hemax.
  intros Hm1 He1 Hn Hg.
  assert (Hs : 0 < 2 ^ (e1 - emin)) by (apply Z.pow_pos_nonneg; lia).
  destruct g as [[|]|[|]| |[|] mg eg]; simpl in Hg; try contradiction.
  - left. simpl. nia.
  - apply bounded_spec in Hg. destruct Hg as [Hcan _].
    assert (Hge : emin <= eg) by (rewrite <- Hcan; apply fexp_ge_emin).
    assert (Hdg : Zdigits2 (Z.pos mg) <= prec) by (unfold SpecFloat.fexp in Hcan; lia).
    unfold float_value.
    destruct (Z.le_gt_cases e1 eg) as [Hle|Hgt].
    + replace (eg - emin) with ((eg - e1) + (e1 - emin)) by lia.
      rewrite Z.pow_add_r by lia.
      assert (0 < 2 ^ (eg - e1)) by (apply Z.pow_pos_nonneg; lia).
      destruct (Z.le_gt_cases (Z.pos mg * 2 ^ (eg - e1)) m1); [left|right]; nia.
    + left. specialize (Hn ltac:(lia)).
      destruct (Zdigits2_bounds (Z.pos mg) ltac:(lia)) as (_ & _ & Hhi).
      assert (2 ^ Zdigits2 (Z.pos mg) <= 2 ^ prec) by (apply Z.pow_le_mono_r; lia).
      assert (H2 : 2 ^ (eg - emin) * 2 <= 2 ^ (e1 - emin)).
      { replace (2 ^ (eg - emin) * 2) with (2 ^ (eg - emin + 1))
          by (rewrite Z.pow_add_r by lia; reflexivity).
        apply Z.pow_le_mono_r; lia. }
      assert (H3 : 2 ^ prec = 2 ^ (prec - 1) * 2).
      { replace prec with ((prec - 1) + 1) at 1 by lia.
        rewrite Z.pow_add_r by lia. reflexivity. }
      assert (0 < 2 ^ (eg - emin)) by (apply Z.pow_pos_nonneg; lia).
      assert (0 < 2 ^ (prec - 1)) by (apply Z.pow_pos_nonneg; lia).
      nia.
Qed.

Lemma round_nearest_even_cases (m1 rho1 d1 : Z) (l1 : location) :
  locates l1 rho1 d1 -> 0 <= rho1 < d1 ->
  (round_nearest_even m1 l1 = m1 /\ 2 * rho1 <= d1)
  \/ (round_nearest_even m1 l1 = m1 + 1 /\ d1 <= 2 * rho1).
Proof using Hprec Hemax.
  intros Hl Hr. destruct l1 as [|[| |]]; cbn [locates round_nearest_even] in *.
  - left. lia.
  - destruct (Z.even m1); [left|right]; lia.
  - left. lia.
  - right. lia.
Qed.

(** the second shift: at most one position, and then of a power of two *)
Lemma stage2 (m1 m2 e1 : Z) :
  0 <= m1 -> Zdigits2 m1 <= prec -> fexp (Zdigits2 m1 + e1) = e1 ->
  m2 = m1 \/ m2 = m1 + 1 ->
  let n2 := fexp (Zdigits2 m2 + e1) - e1 in
  let m3 := m2 / 2 ^ n2 in
  (n2 = 0 \/ n2 = 1) /\ m3 * 2 ^ n2 = m2 /\ m2 mod 2 ^ n2 = 0
  /\ (0 < m3 -> fexp (Zdigits2 m3 + (e1 + n2)) = e1 + n2).
Proof using Hprec Hemax.
  intros Hm1 Hd1 Hcan Hm2 n2 m3.
  assert (Hm2le : m1 <= m2 <= m1 + 1) by lia.
  assert (Hdlo : Zdigits2 m1 <= Zdigits2 m2) by (apply Zdigits2_le; lia).
  assert (Hlt1 : m1 < 2 ^ Zdigits2 m1).
  { destruct (Z.eq_dec m1 0) as [->|]; [simpl; lia|].
    apply Zdigits2_bounds. lia. }
  assert (Hdhi : Zdigits2 m2 <= Zdigits2 m1 + 1).
  { destruct (Z.eq_dec m2 (2 ^ Zdigits2 m1)) as [->|Hne].
    - pose proof (Zdigits2_nonneg m1) as Hnn.
      assert (Hu : Zdigits2 (2 ^ Zdigits2 m1) = Zdigits2 m1 + 1).
      { apply Zdigits2_unique.
        - apply Z.pow_pos_nonneg; lia.
        - replace (Zdigits2 m1 + 1 - 1) with (Zdigits2 m1) by lia.
          split; [lia|]. apply Z.pow_lt_mono_r; lia. }
      lia.
    - pose proof (Zdigits2_nonneg m1).
      assert (Zdigits2 m2 <= Zdigits2 m1) by (apply Zdigits2_lt_pow; lia). lia. }
  assert (Hn2 : n2 = 0 \/ n2 = 1).
  { unfold n2. pose proof (fexp_mono (Zdigits2 m1 + e1) (Zdigits2 m2 + e1) ltac:(lia)).
    pose proof (fexp_mono (Zdigits2 m2 + e1) (Zdigits2 m1 + e1 + 1) ltac:(lia)).
    pose proof (fexp_succ (Zdigits2 m1 + e1)). lia. }
  split; [exact Hn2|].
  destruct Hn2 as [H0|H1].
  - unfold m3. rewrite H0. change (2 ^ 0) with 1. rewrite Z.div_1_r, Z.mod_1_r.
    rewrite !Z.add_0_r. unfold n2 in H0. repeat split; lia.
  - assert (Hd2 : Zdigits2 m2 = prec + 1).
    { unfold n2, SpecFloat.fexp in H1. unfold SpecFloat.fexp in Hcan. lia. }
    assert (Hm2pos : 0 < m2).
    { destruct (Z.eq_dec m2 0) as [E|]; [rewrite E in Hd2; simpl in Hd2; lia | lia]. }
    destruct (Zdigits2_bounds m2 Hm2pos) as (_ & Hlo & _).
    rewrite Hd2 in Hlo. replace (prec + 1 - 1) with prec in Hlo by lia.
    assert (2 ^ Zdigits2 m1 <= 2 ^ prec) by (apply Z.pow_le_mono_r; lia).
    assert (Hm2eq : m2 = 2 ^ prec) by lia.
    assert (Hpp : 2 ^ prec = 2 ^ (prec - 1) * 2).
    { replace prec with ((prec - 1) + 1) at 1 by lia.
      rewrite Z.pow_add_r by lia. reflexivity. }
    assert (H3 : m3 = 2 ^ (prec - 1)).
    { unfold m3. rewrite H1, Hm2eq, Hpp. change (2 ^ 1) with 2.
      apply Z.div_mul. lia. }
    rewrite H1. change (2 ^ 1) with 2.
    split; [lia|]. split.
    { rewrite Hm2eq, Hpp. apply Z.mod_mul. lia. }
    intros _. assert (Hd3 : Zdigits2 m3 = prec).
    { rewrite H3. apply Zdigits2_unique.
      - apply Z.pow_pos_nonneg; lia.
      - split; [lia|]. apply Z.pow_lt_mono_r; lia. }
    rewrite Hd3. unfold n2 in H1. rewrite Hd2 in H1.
    replace (prec + (e1 + 1)) with (prec + 1 + e1) by lia. lia.
Qed.

Lemma round_aux_nearest (m e rho d : Z) (l : location) :
  0 <= m -> 0 <= rho < d -> locates l rho d ->
  e <= fexp (Zdigits2 m + e) -> Zdigits2 m + e <= emax - 1 ->
  nearest ((m * d + rho) * 2 ^ (fexp (Zdigits2 m + e) - emin))
          (d * 2 ^ (fexp (Zdigits2 m + e) - e))
          (binary_round_aux prec emax false m e l).
Proof using Hprec Hemax.
  intros Hm Hr Hl Hc Hb.
  unfold binary_round_aux, shr_fexp.
  set (n1 := fexp (Zdigits2 m + e) - e).
  assert (Hn1 : 0 <= n1) by (unfold n1; lia).
  destruct (shr_represents (shr_record_of_loc m l) e n1 m rho d Hn1
              (represents_of_loc m rho d l Hm Hr Hl)) as [Hs1 Hr1].
  destruct (shr (shr_record_of_loc m l) e n1) as [mrs1 e1] eqn:E1.
  cbn [fst snd] in Hs1, Hr1.
  destruct Hr1 as (Hm1eq & Hm1 & Hrho1 & Hl1).
  rewrite Hm1eq.
  destruct (stage1 m e Hm Hc) as (Hd1 & Hcan1 & Hemin1 & Hnorm1).
  fold n1 in Hd1, Hcan1, Hemin1, Hnorm1. rewrite <- Hs1 in Hcan1, Hemin1, Hnorm1.
  assert (He1 : fexp (Zdigits2 m + e) = e1) by (unfold n1 in Hs1; lia).
  rewrite He1.
  assert (Hmd : m * d + rho = m / 2 ^ n1 * (d * 2 ^ n1) + (m mod 2 ^ n1 * d + rho)).
  { assert (0 < 2 ^ n1) by (apply Z.pow_pos_nonneg; lia).
    pose proof (Z.div_mod m (2 ^ n1) ltac:(lia)). nia. }
  rewrite Hmd.
  set (m1 := m / 2 ^ n1) in *.
  set (rho1 := m mod 2 ^ n1 * d + rho) in *.
  set (d1 := d * 2 ^ n1) in *.
  assert (Hs : 0 < 2 ^ (e1 - emin)) by (apply Z.pow_pos_nonneg; lia).
  set (s := 2 ^ (e1 - emin)) in *.
  (* the value returned is [m2 * s] for the rounded mantissa [m2] *)
  assert (Hres : forall m2, m2 = m1 \/ m2 = m1 + 1 ->
            good (let '(mrs'', e'') := shr (shr_record_of_loc m2 loc_Exact) e1
                                          (fexp (Zdigits2 m2 + e1) - e1) in
                  match shr_m mrs'' with
                  | 0 => S754_zero false
                  | Z.pos m0 => if e'' <=? emax - prec then S754_finite false m0 e''
                                else S754_infinity false
                  | Z.neg _ => S754_nan
                  end)
            /\ Vf (let '(mrs'', e'') := shr (shr_record_of_loc m2 loc_Exact) e1
                                          (fexp (Zdigits2 m2 + e1) - e1) in
                  match shr_m mrs'' with
                  | 0 => S754_zero false
                  | Z.pos m0 => if e'' <=? emax - prec then S754_finite false m0 e''
                                else S754_infinity false
                  | Z.neg _ => S754_nan
                  end) = m2 * s).
  { intros m2 Hm2.
    destruct (stage2 m1 m2 e1 Hm1 Hd1 Hcan1 Hm2) as (Hn2 & Hm3 & Hmod & Hcan3).
    set (n2 := fexp (Zdigits2 m2 + e1) - e1) in *.
    assert (Hn2' : 0 <= n2) by lia.
    destruct (shr_represents (shr_record_of_loc m2 loc_Exact) e1 n2 m2 0 1 Hn2'
                (represents_of_loc m2 0 1 loc_Exact ltac:(lia) ltac:(lia) eq_refl))
      as [Hs2 Hr2].
    destruct (shr (shr_record_of_loc m2 loc_Exact) e1 n2) as [mrs2 e3] eqn:E2.
    cbn [fst snd] in Hs2, Hr2. destruct Hr2 as (Hm3eq & Hm3pos & _).
    rewrite Hm3eq. set (m3 := m2 / 2 ^ n2) in *.
    assert (He3 : e3 <= emax - prec).
    { unfold SpecFloat.fexp, SpecFloat.emin in He1. lia. }
    destruct m3 as [|p|p] eqn:Em3; [| |lia].
    - split; [exact I|]. simpl. lia.
    - assert (Hle : (e3 <=? emax - prec) = true) by (apply Z.leb_le; lia).
      rewrite Hle. split.
      + apply bounded_spec. split; [|exact He3].
        rewrite Hs2. apply Hcan3. lia.
      + cbn [float_value]. rewrite Hs2. unfold s.
        replace (e1 + n2 - emin) with (n2 + (e1 - emin)) by lia.
        rewrite Z.pow_add_r by lia. rewrite <- Hm3. lia. }
  destruct (round_nearest_even_cases m1 rho1 d1 _ Hl1 Hrho1) as [[Hm2 Hhalf]|[Hm2 Hhalf]];
    rewrite Hm2.
  - destruct (Hres m1 (or_introl eq_refl)) as [Hgood HV].
    split; [lia|]. split; [exact Hgood|].
    intros g Hg. rewrite HV.
    destruct (grid m1 e1 g Hm1 Hemin1 Hnorm1 Hg) as [Hlo|Hhi]; fold s in Hlo, Hhi || idtac.
    + assert (Vf g * d1 <= m1 * s * d1) by (apply Z.mul_le_mono_nonneg_r; lia).
      assert (0 <= rho1 * s) by nia.
      replace ((m1 * d1 + rho1) * s) with (m1 * s * d1 + rho1 * s) by ring. lia.
    + assert ((m1 + 1) * s * d1 <= Vf g * d1) by (apply Z.mul_le_mono_nonneg_r; lia).
      assert (0 <= rho1 * s) by nia.
      assert (2 * (rho1 * s) <= d1 * s) by nia.
      replace ((m1 * d1 + rho1) * s) with (m1 * s * d1 + rho1 * s) by ring.
      replace ((m1 + 1) * s * d1) with (m1 * s * d1 + d1 * s) in H by ring. lia.
  - destruct (Hres (m1 + 1) (or_intror eq_refl)) as [Hgood HV].
    split; [lia|]. split; [exact Hgood|].
    intros g Hg. rewrite HV.
    destruct (grid m1 e1 g Hm1 Hemin1 Hnorm1 Hg) as [Hlo|Hhi]; fold s in Hlo, Hhi || idtac.
    + assert (Vf g * d1 <= m1 * s * d1) by (apply Z.mul_le_mono_nonneg_r; lia).
      assert (rho1 * s <= d1 * s) by nia.
      assert (d1 * s <= 2 * (rho1 * s)) by nia.
      replace ((m1 * d1 + rho1) * s) with (m1 * s * d1 + rho1 * s) by ring.
      replace ((m1 + 1) * s * d1) with (m1 * s * d1 + d1 * s) by ring. lia.
    + assert ((m1 + 1) * s * d1 <= Vf g * d1) by (apply Z.mul_le_mono_nonneg_r; lia).
      assert (rho1 * s <= d1 * s) by nia.
      replace ((m1 * d1 + rho1) * s) with (m1 * s * d1 + rho1 * s) by ring.
      replace ((m1 + 1) * s * d1) with (m1 * s * d1 + d1 * s) in * by ring. lia.
Qed.

Lemma Vf_nonneg (f : spec_float) : 0 <= Vf f.
Proof using Hprec Hemax.
  destruct f as [?|?| |? m e]; cbn [float_value]; try lia.
Qed.

Lemma nearest_scale (N D N' D' : Z) (f : spec_float) :
  nearest N D f -> 0 < D' -> N * D' = N' * D -> nearest N' D' f.
Proof using Hprec Hemax.
  intros (HD & Hg & Hn) HD' Heq. split; [exact HD'|]. split; [exact Hg|].
  intros g Hgg. specialize (Hn g Hgg).
  assert (Hk : forall v, Z.abs (v * D' - N') * D = Z.abs (v * D - N) * D').
  { intros v. rewrite <- (Z.abs_eq D) at 1 by lia.
    rewrite <- (Z.abs_eq D') at 2 by lia. rewrite <- !Z.abs_mul. f_equal. nia. }
  pose proof (Hk (Vf f)). pose proof (Hk (Vf g)).
  pose proof (Z.abs_nonneg (Vf f * D' - N')). pose proof (Z.abs_nonneg (Vf g * D' - N')).
  nia.
Qed.

(** a representable number on one side of the exact value bounds the
    rounded value from the same side *)
Lemma nearest_le_good (N D : Z) (f g : spec_float) :
  nearest N D f -> good g -> N <= Vf g * D -> Vf f <= Vf g.
Proof using Hprec Hemax.
  intros (HD & _ & Hn) Hg Hle. specialize (Hn g Hg).
  destruct (Z.le_gt_cases (Vf f) (Vf g)); [assumption|].
  assert (Vf g * D < Vf f * D) by nia. lia.
Qed.

(** rounding to nearest is monotone *)
Lemma nearest_mono (N1 D1 N2 D2 : Z) (f1 f2 : spec_float) :
  nearest N1 D1 f1 -> nearest N2 D2 f2 -> N1 * D2 < N2 * D1 -> Vf f1 <= Vf f2.
Proof using Hprec Hemax.
  intros (HD1 & Hg1 & Hn1) (HD2 & Hg2 & Hn2) Hlt.
  specialize (Hn1 f2 Hg2). specialize (Hn2 f1 Hg1).
  destruct (Z.le_gt_cases (Vf f1) (Vf f2)); [assumption|]. exfalso.
  assert (Vf f2 * D1 < Vf f1 * D1) by nia.
  assert (Vf f2 * D2 < Vf f1 * D2) by nia.
  assert (A1 : (Vf f1 + Vf f2) * D1 <= 2 * N1) by lia.
  assert (A2 : 2 * N2 <= (Vf f1 + Vf f2) * D2) by lia.
  assert (B1 : (Vf f1 + Vf f2) * D1 * D2 <= 2 * N1 * D2) by nia.
  assert (B2 : 2 * N2 * D1 <= (Vf f1 + Vf f2) * D2 * D1) by nia.
  nia.
Qed.

(** a representable number has one representation *)
Lemma good_unique (f g : spec_float) : good f -> good g -> Vf f = Vf g -> f = g.
Proof using Hprec Hemax.
  intros Hf Hg HV.
  assert (Hpos : forall m e, 0 < Z.pos m * 2 ^ (e - emin) \/ e < emin).
  { intros m e. destruct (Z.le_gt_cases emin e); [left|right; lia].
    pose proof (Z.pow_pos_nonneg 2 (e - emin) ltac:(lia) ltac:(lia)). nia. }
  destruct f as [[|]|[|]| |[|] mf ef]; simpl in Hf; try contradiction;
    destruct g as [[|]|[|]| |[|] mg eg]; simpl in Hg; try contradiction.
  - reflexivity.
  - apply bounded_spec in Hg. destruct Hg as [Hc _].
    pose proof (fexp_ge_emin (Zdigits2 (Z.pos mg) + eg)).
    cbn [float_value] in HV. destruct (Hpos mg eg); lia.
  - apply bounded_spec in Hf. destruct Hf as [Hc _].
    pose proof (fexp_ge_emin (Zdigits2 (Z.pos mf) + ef)).
    cbn [float_value] in HV. destruct (Hpos mf ef); lia.
  - apply bounded_spec in Hf, Hg. destruct Hf as [Hcf _], Hg as [Hcg _].
    pose proof (fexp_ge_emin (Zdigits2 (Z.pos mf) + ef)).
    pose proof (fexp_ge_emin (Zdigits2 (Z.pos mg) + eg)).
    cbn [float_value] in HV.
    assert (Hdig : forall m e, emin <= e ->
              Zdigits2 (Z.pos m * 2 ^ (e - emin)) = Zdigits2 (Z.pos m) + (e - emin)).
    { intros m e He.
      destruct (Zdigits2_bounds (Z.pos m) ltac:(lia)) as (Hd & Hlo & Hhi).
      assert (0 < 2 ^ (e - emin)) by (apply Z.pow_pos_nonneg; lia).
      apply Zdigits2_unique; [nia|].
      replace (Zdigits2 (Z.pos m) + (e - emin) - 1)
        with ((Zdigits2 (Z.pos m) - 1) + (e - emin)) by lia.
      rewrite !Z.pow_add_r by lia. split; nia. }
    pose proof (Hdig mf ef ltac:(lia)) as H1. pose proof (Hdig mg eg ltac:(lia)) as H2.
    rewrite HV in H1.
    assert (He : ef = eg).
    { rewrite <- Hcf, <- Hcg. f_equal. lia. }
    subst eg.
    assert (0 < 2 ^ (ef - emin)) by (apply Z.pow_pos_nonneg; lia).
    assert (Z.pos mf = Z.pos mg) by nia. congruence.
Qed.

Lemma nearest_exact (N D : Z) (f g : spec_float) :
  nearest N D f -> good g -> Vf g * D = N -> f = g.
Proof using Hprec Hemax.
  intros Hn Hg Heq. apply good_unique; [apply Hn | exact Hg |].
  destruct Hn as (HD & _ & Hn). specialize (Hn g Hg).
  rewrite Heq, Z.sub_diag in Hn. change (Z.abs 0) with 0 in Hn.
  pose proof (Z.abs_nonneg (Vf f * D - N)). nia.
Qed.

Lemma emin_nonpos : emin <= 0.
Proof using Hprec Hemax. unfold SpecFloat.emin. lia. Qed.

(** the quotient of two positive integers, as [truediv] rounds it *)
Lemma div_core_nearest (a b : Z) :
  0 < a <= b ->
  nearest (a * 2 ^ (- emin)) b
    (let '(q, e, l) := SFdiv_core_binary prec emax a 0 b 0 in
     binary_round_aux prec emax false q e l).
Proof using Hprec Hemax.
  intros Hab. pose proof emin_nonpos as Hemin.
  unfold SFdiv_core_binary.
  rewrite !Z.add_0_r, Z.sub_diag.
  set (d1 := Zdigits2 a). set (d2 := Zdigits2 b).
  set (e' := Z.min (fexp (d1 - d2)) 0).
  assert (He' : e' <= 0) by (unfold e'; lia).
  assert (He'min : emin <= e').
  { unfold e'. pose proof (fexp_ge_emin (d1 - d2)). lia. }
  set (s := 0 - e').
  assert (Hm' : match s with
                | 0 => a
                | Z.pos _ => Z.shiftl a s
                | Z.neg _ => 0
                end = a * 2 ^ s).
  { destruct s as [|p|p] eqn:Es; [change (2 ^ 0) with 1; lia | | lia].
    rewrite Z.shiftl_mul_pow2; lia. }
  rewrite Hm'.
  assert (Hs : 0 <= s) by (unfold s; lia).
  assert (Hps : 0 < 2 ^ s) by (apply Z.pow_pos_nonneg; lia).
  pose proof (Z.div_eucl_eq (a * 2 ^ s) b ltac:(lia)) as Hdm.
  pose proof (Z.mod_pos_bound (a * 2 ^ s) b ltac:(lia)) as Hrb.
  unfold Z.modulo in Hrb.
  destruct (Z.div_eucl (a * 2 ^ s) b) as [q r] eqn:Edm.
  assert (Hq : q = a * 2 ^ s / b) by (unfold Z.div; now rewrite Edm).
  assert (Hq0 : 0 <= q) by (rewrite Hq; apply Z.div_pos; nia).
  (* the quotient has enough digits *)
  destruct (Zdigits2_bounds a ltac:(lia)) as (Hd1 & Hlo1 & _).
  destruct (Zdigits2_bounds b ltac:(lia)) as (Hd2 & _ & Hhi2).
  fold d1 in Hd1, Hlo1. fold d2 in Hd2, Hhi2.
  assert (Hdq : d1 - d2 <= Zdigits2 q + e').
  { pose proof (Zdigits2_nonneg q).
    destruct (Z.le_gt_cases 0 (d1 - 1 + s - d2)) as [Hk|Hk]; [|unfold s in *; lia].
    assert (2 ^ (d1 - 1 + s - d2) <= q).
    { rewrite Hq. apply Z.div_le_lower_bound; [lia|].
      assert (b * 2 ^ (d1 - 1 + s - d2) <= 2 ^ d2 * 2 ^ (d1 - 1 + s - d2)).
      { apply Z.mul_le_mono_nonneg_r; [apply Z.pow_nonneg|]; lia. }
      rewrite <- Z.pow_add_r in H0 by lia.
      replace (d2 + (d1 - 1 + s - d2)) with ((d1 - 1) + s) in H0 by lia.
      rewrite Z.pow_add_r in H0 by lia. nia. }
    apply Zdigits2_ge_pow in H0; [|lia]. unfold s in *. lia. }
  assert (Hc : e' <= fexp (Zdigits2 q + e')).
  { pose proof (fexp_mono _ _ Hdq).
    assert (e' <= fexp (d1 - d2)) by (unfold e'; lia). lia. }
  assert (Hbd : Zdigits2 q + e' <= emax - 1).
  { assert (q <= 2 ^ s).
    { rewrite Hq. apply Z.div_le_upper_bound; [lia|]. nia. }
    assert (Zdigits2 q <= s + 1).
    { apply Zdigits2_lt_pow; [lia|]. split; [lia|].
      rewrite Z.pow_add_r by lia. change (2 ^ 1) with 2. lia. }
    unfold s in *. lia. }
  pose proof (round_aux_nearest q e' r b (new_location b r) Hq0 Hrb
                (new_location_locates b r Hrb) Hc Hbd) as Hn.
  eapply nearest_scale; [exact Hn | lia |].
  set (E := fexp (Zdigits2 q + e')) in *.
  assert (HEmin : emin <= E) by apply fexp_ge_emin.
  replace (q * b + r) with (a * 2 ^ s) by lia.
  assert (Hpw : 2 ^ s * 2 ^ (E - emin) = 2 ^ (- emin) * 2 ^ (E - e')).
  { rewrite <- !Z.pow_add_r by (unfold s; lia). f_equal. unfold s. lia. }
  transitivity (a * b * (2 ^ s * 2 ^ (E - emin))); [ring | rewrite Hpw; ring].
Qed.

Lemma Zdigits2_mul_le (x y : Z) :
  0 < x -> 0 < y -> Zdigits2 y <= Zdigits2 (x * y) <= Zdigits2 x + Zdigits2 y.
Proof using Hprec Hemax.
  intros Hx Hy.
  destruct (Zdigits2_bounds x Hx) as (Hdx & _ & Hhx).
  destruct (Zdigits2_bounds y Hy) as (Hdy & _ & Hhy).
  split.
  - apply Zdigits2_le. nia.
  - apply Zdigits2_lt_pow; [lia|]. rewrite Z.pow_add_r by lia. nia.
Qed.

(** the product of a representable number and a normal constant of
    integer value [C], as [SFmul] rounds it *)
Lemma mul_nearest (mf mc : positive) (ef ec C : Z) :
  bounded prec emax mf ef = true ->
  Zdigits2 (Z.pos mc) = prec -> emin <= ec <= 0 -> Z.pos mc = C * 2 ^ (- ec) ->
  Zdigits2 (Z.pos mf) + ef + prec + ec <= emax - 1 ->
  nearest (Vf (S754_finite false mf ef) * C) 1
    (binary_round_aux prec emax false (Z.pos (mf * mc)) (ef + ec) loc_Exact).
Proof using Hprec Hemax.
  intros Hf Hdc Hec HC Hbd. apply bounded_spec in Hf. destruct Hf as [Hcan _].
  pose proof (fexp_ge_emin (Zdigits2 (Z.pos mf) + ef)) as Hef.
  rewrite Hcan in Hef.
  rewrite Pos2Z.inj_mul.
  destruct (Zdigits2_mul_le (Z.pos mf) (Z.pos mc) ltac:(lia) ltac:(lia)) as [Hlo Hhi].
  assert (Hc : ef + ec <= fexp (Zdigits2 (Z.pos mf * Z.pos mc) + (ef + ec))).
  { unfold SpecFloat.fexp. lia. }
  pose proof (round_aux_nearest (Z.pos mf * Z.pos mc) (ef + ec) 0 1 loc_Exact
                ltac:(lia) ltac:(lia) eq_refl Hc ltac:(lia)) as Hn.
  eapply nearest_scale; [exact Hn | lia |].
  set (E := fexp (Zdigits2 (Z.pos mf * Z.pos mc) + (ef + ec))) in *.
  assert (HE : emin <= E) by apply fexp_ge_emin.
  cbn [float_value]. rewrite HC.
  assert (Hpw : 2 ^ (- ec) * 2 ^ (E - emin) = 2 ^ (ef - emin) * 2 ^ (E - (ef + ec))).
  { rewrite <- !Z.pow_add_r by lia. f_equal. lia. }
  transitivity (Z.pos mf * C * (2 ^ (- ec) * 2 ^ (E - emin))); [ring|].
  rewrite Hpw. ring.
Qed.

(** the magnitude of a representable number below a power of two *)
Lemma good_magnitude (m : positive) (e k : Z) :
  emin <= e -> emin <= k ->
  Vf (S754_finite false m e) <= 2 ^ (k - emin) -> Zdigits2 (Z.pos m) + e <= k + 1.
Proof using Hprec Hemax.
  cbn [float_value]. intros He Hk Hle.
  assert (0 < 2 ^ (e - emin)) by (apply Z.pow_pos_nonneg; lia).
  destruct (Z.le_gt_cases e k) as [Hek|Hek].
  - assert (Hsplit : 2 ^ (k - emin) = 2 ^ (k - e) * 2 ^ (e - emin)).
    { rewrite <- Z.pow_add_r by lia. f_equal. lia. }
    assert (Z.pos m <= 2 ^ (k - e)) by nia.
    assert (Zdigits2 (Z.pos m) <= (k - e) + 1).
    { apply Zdigits2_lt_pow; [lia|]. split; [lia|].
      rewrite Z.pow_add_r by lia. change (2 ^ 1) with 2. lia. }
    lia.
  - assert (2 ^ (k - emin) < 2 ^ (e - emin)) by (apply Z.pow_lt_mono_r; lia). nia.
Qed.

End Rounding.

(* ===================================================================== *)
(** * The percentages in binary64 *)
(* ===================================================================== *)

Section Binary64.

Local Abbreviation prec := PyFloat.prec.
Local Abbreviation emax := PyFloat.emax.
Local Abbreviation emin := (SpecFloat.emin PyFloat.prec PyFloat.emax).
Local Abbreviation V := (float_value PyFloat.prec PyFloat.emax).
Local Abbreviation good := (representable PyFloat.prec PyFloat.emax).
Local Abbreviation nearest := (nearest_float PyFloat.prec PyFloat.emax).

Lemma prec_pos : 0 < prec. Proof. reflexivity. Qed.
Lemma emax_ge_2 : 2 <= emax. Proof. discriminate. Qed.

Lemma one_good : good one /\ V one = 2 ^ (- emin).
Proof.
  split; [reflexivity|]. cbn [one float_value].
  change (Z.pos 4503599627370496) with (2 ^ 52).
  rewrite <- Z.pow_add_r by (unfold SpecFloat.emin; cbv; discriminate).
  f_equal.
Qed.

Lemma pow_emin_pos : 0 < 2 ^ (- emin).
Proof. apply Z.pow_pos_nonneg; [lia|]. cbv. discriminate. Qed.

Lemma truediv_pos (a b : Z) :
  0 < a <= b ->
  PyFloat.truediv a b = Ok (quotient a b)
  /\ nearest (a * 2 ^ (- emin)) b (quotient a b)
  /\ V (quotient a b) <= 2 ^ (- emin).
Proof.
  intros Hab.
  pose proof (div_core_nearest prec emax prec_pos emax_ge_2 a b Hab) as Hn.
  fold (quotient a b) in Hn.
  split; [|split; [exact Hn|]].
  - unfold PyFloat.truediv.
    destruct (Z.eqb_spec b 0); [lia|]. destruct (Z.eqb_spec a 0); [lia|].
    destruct (Z.ltb_spec a 0); [lia|]. destruct (Z.ltb_spec b 0); [lia|].
    rewrite !Z.abs_eq by lia. cbn [xorb].
    unfold quotient in *.
    destruct (SFdiv_core_binary prec emax a 0 b 0) as [[q e] l].
    destruct Hn as (_ & Hg & _).
    destruct (binary_round_aux prec emax false q e l) as [[|]|[|]| |[|] m0 e0];
      simpl in Hg; try contradiction; reflexivity.
  - destruct one_good as [Hg1 HV1]. rewrite <- HV1.
    apply (nearest_le_good prec emax prec_pos emax_ge_2 _ _ _ _ Hn Hg1). rewrite HV1.
    pose proof pow_emin_pos. nia.
Qed.

Lemma normal_ninety : normal_const 90 ninety.
Proof.
  split; [reflexivity|]. split; [lia|].
  exists 6333186975989760%positive, (-46). repeat split; try discriminate.
Qed.

Lemma normal_nine : normal_const 9 nine.
Proof.
  split; [reflexivity|]. split; [lia|].
  exists 5066549580791808%positive, (-49). repeat split; try discriminate.
Qed.

Lemma normal_const_value (C : Z) (c : spec_float) :
  normal_const C c -> good c /\ V c = C * 2 ^ (- emin).
Proof.
  intros (_ & _ & mc & ec & -> & Hb & _ & Hec & HC & _).
  split; [exact Hb|]. cbn [float_value]. rewrite HC, <- Z.mul_assoc, <- Z.pow_add_r by lia.
  do 2 f_equal. lia.
Qed.

Lemma to_int_good (f : spec_float) :
  good f -> PyFloat.to_int f = Ok (V f / 2 ^ (- emin)).
Proof.
  pose proof pow_emin_pos as Hp.
  destruct f as [[|]|[|]| |[|] m e]; simpl representable; try contradiction.
  - intros _. reflexivity.
  - intros Hb. apply (bounded_spec prec emax prec_pos emax_ge_2) in Hb. destruct Hb as [Hc _].
    pose proof (fexp_ge_emin prec emax prec_pos emax_ge_2 (Zdigits2 (Z.pos m) + e)) as He.
    rewrite Hc in He.
    unfold PyFloat.to_int. cbn [float_value]. f_equal.
    destruct (Z.leb_spec 0 e).
    + replace (e - emin) with (e + - emin) by lia.
      rewrite Z.pow_add_r, Z.mul_assoc by (pose proof (emin_nonpos prec emax prec_pos emax_ge_2); lia).
      symmetry. apply Z.div_mul. lia.
    + assert (Hs : 2 ^ (- emin) = 2 ^ (- e) * 2 ^ (e - emin)).
      { rewrite <- Z.pow_add_r by lia. f_equal. lia. }
      rewrite Hs. symmetry. apply Z.div_mul_cancel_r.
      * apply Z.pow_nonzero; lia.
      * apply Z.pow_nonzero; lia.
Qed.

Lemma scaled_spec (a b C : Z) (c : spec_float) :
  0 < a <= b -> normal_const C c ->
  PyFloat.int_of_ratio a b C = Ok (V (scaled a b c) / 2 ^ (- emin))
  /\ good (scaled a b c)
  /\ V (scaled a b c) <= C * 2 ^ (- emin)
  /\ (forall m e, quotient a b = S754_finite false m e ->
        nearest (V (quotient a b) * C) 1 (scaled a b c))
  /\ (quotient a b = S754_zero false -> scaled a b c = S754_zero false).
Proof.
  intros Hab Hc.
  destruct (truediv_pos a b Hab) as (Htd & Hn & Hle).
  destruct (normal_const_value C c Hc) as [Hgc HVc].
  destruct Hc as (Hof & HC & mc & ec & -> & Hb & Hdc & Hec & Hmc & Hmag).
  pose proof pow_emin_pos as Hp.
  assert (Hq : good (quotient a b)) by apply Hn.
  assert (Hcases : good (scaled a b (S754_finite false mc ec))
                   /\ V (scaled a b (S754_finite false mc ec)) <= C * 2 ^ (- emin)
                   /\ (forall m e, quotient a b = S754_finite false m e ->
                         nearest (V (quotient a b) * C) 1
                           (scaled a b (S754_finite false mc ec)))
                   /\ (quotient a b = S754_zero false ->
                       scaled a b (S754_finite false mc ec) = S754_zero false)).
  { unfold scaled.
    destruct (quotient a b) as [[|]|[|]| |[|] m e] eqn:Eq; simpl in Hq; try contradiction.
    - cbn [SFmul xorb]. split; [exact I|]. split; [cbn [float_value]; nia|].
      split; [intros ? ? [=] | reflexivity].
    - cbn [SFmul xorb].
      assert (Hmg : Zdigits2 (Z.pos m) + e <= 0 + 1).
      { pose proof Hq as Hq'. apply (bounded_spec prec emax prec_pos emax_ge_2) in Hq'. destruct Hq' as [Hcan _].
        pose proof (fexp_ge_emin prec emax prec_pos emax_ge_2 (Zdigits2 (Z.pos m) + e)) as He.
        rewrite Hcan in He.
        apply (good_magnitude prec emax prec_pos emax_ge_2); try lia.
        replace (0 - emin) with (- emin) by lia. exact Hle. }
      pose proof (mul_nearest prec emax prec_pos emax_ge_2 m mc e ec C Hq Hdc Hec Hmc
                    ltac:(unfold PyFloat.prec, PyFloat.emax in *; lia)) as Hn2.
      split; [apply Hn2|]. split.
      + rewrite <- HVc. apply (nearest_le_good prec emax prec_pos emax_ge_2 _ _ _ _ Hn2 Hgc).
        rewrite HVc. nia.
      + split; [intros ? ? _; exact Hn2 | discriminate]. }
  destruct Hcases as (Hg & Hbd & Hnr & Hz).
  split; [|auto].
  unfold PyFloat.int_of_ratio, PyFloat.mul_int. rewrite Htd, Hof.
  fold (scaled a b (S754_finite false mc ec)). now apply to_int_good.
Qed.

Lemma V_finite_pos (m : positive) (e : Z) :
  good (S754_finite false m e) -> 0 < V (S754_finite false m e).
Proof.
  intros Hb. apply (bounded_spec prec emax prec_pos emax_ge_2) in Hb. destruct Hb as [Hc _].
  pose proof (fexp_ge_emin prec emax prec_pos emax_ge_2 (Zdigits2 (Z.pos m) + e)) as He.
  rewrite Hc in He. cbn [float_value].
  assert (0 < 2 ^ (e - emin)) by (apply Z.pow_pos_nonneg; lia). nia.
Qed.

Lemma scaled_mono (a b a' b' C : Z) (c : spec_float) :
  0 < a <= b -> 0 < a' <= b' -> a * b' < a' * b -> normal_const C c ->
  V (scaled a b c) <= V (scaled a' b' c).
Proof.
  intros Hab Hab' Hlt Hc.
  destruct (truediv_pos a b Hab) as (_ & Hn & _).
  destruct (truediv_pos a' b' Hab') as (_ & Hn' & _).
  pose proof pow_emin_pos as Hp.
  assert (Hq : V (quotient a b) <= V (quotient a' b')).
  { apply (nearest_mono prec emax prec_pos emax_ge_2 _ _ _ _ _ _ Hn Hn'). nia. }
  destruct (scaled_spec a b C c Hab Hc) as (_ & _ & _ & Hnr & Hz).
  destruct (scaled_spec a' b' C c Hab' Hc) as (_ & _ & _ & Hnr' & Hz').
  assert (HC : 0 < C) by apply Hc.
  assert (Hg : good (quotient a b)) by apply Hn.
  assert (Hg' : good (quotient a' b')) by apply Hn'.
  destruct (quotient a b) as [[|]|[|]| |[|] m e] eqn:Eq; simpl in Hg; try contradiction.
  - rewrite (Hz eq_refl). cbn [float_value]. apply (Vf_nonneg prec emax prec_pos emax_ge_2).
  - destruct (quotient a' b') as [[|]|[|]| |[|] m' e'] eqn:Eq'; simpl in Hg';
      try contradiction.
    + pose proof (V_finite_pos m e Hg). cbn [float_value] in *. lia.
    + destruct (Z.eq_dec (V (S754_finite false m e)) (V (S754_finite false m' e')))
        as [Heq|Hne].
      * apply (good_unique prec emax prec_pos emax_ge_2) in Heq; [|exact Hg|exact Hg'].
        unfold scaled. rewrite Eq, Eq', Heq. lia.
      * apply (nearest_mono prec emax prec_pos emax_ge_2 _ _ _ _ _ _ (Hnr _ _ eq_refl) (Hnr' _ _ eq_refl)).
        nia.
Qed.

Lemma ratio_int_ok (a b C : Z) (c : spec_float) :
  0 < a <= b -> normal_const C c ->
  PyFloat.int_of_ratio a b C = Ok (ratio_int a b C) /\ 0 <= ratio_int a b C <= C.
Proof.
  intros Hab Hc. destruct (scaled_spec a b C c Hab Hc) as (Hr & Hg & Hle & _).
  unfold ratio_int. rewrite Hr. split; [reflexivity|].
  pose proof pow_emin_pos as Hp. split.
  - apply Z.div_pos; [apply (Vf_nonneg prec emax prec_pos emax_ge_2) | lia].
  - apply Z.div_le_upper_bound; lia.
Qed.

Lemma ratio_int_mono (a b a' b' C : Z) (c : spec_float) :
  0 < a <= b -> 0 < a' <= b' -> a * b' <= a' * b -> normal_const C c ->
  (a * b' = a' * b -> a = a' /\ b = b') ->
  ratio_int a b C <= ratio_int a' b' C.
Proof.
  intros Hab Hab' Hle Hc Heq.
  destruct (Z.eq_dec (a * b') (a' * b)) as [E|E].
  - destruct (Heq E) as [-> ->]. lia.
  - destruct (scaled_spec a b C c Hab Hc) as (Hr & _).
    destruct (scaled_spec a' b' C c Hab' Hc) as (Hr' & _).
    unfold ratio_int. rewrite Hr, Hr'.
    apply Z.div_le_mono; [apply pow_emin_pos|].
    apply scaled_mono with C; auto. lia.
Qed.

Lemma ratio_int_zero (b C : Z) (c : spec_float) :
  0 < b -> normal_const C c -> PyFloat.int_of_ratio 0 b C = Ok 0.
Proof.
  intros Hb (Hof & _ & mc & ec & -> & _).
  unfold PyFloat.int_of_ratio, PyFloat.truediv, PyFloat.mul_int.
  destruct (Z.eqb_spec b 0); [lia|]. destruct (Z.ltb_spec b 0); [lia|].
  cbn [Z.eqb]. rewrite Hof. reflexivity.
Qed.

Lemma quotient_self (b : Z) : 0 < b -> quotient b b = one.
Proof.
  intros Hb. destruct (truediv_pos b b ltac:(lia)) as (_ & Hn & _).
  destruct one_good as [Hg HV].
  apply (nearest_exact prec emax prec_pos emax_ge_2 _ _ _ _ Hn Hg). rewrite HV. ring.
Qed.

Lemma ratio_int_full (b : Z) : 0 < b -> ratio_int b b 90 = 90.
Proof.
  intros Hb. destruct (truediv_pos b b ltac:(lia)) as (Htd & _).
  unfold ratio_int, PyFloat.int_of_ratio. rewrite Htd, quotient_self by exact Hb.
  reflexivity.
Qed.

Lemma ratio_int_ninth (b : Z) : 10 <= b -> ratio_int 1 b 9 = 0.
Proof.
  intros Hb.
  destruct (ratio_int_ok 1 b 9 nine ltac:(lia) normal_nine) as (_ & Hlo & _).
  assert (H10 : ratio_int 1 10 9 = 0) by reflexivity.
  pose proof (ratio_int_mono 1 b 1 10 9 nine ltac:(lia) ltac:(lia) ltac:(lia)
                normal_nine ltac:(lia)).
  lia.
Qed.

(** Values of [int((a / b) * c)] as CPython computes them. *)
Example ratio_int_values :
  map (fun ab => ratio_int (fst ab) (snd ab) 90)
      [(1, 3); (7, 10); (14, 20); (13, 45); (26, 45); (35, 50); (99, 100); (1, 1000)]
  = [30; 62; 62; 25; 51; 62; 89; 0]
  /\ map (fun b => ratio_int 1 b 9) [1; 2; 3; 4; 5; 9; 10; 11] = [9; 4; 3; 2; 1; 1; 0; 0].
Proof. split; vm_compute; reflexivity. Qed.

Lemma small_documents (N p : Z) :
  1 <= N <= 9 -> 1 <= p <= N ->
  ratio_int (p - 1) N 90 + ratio_int 1 N 9 <= ratio_int p N 90.
Proof.
  intros HN Hp.
  assert (HN' : N = 1 \/ N = 2 \/ N = 3 \/ N = 4 \/ N = 5 \/ N = 6 \/ N = 7
                \/ N = 8 \/ N = 9) by lia.
  assert (Hp' : p = 1 \/ p = 2 \/ p = 3 \/ p = 4 \/ p = 5 \/ p = 6 \/ p = 7
                \/ p = 8 \/ p = 9) by lia.
  repeat (destruct HN' as [->|HN']); try subst N;
    repeat (destruct Hp' as [->|Hp']); try subst p; try lia;
    vm_compute; discriminate.
Qed.

(** The three percentages of page [p] of [N]. *)
Lemma page_percentages (N p : Z) :
  1 <= p <= N ->
  OCRWorker.progress_percent p N = Ok (5 + ratio_int (p - 1) N 90)
  /\ OCRWorker.conversion_progress p N
     = Ok (5 + ratio_int (p - 1) N 90 + ratio_int 1 N 9)
  /\ OCRWorker.ocr_progress p N = Ok (5 + ratio_int p N 90)
  /\ 0 <= ratio_int (p - 1) N 90
  /\ 0 <= ratio_int 1 N 9
  /\ ratio_int (p - 1) N 90 + ratio_int 1 N 9 <= ratio_int p N 90
  /\ ratio_int p N 90 <= 90.
Proof.
  intros Hp.
  assert (H0 : PyFloat.int_of_ratio (p - 1) N 90 = Ok (ratio_int (p - 1) N 90)
               /\ 0 <= ratio_int (p - 1) N 90).
  { destruct (Z.eq_dec p 1) as [->|Hne].
    - change (1 - 1) with 0. unfold ratio_int.
      rewrite (ratio_int_zero N 90 ninety) by (lia || apply normal_ninety).
      split; [reflexivity | lia].
    - destruct (ratio_int_ok (p - 1) N 90 ninety ltac:(lia) normal_ninety).
      split; [assumption | lia]. }
  destruct H0 as [H0 H0'].
  destruct (ratio_int_ok p N 90 ninety ltac:(lia) normal_ninety) as [H1 H1'].
  destruct (ratio_int_ok 1 N 9 nine ltac:(lia) normal_nine) as [H2 H2'].
  unfold OCRWorker.conversion_progress, OCRWorker.progress_percent, OCRWorker.ocr_progress.
  rewrite H0, H1, H2. repeat split; try lia.
  destruct (Z.le_gt_cases N 9) as [Hs|Hl].
  - apply small_documents; lia.
  - rewrite ratio_int_ninth by lia.
    destruct (Z.eq_dec p 1) as [->|Hne].
    + change (1 - 1) with 0. unfold ratio_int at 1.
      rewrite (ratio_int_zero N 90 ninety) by (lia || apply normal_ninety).
      cbv beta iota. lia.
    + pose proof (ratio_int_mono (p - 1) N p N 90 ninety ltac:(lia) ltac:(lia)
                    ltac:(nia) normal_ninety ltac:(nia)). lia.
Qed.

End Binary64.

(* ===================================================================== *)
(** * The worker's run *)
(* ===================================================================== *)

Section Worker.

Variable sv : Services.

Lemma pages_loop_quiet (N : Z) (pages : list Z) :
  forall text, Forall (fun a => is_terminal a = false) (fst (pages_loop sv N pages text)).
Proof.
  induction pages as [|p pages IH]; intros text; cbn [pages_loop].
  - constructor.
  - unfold bind, eval, emit, call.
    destruct (conversion_progress p N) as [c|msg]; [|constructor].
    destruct (convert_from_path sv p) as [[|image images]|msg]; cbn [fst app].
    + specialize (IH text). destruct (pages_loop sv N pages text) as [t r].
      cbn [fst app] in *. repeat constructor. exact IH.
    + destruct (ocr_progress p N) as [o|msg].
      * destruct (image_to_string sv image) as [page_text|msg]; cbn [fst app].
        -- specialize (IH (text ++ page_text ++ newline)).
           destruct (pages_loop sv N pages (text ++ page_text ++ newline)) as [t r].
           cbn [fst app] in *. repeat constructor. exact IH.
        -- repeat constructor.
      * repeat constructor.
    + repeat constructor.
Qed.

Lemma pages_loop_ok (N : Z) (pages : list Z) :
  forall text t text',
    Forall (fun p => 1 <= p <= N) pages ->
    pages_loop sv N pages text = (t, Ok text') ->
    t = flat_map (page_trace sv N) pages.
Proof.
  induction pages as [|p pages IH]; intros text t text' Hr; cbn [pages_loop flat_map].
  - intros [= <- _]. reflexivity.
  - inversion Hr as [|? ? Hp Hr']; subst.
    destruct (page_percentages N p Hp) as (_ & Hc & Ho & _).
    unfold bind, eval, emit, call. rewrite Hc. unfold page_trace.
    destruct (convert_from_path sv p) as [[|image images]|msg]; cbn [fst app].
    + destruct (pages_loop sv N pages text) as [t0 r] eqn:E.
      intros [= <- ->]. cbn [app]. do 2 f_equal. exact (IH _ _ _ Hr' E).
    + rewrite Ho.
      destruct (image_to_string sv image) as [page_text|msg]; cbn [fst app].
      * destruct (pages_loop sv N pages (text ++ page_text ++ newline)) as [t0 r] eqn:E.
        intros [= <- ->]. cbn [app]. do 4 f_equal. exact (IH _ _ _ Hr' E).
      * discriminate.
    + discriminate.
Qed.

Lemma page_range_bounds (N : Z) : Forall (fun p => 1 <= p <= N) (page_range N).
Proof.
  unfold page_range. rewrite Forall_forall. intros p Hin.
  apply in_map_iff in Hin. destruct Hin as (i & <- & Hi).
  apply in_seq in Hi. lia.
Qed.

Lemma run_success_shape (N : Z) :
  page_count sv = Ok N -> 1 <= N -> succeeded (run sv) ->
  exists text,
    run sv = ([opening; OpenDocument; found_pages N]
              ++ flat_map (page_trace sv N) (page_range N)
              ++ [complete; Emit (finished text)])%list.
Proof.
  intros HN Hpos [text Hlast]. unfold run, run_body in *.
  unfold bind, emit, call in *. rewrite HN in *.
  destruct (Z.eqb_spec N 0) as [|_]; [lia|].
  destruct (pages_loop sv N (page_range N) "") as [t r] eqn:E.
  destruct r as [text'|msg].
  - exists text'. cbn [app].
    rewrite (pages_loop_ok N _ _ _ _ (page_range_bounds N) E). reflexivity.
  - exfalso. cbn [app] in Hlast.
    change (last (([opening; OpenDocument; found_pages N] ++ t)
                  ++ [Emit (error ("OCR Error: " ++ msg))]) OpenDocument
            = Emit (finished text)) in Hlast.
    rewrite last_last in Hlast. discriminate.
Qed.

(** Every run ends with its one terminal signal. *)
Lemma run_terminal_last :
  exists t a, run sv = (t ++ [a])%list /\ is_terminal a = true
              /\ Forall (fun x => is_terminal x = false) t.
Proof.
  unfold run, run_body, bind, emit, call.
  destruct (page_count sv) as [N|msg].
  - destruct (Z.eqb_spec N 0) as [_|_].
    + exists [opening; OpenDocument], (Emit (error "No pages found in PDF")).
      repeat split; repeat constructor.
    + pose proof (pages_loop_quiet N (page_range N) "") as Hq.
      destruct (pages_loop sv N (page_range N) "") as [t r]. cbn [fst] in Hq.
      destruct r as [text|msg]; cbn [app].
      * exists ([opening; OpenDocument; found_pages N] ++ t ++ [complete])%list,
               (Emit (finished text)).
        split; [now rewrite <- !app_assoc|]. split; [reflexivity|].
        repeat constructor. apply Forall_app. split; [exact Hq | repeat constructor].
      * exists ([opening; OpenDocument; found_pages N] ++ t)%list,
               (Emit (error ("OCR Error: " ++ msg))).
        split; [rewrite ?app_nil_r, <- ?app_assoc; reflexivity|]. split; [reflexivity|].
        repeat constructor. exact Hq.
  - exists [opening; OpenDocument], (Emit (error ("OCR Error: " ++ msg))).
    repeat split; repeat constructor.
Qed.


End Worker.



Lemma outcome_last (t : list Action) (a : Action) :
  is_terminal a = true -> exists s, a = Emit s /\ outcome (t ++ [a]) = Some s.
Proof.
  intros Ha. destruct a as [[| |]| | |]; simpl in Ha; try discriminate.
  - exists (finished text). split; [reflexivity|].
    induction t as [|b t IH]; [reflexivity|]. cbn [app outcome]. now rewrite IH.
  - exists (error message). split; [reflexivity|].
    induction t as [|b t IH]; [reflexivity|]. cbn [app outcome]. now rewrite IH.
Qed.

Section Progress.

Variable sv : Services.
Variable N : Z.

Lemma percents_app (a b : list Action) :
  percents (a ++ b) = (percents a ++ percents b)%list.
Proof. unfold percents. apply flat_map_app. Qed.

Lemma sorted_snoc (l : list Z) (x : Z) :
  StronglySorted Z.le l -> Forall (fun v => v <= x) l ->
  StronglySorted Z.le (l ++ [x]).
Proof.
  induction 1 as [|a l Hl IH Ha]; intros Hx; simpl.
  - repeat constructor.
  - inversion Hx; subst. constructor; [now apply IH|].
    apply Forall_app. split; [exact Ha | repeat constructor; assumption].
Qed.

Lemma percents_page_trace (p : Z) :
  percents (page_trace sv N p)
  = (5 + ratio_int (p - 1) N 90 + ratio_int 1 N 9)
    :: match convert_from_path sv p with
       | Ok (_ :: _) => [5 + ratio_int p N 90]
       | _ => []
       end.
Proof.
  unfold page_trace. now destruct (convert_from_path sv p) as [[|image images]|msg].
Qed.

Lemma pages_percents_sorted (n : nat) :
  forall k : nat,
    (1 <= k)%nat -> Z.of_nat (k + n) - 1 <= N ->
    StronglySorted Z.le
      (percents (flat_map (page_trace sv N) (map (fun i => Z.of_nat i) (seq k n))))
    /\ Forall (fun v => 5 + ratio_int (Z.of_nat k - 1) N 90 <= v <= 95)
         (percents (flat_map (page_trace sv N) (map (fun i => Z.of_nat i) (seq k n)))).
Proof.
  induction n as [|n IH]; intros k Hk HN.
  - split; constructor.
  - cbn [seq map flat_map]. rewrite percents_app, percents_page_trace.
    destruct (IH (S k) ltac:(lia) ltac:(lia)) as [Hs Hb].
    replace (Z.of_nat (S k) - 1) with (Z.of_nat k) in Hb by lia.
    destruct (page_percentages N (Z.of_nat k) ltac:(lia))
      as (_ & _ & _ & H0 & Hy & Hsup & H90).
    set (rest := percents (flat_map (page_trace sv N)
                             (map (fun i => Z.of_nat i) (seq (S k) n)))) in *.
    assert (Hrest : Forall (fun v => 5 + ratio_int (Z.of_nat k) N 90 <= v) rest).
    { eapply Forall_impl; [|exact Hb]. cbv beta; intros; lia. }
    assert (Hrest95 : Forall (fun v => 5 + ratio_int (Z.of_nat k - 1) N 90 <= v <= 95) rest).
    { eapply Forall_impl; [|exact Hb]. cbv beta; intros; lia. }
    destruct (convert_from_path sv (Z.of_nat k)) as [[|image images]|msg]; cbn [app].
    + split.
      * constructor; [exact Hs|]. eapply Forall_impl; [|exact Hrest]. cbv beta; intros; lia.
      * constructor; [lia | exact Hrest95].
    + split.
      * constructor.
        -- constructor; [exact Hs | exact Hrest].
        -- constructor; [lia|]. eapply Forall_impl; [|exact Hrest]. cbv beta; intros; lia.
      * constructor; [lia|]. constructor; [lia | exact Hrest95].
    + split.
      * constructor; [exact Hs|]. eapply Forall_impl; [|exact Hrest]. cbv beta; intros; lia.
      * constructor; [lia | exact Hrest95].
Qed.

Lemma run_success_percents :
  page_count sv = Ok N -> 1 <= N -> succeeded (run sv) ->
  percents (run sv)
  = (0 :: 5 :: percents (flat_map (page_trace sv N) (page_range N)) ++ [100])%list.
Proof.
  intros HN Hpos Hs. destruct (run_success_shape sv N HN Hpos Hs) as [text ->].
  rewrite !percents_app. reflexivity.
Qed.

(** C4: in every successful run over [N >= 1] pages, the percentages
    emitted from the opening event to the last one never decrease (each is
    at most every later one), the first is 0 and the last is exactly 100.
    The percentages are those the program computes in binary64. *)
Theorem progress_non_decreasing_to_100 :
  page_count sv = Ok N -> 1 <= N -> succeeded (run sv) ->
  StronglySorted Z.le (percents (run sv))
  /\ hd 0 (percents (run sv)) = 0
  /\ last (percents (run sv)) 0 = 100.
Proof.
  intros HN Hpos Hs. rewrite (run_success_percents HN Hpos Hs).
  destruct (pages_percents_sorted (Z.to_nat N) 1 ltac:(lia) ltac:(lia)) as [Hsort Hb].
  fold (page_range N) in Hsort, Hb.
  destruct (page_percentages N 1 ltac:(lia)) as (_ & _ & _ & H0 & _).
  change (Z.of_nat 1 - 1) with (1 - 1) in Hb.
  set (l := percents (flat_map (page_trace sv N) (page_range N))) in *.
  split; [|split].
  - assert (Hl : StronglySorted Z.le (l ++ [100])).
    { apply sorted_snoc; [exact Hsort|].
      eapply Forall_impl; [|exact Hb]. cbv beta; intros; lia. }
    constructor; [constructor; [exact Hl|]|].
    + apply Forall_app. split; [|repeat constructor; lia].
      eapply Forall_impl; [|exact Hb]. cbv beta; intros; lia.
    + constructor; [lia|]. apply Forall_app. split; [|repeat constructor; lia].
      eapply Forall_impl; [|exact Hb]. cbv beta; intros; lia.
  - reflexivity.
  - change (0 :: 5 :: l ++ [100])%list with ((0 :: 5 :: l) ++ [100])%list.
    apply last_last.
Qed.

End Progress.

Lemma last_two {A} (l : list A) (a b d : A) : last (l ++ [a; b]) d = b.
Proof.
  change (l ++ [a; b])%list with (l ++ [a] ++ [b])%list.
  rewrite app_assoc. apply last_last.
Qed.

Section Totality.

Variable sv : Services.
Variable N : Z.

Lemma pages_loop_total (pages : list Z) :
  services_ok sv N -> Forall (fun p => 1 <= p <= N) pages ->
  forall text, exists t text', pages_loop sv N pages text = (t, Ok text').
Proof.
  intros Hok Hr. induction Hr as [|p pages Hp _ IH]; intros text; cbn [pages_loop].
  - now exists [], text.
  - destruct (page_percentages N p Hp) as (_ & Hc & Ho & _).
    destruct (Hok p Hp) as (images & Hconv & Himg).
    unfold bind, eval, emit, call. rewrite Hc, Hconv.
    destruct images as [|image images].
    + destruct (IH text) as (t & text' & ->). cbn [app]. eauto.
    + destruct Himg as [s Hs]. rewrite Ho, Hs.
      destruct (IH (text ++ s ++ newline)) as (t & text' & ->). cbn [app]. eauto.
Qed.

Lemma run_succeeds :
  page_count sv = Ok N -> 1 <= N -> services_ok sv N -> succeeded (run sv).
Proof.
  intros HN Hpos Hok. unfold succeeded, run, run_body, bind, emit, call.
  rewrite HN. destruct (Z.eqb_spec N 0) as [|_]; [lia|].
  destruct (pages_loop_total (page_range N) Hok (page_range_bounds N) "")
    as (t & text & ->).
  exists text. cbn [app].
  exact (last_two (opening :: OpenDocument :: found_pages N :: t) complete
           (Emit (finished text)) OpenDocument).
Qed.

Lemma in_page_range (p : Z) : 1 <= p <= N -> In p (page_range N).
Proof.
  intros Hp. unfold page_range. apply in_map_iff. exists (Z.to_nat p).
  split; [lia|]. apply in_seq. lia.
Qed.

(** C3 (as the code has it): a successful run over [N >= 1] pages emits
    the opening event (0), the page-count event (5), then for each page
    [p] of 1..N in order the conversion-start event with percentage
    [5 + int(((p-1)/N)*90) + int((1/N)*9)], the rendering call and, when
    rendering returned an image, the recognition-start event with
    percentage [5 + int((p/N)*90)] and the recognition call, and at the
    end the event with 100 followed by [finished]; [/] and [*] are the
    binary64 operations and [int] truncates.  None of these computations
    raises; the share of the pages is 0 before page 1 and exactly 90 after
    page [N], so the last recognition-start event carries 95. *)
Theorem progress_events_of_a_successful_run :
  page_count sv = Ok N -> 1 <= N -> succeeded (run sv) ->
  (exists text,
     run sv = ([opening; OpenDocument; found_pages N]
               ++ flat_map (page_trace sv N) (page_range N)
               ++ [complete; Emit (finished text)])%list)
  /\ (forall p, 1 <= p <= N ->
       conversion_progress p N = Ok (5 + ratio_int (p - 1) N 90 + ratio_int 1 N 9)
       /\ ocr_progress p N = Ok (5 + ratio_int p N 90)
       /\ In (Emit (progress (5 + ratio_int (p - 1) N 90 + ratio_int 1 N 9)
                      (conversion_message p N))) (run sv)
       /\ (forall image images, convert_from_path sv p = Ok (image :: images) ->
             In (Emit (progress (5 + ratio_int p N 90) (ocr_message p N))) (run sv)))
  /\ ratio_int 0 N 90 = 0
  /\ ratio_int N N 90 = 90.
Proof.
  intros HN Hpos Hs. destruct (run_success_shape sv N HN Hpos Hs) as [text Hrun].
  split; [now exists text|].
  split; [|split; [unfold ratio_int;
                   now rewrite (ratio_int_zero N 90 ninety) by (lia || apply normal_ninety)
                  | apply ratio_int_full; lia]].
  intros p Hp. destruct (page_percentages N p Hp) as (_ & Hc & Ho & _).
  split; [exact Hc|]. split; [exact Ho|].
  assert (Hin : forall a, In a (page_trace sv N p) -> In a (run sv)).
  { intros a Ha. rewrite Hrun. apply in_or_app. right. apply in_or_app. left.
    apply in_flat_map. exists p. split; [now apply in_page_range | exact Ha]. }
  split.
  - apply Hin. left. reflexivity.
  - intros image images Hconv. apply Hin. unfold page_trace. rewrite Hconv.
    right. right. left. reflexivity.
Qed.

End Totality.

(** C3, counterexample: for the only page of a one-page document the
    conversion-start event carries 14, whereas [5 + floor(90*(1-1)/1)] is
    5; for page 7 of 10 the recognition-start percentage is 67, whereas
    [5 + floor(90*7/10)] is 68, because [(7/10)*90] falls just below 63 in
    binary64. *)
Lemma conversion_percent_adds_render_share :
  conversion_progress 1 1 = Ok 14
  /\ 5 + 90 * (1 - 1) / 1 = 5
  /\ percents (run one_page) = [0; 5; 14; 95; 100]
  /\ ocr_progress 7 10 = Ok 67
  /\ 5 + 90 * 7 / 10 = 68.
Proof. repeat split; vm_compute; reflexivity. Qed.

(** C3, witness: three pages, the second without an image (example
    scenario 1 of the specification). *)
Lemma progress_events_three_pages :
  succeeded (run three_pages)
  /\ percents (run three_pages) = [0; 5; 8; 35; 38; 68; 95; 100].
Proof.
  assert (Hs : succeeded (run three_pages)).
  { eexists. vm_compute. reflexivity. }
  split; [exact Hs|].
  destruct (progress_events_of_a_successful_run three_pages 3 eq_refl ltac:(lia) Hs)
    as [[text Hrun] _].
  rewrite Hrun. vm_compute. reflexivity.
Defined.

Section Cancellation.

Variable sv : Services.





End Cancellation.


(** C7: when the document reports zero pages the run consists of the
    opening event, the one call that opens the document, and the error
    signal "No pages found in PDF"; that error is its outcome; no page is
    rendered or recognized and the document is opened once only; the
    window reports the error in a critical box and keeps its results. *)
Theorem empty_document_fails_at_once (sv : Services) (st : State) :
  page_count sv = Ok 0 ->
  run sv = [opening; OpenDocument; Emit (error "No pages found in PDF")]
  /\ outcome (run sv) = Some (error "No pages found in PDF")
  /\ filter is_page_call (run sv) = []
  /\ List.length (filter (fun a => match a with OpenDocument => true | _ => false end)
                    (run sv)) = 1%nat
  /\ map title (boxes (on_ocr_error "No pages found in PDF" st))
     = (map title (boxes st) ++ ["OCR Error"])%list
  /\ current_results (on_ocr_error "No pages found in PDF" st) = current_results st.
Proof.
  intros H0.
  assert (Hrun : run sv = [opening; OpenDocument; Emit (error "No pages found in PDF")]).
  { unfold run, run_body, bind, emit, call. rewrite H0. reflexivity. }
  rewrite Hrun. repeat split.
  unfold on_ocr_error, show. cbn [boxes]. rewrite map_app. reflexivity.
Qed.

(** C7, witness: a document with no page. *)
Lemma empty_document_example :
  run no_pages = [opening; OpenDocument; Emit (error "No pages found in PDF")]
  /\ filter is_page_call (run no_pages) = [].
Proof.
  destruct (empty_document_fails_at_once no_pages idle eq_refl) as (H1 & _ & H2 & _).
  split; [exact H1 | exact H2].
Defined.

(** C4, witness: three pages, the second without an image. *)
Lemma progress_non_decreasing_three_pages :
  StronglySorted Z.le (percents (run three_pages))
  /\ last (percents (run three_pages)) 0 = 100.
Proof.
  assert (Hs : succeeded (run three_pages)).
  { eexists. vm_compute. reflexivity. }
  destruct (progress_non_decreasing_to_100 three_pages 3 eq_refl ltac:(lia) Hs)
    as (H1 & _ & H2).
  split; [exact H1 | exact H2].
Defined.

(* ===================================================================== *)
(** * The worker's run: failures, the text delivered, progress in every run *)
(* ===================================================================== *)

Section WorkerOutcomes.

Variable sv : Services.
Variable N : Z.

Lemma page_range_snoc (p : Z) :
  1 <= p -> page_range p = (page_range (p - 1) ++ [p])%list.
Proof.
  intros Hp. unfold page_range.
  replace (Z.to_nat p) with (S (Z.to_nat (p - 1))) by lia.
  rewrite seq_S, map_app. cbn [map]. do 3 f_equal. lia.
Qed.

Lemma in_page_range_iff (p q : Z) : In q (page_range p) <-> 1 <= q <= p.
Proof.
  unfold page_range. rewrite in_map_iff. split.
  - intros (i & <- & Hi). apply in_seq in Hi. lia.
  - intros Hq. exists (Z.to_nat q). split; [lia|]. apply in_seq. lia.
Qed.

Lemma page_range_split (p : Z) :
  1 <= p <= N ->
  exists rest, page_range N = (page_range (p - 1) ++ p :: rest)%list
               /\ Forall (fun q => p < q <= N) rest.
Proof.
  intros Hp. unfold page_range.
  replace (Z.to_nat N) with (Z.to_nat (p - 1) + S (Z.to_nat (N - p)))%nat by lia.
  rewrite seq_app, map_app. cbn [seq map].
  exists (map (fun i => Z.of_nat i) (seq (S (1 + Z.to_nat (p - 1))) (Z.to_nat (N - p)))).
  split.
  - do 2 f_equal. lia.
  - rewrite Forall_forall. intros q Hq. apply in_map_iff in Hq.
    destruct Hq as (i & <- & Hi). apply in_seq in Hi. lia.
Qed.

Lemma string_concat_app (l1 l2 : list string) :
  String.concat "" (l1 ++ l2) = String.concat "" l1 ++ String.concat "" l2.
Proof.
  induction l1 as [|a l1 IH]; [reflexivity|].
  destruct l1 as [|b l1].
  - cbn [app String.concat]. destruct l2 as [|c l2]; cbn [String.concat].
    + induction a; simpl; congruence.
    + reflexivity.
  - change ((a :: b :: l1) ++ l2)%list with (a :: (b :: l1) ++ l2)%list.
    cbn [String.concat app] in *. rewrite IH.
    cbn [String.append]. now rewrite str_app_assoc.
Qed.

Lemma string_app_nil_r (s : string) : s ++ "" = s.
Proof. induction s; simpl; congruence. Qed.

(** The loop over pages on which nothing raises. *)
Lemma pages_loop_all_ok (pages : list Z) :
  forall text,
    Forall (fun p => 1 <= p <= N) pages ->
    Forall (page_ok sv) pages ->
    pages_loop sv N pages text
    = (flat_map (page_trace sv N) pages,
       Ok (text ++ String.concat "" (map (page_text sv) pages))).
Proof.
  induction pages as [|p pages IH]; intros text Hr Hok.
  - cbn [pages_loop flat_map map String.concat]. unfold ret.
    now rewrite string_app_nil_r.
  - inversion Hr as [|? ? Hp Hr']; subst. inversion Hok as [|? ? Hpok Hok']; subst.
    destruct (page_percentages N p Hp) as (_ & Hc & Ho & _).
    change (map (page_text sv) (p :: pages))
      with ([page_text sv p] ++ map (page_text sv) pages)%list.
    rewrite string_concat_app. cbn [String.concat].
    cbn [pages_loop flat_map]. unfold bind, eval, emit, call. rewrite Hc.
    unfold page_trace, page_text.
    destruct Hpok as (images & Himg & Hread). rewrite Himg.
    destruct images as [|image images].
    + rewrite (IH text Hr' Hok'). reflexivity.
    + destruct Hread as [s Hs]. rewrite Ho, Hs.
      rewrite (IH _ Hr' Hok'). cbn [app]. now rewrite !str_app_assoc.
Qed.

(** The loop that meets a page raising [e] after pages on which nothing
    raises. *)
Lemma pages_loop_failure (pre : list Z) (p : Z) (post : list Z) (e : string) :
  forall text,
    Forall (fun q => 1 <= q <= N) pre -> 1 <= p <= N ->
    Forall (page_ok sv) pre -> page_fails sv p e ->
    pages_loop sv N (pre ++ p :: post) text
    = (flat_map (page_trace sv N) (pre ++ [p]), Raise e).
Proof.
  induction pre as [|q pre IH]; intros text Hr Hp Hok Hf.
  - cbn [app pages_loop flat_map]. unfold bind, eval, emit, call.
    destruct (page_percentages N p Hp) as (_ & Hc & Ho & _). rewrite Hc.
    unfold page_trace.
    destruct Hf as [Hf|(image & images & Hi & Hf)].
    + rewrite Hf. reflexivity.
    + rewrite Hi, Ho, Hf. reflexivity.
  - inversion Hr as [|? ? Hq Hr']; subst. inversion Hok as [|? ? Hqok Hok']; subst.
    destruct (page_percentages N q Hq) as (_ & Hc & Ho & _).
    cbn [app pages_loop flat_map]. unfold bind, eval, emit, call. rewrite Hc.
    unfold page_trace at 1.
    destruct Hqok as (images & Himg & Hread). rewrite Himg.
    destruct images as [|image images].
    + rewrite (IH text Hr' Hp Hok' Hf). reflexivity.
    + destruct Hread as [s Hs]. rewrite Ho, Hs.
      rewrite (IH _ Hr' Hp Hok' Hf). reflexivity.
Qed.

Lemma page_trace_calls (p q : Z) :
  In (ConvertPage q) (page_trace sv N p) -> q = p.
Proof.
  unfold page_trace. intros [H|[H|H]]; [discriminate | congruence |].
  destruct (convert_from_path sv p) as [[|image images]|msg]; simpl in H;
    try contradiction.
  destruct H as [H|[H|[]]]; discriminate.
Qed.

Lemma rendered_pages_app (a b : list Action) :
  rendered_pages (a ++ b) = (rendered_pages a ++ rendered_pages b)%list.
Proof. unfold rendered_pages. apply flat_map_app. Qed.

Lemma rendered_pages_traces (pages : list Z) :
  rendered_pages (flat_map (page_trace sv N) pages) = pages.
Proof.
  induction pages as [|p pages IH]; [reflexivity|].
  cbn [flat_map]. rewrite rendered_pages_app, IH. unfold page_trace.
  now destruct (convert_from_path sv p) as [[|image images]|msg].
Qed.

End WorkerOutcomes.

(** X1: when the document has [N >= 1] pages and page [p] is the first on
    which the rendering or the recognition raises, say [e], the run is the
    opening, the pages [1..p] as far as they went, and the error signal
    "OCR Error: e"; the pages rendered are [1..p], each once and in order,
    no later page is rendered, the text read so far is not delivered, and
    the error signal is the outcome. *)
Theorem run_stops_at_first_failure (sv : Services) (N p : Z) (e : string) :
  page_count sv = Ok N -> 1 <= p <= N ->
  (forall q, 1 <= q < p -> page_ok sv q) -> page_fails sv p e ->
  run sv = ([opening; OpenDocument; found_pages N]
            ++ flat_map (page_trace sv N) (page_range p)
            ++ [Emit (error ("OCR Error: " ++ e))])%list
  /\ rendered_pages (run sv) = page_range p
  /\ (forall q, p < q -> ~ In (ConvertPage q) (run sv))
  /\ (forall text, ~ In (Emit (finished text)) (run sv))
  /\ outcome (run sv) = Some (error ("OCR Error: " ++ e)).
Proof.
  intros HN Hp Hok Hf.
  destruct (page_range_split N p Hp) as (rest & Hsplit & _).
  assert (Hpre : Forall (fun q => 1 <= q <= N) (page_range (p - 1))).
  { rewrite Forall_forall. intros q Hq. apply in_page_range_iff in Hq. lia. }
  assert (Hpre' : Forall (page_ok sv) (page_range (p - 1))).
  { rewrite Forall_forall. intros q Hq. apply in_page_range_iff in Hq.
    apply Hok. lia. }
  assert (Hrun : run sv = ([opening; OpenDocument; found_pages N]
            ++ flat_map (page_trace sv N) (page_range p)
            ++ [Emit (error ("OCR Error: " ++ e))])%list).
  { unfold run, run_body, bind, emit, call. rewrite HN.
    destruct (Z.eqb_spec N 0) as [|_]; [lia|].
    rewrite Hsplit, (pages_loop_failure sv N _ p rest e "" Hpre Hp Hpre' Hf).
    rewrite <- page_range_snoc by lia. cbn [app].
    rewrite ?app_nil_r, <- ?app_assoc. reflexivity. }
  split; [exact Hrun|].
  assert (Hquiet : Forall (fun a => is_terminal a = false)
                     ([opening; OpenDocument; found_pages N]
                      ++ flat_map (page_trace sv N) (page_range p))%list).
  { apply Forall_app. split; [repeat constructor|].
    rewrite Forall_forall. intros a Ha. apply in_flat_map in Ha.
    destruct Ha as (q & _ & Ha). unfold page_trace in Ha.
    destruct Ha as [<-|[<-|Ha]]; [reflexivity..|].
    destruct (convert_from_path sv q) as [[|image images]|msg]; simpl in Ha;
      try contradiction.
    destruct Ha as [<-|[<-|[]]]; reflexivity. }
  rewrite Hrun. split; [|split; [|split]].
  - rewrite !rendered_pages_app, rendered_pages_traces. cbn [rendered_pages flat_map app].
    apply app_nil_r.
  - intros q Hq Hin. rewrite !in_app_iff in Hin.
    destruct Hin as [Hin|[Hin|Hin]].
    + simpl in Hin. destruct Hin as [H|[H|[H|[]]]]; discriminate.
    + apply in_flat_map in Hin. destruct Hin as (r & Hr & Hin).
      apply page_trace_calls in Hin. subst r.
      apply in_page_range_iff in Hr. lia.
    + destruct Hin as [H|[]]. discriminate.
  - intros text Hin. rewrite app_assoc in Hin. apply in_app_iff in Hin.
    destruct Hin as [Hin|[H|[]]]; [|discriminate].
    rewrite Forall_forall in Hquiet. now specialize (Hquiet _ Hin).
  - rewrite app_assoc.
    destruct (outcome_last (([opening; OpenDocument; found_pages N]
                 ++ flat_map (page_trace sv N) (page_range p))%list)
                (Emit (error ("OCR Error: " ++ e))) eq_refl) as (s & Hs & Ho).
    injection Hs as <-. exact Ho.
Qed.

Lemma run_stops_at_unreadable_page :
  run unreadable_second_page
  = [opening; OpenDocument; found_pages 2;
     Emit (progress 9 (conversion_message 1 2)); ConvertPage 1;
     Emit (progress 50 (ocr_message 1 2)); Recognize (PageImage 1);
     Emit (progress 54 (conversion_message 2 2)); ConvertPage 2;
     Emit (progress 95 (ocr_message 2 2)); Recognize (PageImage 2);
     Emit (error "OCR Error: tesseract is not installed")].
Proof.
  pose proof (run_stops_at_first_failure unreadable_second_page 2 2
                "tesseract is not installed" eq_refl ltac:(lia)) as H.
  destruct H as [H _].
  - intros q Hq. assert (q = 1) as -> by lia.
    exists [PageImage 1]. split; [reflexivity|]. now exists "first".
  - right. now exists (PageImage 2), [].
  - rewrite H. vm_compute. reflexivity.
Defined.

(** X2: when the document has [N >= 1] pages and nothing raises, the run
    goes through all the pages and delivers, after the 100% event, the
    texts read from the first image of each page in page order, each
    followed by a line feed; a page that renders to no image adds
    nothing.  Every page is rendered once, in page order. *)
Theorem run_delivers_the_text_of_all_pages (sv : Services) (N : Z) :
  page_count sv = Ok N -> 1 <= N -> services_ok sv N ->
  run sv = ([opening; OpenDocument; found_pages N]
            ++ flat_map (page_trace sv N) (page_range N)
            ++ [complete; Emit (finished (document_text sv N))])%list
  /\ outcome (run sv) = Some (finished (document_text sv N))
  /\ rendered_pages (run sv) = page_range N.
Proof.
  intros HN Hpos Hok.
  assert (Hall : Forall (page_ok sv) (page_range N)).
  { rewrite Forall_forall. intros q Hq. apply in_page_range_iff in Hq.
    exact (Hok q Hq). }
  assert (Hrun : run sv = ([opening; OpenDocument; found_pages N]
            ++ flat_map (page_trace sv N) (page_range N)
            ++ [complete; Emit (finished (document_text sv N))])%list).
  { unfold run, run_body, bind, emit, call. rewrite HN.
    destruct (Z.eqb_spec N 0) as [|_]; [lia|].
    rewrite (pages_loop_all_ok sv N _ "" (page_range_bounds N) Hall).
    reflexivity. }
  split; [exact Hrun|]. rewrite Hrun. split.
  - change (([opening; OpenDocument; found_pages N]
             ++ flat_map (page_trace sv N) (page_range N)
             ++ [complete; Emit (finished (document_text sv N))])%list)
      with (([opening; OpenDocument; found_pages N]
             ++ flat_map (page_trace sv N) (page_range N)
             ++ [complete] ++ [Emit (finished (document_text sv N))])%list).
    rewrite !app_assoc.
    destruct (outcome_last
                ((([opening; OpenDocument; found_pages N]
                   ++ flat_map (page_trace sv N) (page_range N)) ++ [complete])%list)
                (Emit (finished (document_text sv N))) eq_refl) as (s & Hs & Ho).
    injection Hs as <-. exact Ho.
  - rewrite !rendered_pages_app, rendered_pages_traces. cbn [rendered_pages flat_map app].
    apply app_nil_r.
Qed.

Lemma run_delivers_three_pages :
  outcome (run three_pages)
  = Some (finished ("page 1" ++ newline ++ "page 3" ++ newline)).
Proof.
  assert (Hok : services_ok three_pages 3).
  { intros p Hp. assert (Hc : p = 1 \/ p = 2 \/ p = 3) by lia.
    destruct Hc as [-> | [-> | ->]].
    - exists [PageImage 1]. split; [reflexivity|]. now exists "page 1".
    - exists []. split; [reflexivity | exact I].
    - exists [PageImage 3]. split; [reflexivity|]. now exists "page 3". }
  destruct (run_delivers_the_text_of_all_pages three_pages 3 eq_refl ltac:(lia) Hok)
    as (_ & H & _).
  rewrite H. reflexivity.
Defined.

Section AnyRun.

Variable sv : Services.

(** Whatever raises, the loop performs a beginning of what it performs
    when nothing raises. *)
Lemma pages_loop_prefix (N : Z) (pages : list Z) :
  forall text,
    Forall (fun p => 1 <= p <= N) pages ->
    exists rest,
      flat_map (page_trace sv N) pages
      = (fst (pages_loop sv N pages text) ++ rest)%list.
Proof.
  induction pages as [|p pages IH]; intros text Hr.
  - now exists [].
  - inversion Hr as [|? ? Hp Hr']; subst.
    destruct (page_percentages N p Hp) as (_ & Hc & Ho & _).
    cbn [pages_loop flat_map]. unfold bind, eval, emit, call. rewrite Hc.
    unfold page_trace at 1.
    destruct (convert_from_path sv p) as [[|image images]|msg].
    + destruct (IH text Hr') as [rest Hrest].
      destruct (pages_loop sv N pages text) as [t r]. cbn [fst app] in *.
      exists rest. now rewrite Hrest.
    + rewrite Ho. destruct (image_to_string sv image) as [s|msg].
      * destruct (IH (text ++ s ++ newline) Hr') as [rest Hrest].
        destruct (pages_loop sv N pages (text ++ s ++ newline)) as [t r].
        cbn [fst app] in *. exists rest. now rewrite Hrest.
      * cbn [fst app]. now exists (flat_map (page_trace sv N) pages).
    + cbn [fst app]. now exists (flat_map (page_trace sv N) pages).
Qed.

Lemma sorted_prefix (a b : list Z) :
  StronglySorted Z.le (a ++ b) -> StronglySorted Z.le a.
Proof.
  induction a as [|x a IH]; intros H; [constructor|].
  cbn [app] in H. inversion H as [|? ? Hs Hx]; subst.
  constructor; [now apply IH|]. apply Forall_app in Hx. tauto.
Qed.

Lemma pages_loop_percents (N : Z) (text : string) :
  1 <= N ->
  StronglySorted Z.le (percents (fst (pages_loop sv N (page_range N) text)))
  /\ Forall (fun v => 5 <= v <= 95)
       (percents (fst (pages_loop sv N (page_range N) text))).
Proof.
  intros HN.
  destruct (pages_loop_prefix N (page_range N) text (page_range_bounds N))
    as [rest Hrest].
  destruct (pages_percents_sorted sv N (Z.to_nat N) 1 ltac:(lia) ltac:(lia))
    as [Hs Hb].
  fold (page_range N) in Hs, Hb. rewrite Hrest, percents_app in Hs, Hb.
  split; [now apply sorted_prefix in Hs|].
  apply Forall_app in Hb. destruct Hb as [Hb _].
  destruct (page_percentages N 1 ltac:(lia)) as (_ & _ & _ & H0 & _).
  change (Z.of_nat 1 - 1) with (1 - 1) in Hb.
  eapply Forall_impl; [|exact Hb]. cbv beta. intros; lia.
Qed.

Lemma percents_frame (l : list Z) (tail : list Z) :
  StronglySorted Z.le l -> Forall (fun v => 5 <= v <= 95) l ->
  tail = [] \/ tail = [100] ->
  StronglySorted Z.le (0 :: 5 :: l ++ tail)
  /\ Forall (fun v => 0 <= v <= 100) (0 :: 5 :: l ++ tail).
Proof.
  intros Hs Hb Ht.
  assert (Hl : StronglySorted Z.le (l ++ tail)).
  { destruct Ht as [->| ->]; [now rewrite app_nil_r|].
    apply sorted_snoc; [exact Hs|].
    eapply Forall_impl; [|exact Hb]. cbv beta; intros; lia. }
  assert (Hb' : Forall (fun v => 5 <= v <= 100) (l ++ tail)).
  { apply Forall_app. split.
    - eapply Forall_impl; [|exact Hb]. cbv beta; intros; lia.
    - destruct Ht as [->| ->]; repeat constructor; lia. }
  split.
  - constructor; [constructor; [exact Hl|]|].
    + eapply Forall_impl; [|exact Hb']. cbv beta; intros; lia.
    + constructor; [lia|]. eapply Forall_impl; [|exact Hb']. cbv beta; intros; lia.
  - constructor; [lia|]. constructor; [lia|].
    eapply Forall_impl; [|exact Hb']. cbv beta; intros; lia.
Qed.

(** The three shapes of a run. *)
Lemma run_shape :
  (exists msg, run sv = [opening; OpenDocument; Emit (error msg)])
  \/ exists N, page_count sv = Ok N /\ N <> 0
       /\ run sv
          = ([opening; OpenDocument; found_pages N]
             ++ fst (pages_loop sv N (page_range N) "")
             ++ match snd (pages_loop sv N (page_range N) "") with
                | Ok text => [complete; Emit (finished text)]
                | Raise msg => [Emit (error ("OCR Error: " ++ msg))]
                end)%list.
Proof.
  unfold run, run_body, bind, emit, call.
  destruct (page_count sv) as [N|msg]; [|left; eexists; reflexivity].
  destruct (Z.eqb_spec N 0) as [_|Hne]; [left; eexists; reflexivity|].
  right. exists N. split; [reflexivity|]. split; [exact Hne|].
  destruct (pages_loop sv N (page_range N) "") as [t [text|msg]]; cbn [fst snd app].
  - reflexivity.
  - rewrite ?app_nil_r, <- ?app_assoc. reflexivity.
Qed.

End AnyRun.


(** X3: in every run, whatever the document and whatever raises, the
    percentages emitted never decrease, lie between 0 and 100, and begin
    with 0; and 100 is reported only by a run that delivers a text. *)
Theorem progress_never_decreases_in_any_run (sv : Services) :
  StronglySorted Z.le (percents (run sv))
  /\ Forall (fun v => 0 <= v <= 100) (percents (run sv))
  /\ hd_error (percents (run sv)) = Some 0
  /\ (In 100 (percents (run sv)) ->
      exists text, outcome (run sv) = Some (finished text)).
Proof.
  destruct (run_shape sv) as [[msg ->]|(N & HN & Hne & ->)].
  { cbn. split; [|split; [|split]]; [repeat constructor; lia.. | reflexivity |].
    intros [H|[]]. discriminate. }
  destruct (Z.le_gt_cases 1 N) as [Hpos|Hneg].
  - destruct (pages_loop_percents sv N "" Hpos) as [Hs Hb].
    destruct (pages_loop sv N (page_range N) "") as [t [text|msg]];
      cbn [fst snd] in *.
    + rewrite !percents_app.
      change (percents [opening; OpenDocument; found_pages N]) with [0; 5].
      change (percents [complete; Emit (finished text)]) with [100].
      cbn [app].
      destruct (percents_frame (percents t) [100] Hs Hb (or_intror eq_refl)) as [H1 H2].
      split; [|split; [|split]]; try assumption; [reflexivity|].
      intros _. exists text.
      change ([complete; Emit (finished text)])
        with ([complete] ++ [Emit (finished text)])%list.
      rewrite !app_assoc.
      destruct (outcome_last (([opening; OpenDocument; found_pages N] ++ t) ++ [complete])
                  (Emit (finished text)) eq_refl) as (s & Hs' & Ho).
      injection Hs' as <-. exact Ho.
    + rewrite !percents_app.
      change (percents [opening; OpenDocument; found_pages N]) with [0; 5].
      change (percents [Emit (error ("OCR Error: " ++ msg))]) with (@nil Z).
      rewrite app_nil_r. cbn [app].
      destruct (percents_frame (percents t) [] Hs Hb (or_introl eq_refl)) as [H1 H2].
      rewrite app_nil_r in H1, H2.
      split; [|split; [|split]]; try assumption; [reflexivity|].
      intros [H|[H|H]]; try discriminate. exfalso.
      rewrite Forall_forall in Hb. specialize (Hb _ H). lia.
  - assert (Hr : page_range N = []).
    { unfold page_range. now replace (Z.to_nat N) with 0%nat by lia. }
    rewrite Hr. cbn. split; [|split; [|split]]; [repeat constructor; lia.. | reflexivity |].
    intros _. now exists "".
Qed.

(* ===================================================================== *)
(** * Counting: case, bounds, pages, maximality *)
(* ===================================================================== *)

Section Counts.

Lemma count_keywords_records (T : string) (K : dict Z) :
  count_keywords T K
  = map (fun kv => (fst kv, occurrences (fst kv) T, snd kv,
                    occurrences (fst kv) T * snd kv)) K.
Proof.
  induction K as [|[k v] K IH]; [reflexivity|].
  rewrite count_keywords_cons, IH. reflexivity.
Qed.

Lemma lower_char_idem (c : ascii) : lower_char (lower_char c) = lower_char c.
Proof.
  destruct c as [[] [] [] [] [] [] [] []]; reflexivity.
Qed.

Lemma match_at_lower (p : Regex.pattern) :
  forall T T', lower T = lower T' -> Regex.match_at p T = Regex.match_at p T'.
Proof.
  induction p as [|a p IH]; intros T T' H; [reflexivity|].
  destruct T as [|c r], T' as [|c' r']; try discriminate; [reflexivity|].
  simpl in H. injection H as Hc Hr. simpl. now rewrite Hc, (IH r r' Hr).
Qed.

Lemma scan_length_lower (p : Regex.pattern) :
  forall T T' skip,
    lower T = lower T' ->
    List.length (Regex.scan p skip T) = List.length (Regex.scan p skip T').
Proof.
  induction T as [|c r IH]; intros [|c' r'] skip H; try discriminate.
  - reflexivity.
  - pose proof (match_at_lower p _ _ H) as Hm.
    simpl in H. injection H as _ Hr.
    destruct skip as [|skip]; cbn [Regex.scan]; [|now apply IH].
    rewrite Hm. destruct (Regex.match_at p (String c' r'));
      cbn [List.length]; now rewrite (IH r' _ Hr).
Qed.

Lemma match_at_length (p : Regex.pattern) :
  forall T, Regex.match_at p T = true -> (List.length p <= String.length T)%nat.
Proof.
  induction p as [|a p IH]; intros T H; simpl; [lia|].
  destruct T as [|c r]; [discriminate|]. simpl in H.
  apply andb_true_iff in H. destruct H as [_ H]. apply IH in H. simpl. lia.
Qed.

(** The matches found do not overlap, so they fit into the text. *)
Lemma scan_fits (p : Regex.pattern) :
  (1 <= List.length p)%nat ->
  forall T skip,
    (skip <= String.length T)%nat ->
    (List.length (Regex.scan p skip T) * List.length p + skip <= String.length T)%nat.
Proof.
  intros Hp. induction T as [|c r IH]; intros skip Hs.
  - simpl in Hs. assert (skip = 0)%nat as -> by lia. cbn [Regex.scan].
    destruct (Regex.match_at p "") eqn:Hm; [|simpl; lia].
    apply match_at_length in Hm. simpl in Hm. lia.
  - destruct skip as [|skip]; cbn [Regex.scan].
    + destruct (Regex.match_at p (String c r)) eqn:Hm.
      * apply match_at_length in Hm. cbn [String.length] in Hm.
        specialize (IH (Nat.pred (List.length p)) ltac:(lia)).
        cbn [List.length String.length]. nia.
      * specialize (IH 0%nat ltac:(lia)). cbn [String.length]. lia.
    + cbn [String.length] in *. specialize (IH skip ltac:(lia)). lia.
Qed.

Lemma scan_at_most (p : Regex.pattern) :
  forall T skip, (List.length (Regex.scan p skip T) <= S (String.length T))%nat.
Proof.
  induction T as [|c r IH]; intros skip.
  - destruct skip; cbn [Regex.scan]; [|simpl; lia].
    destruct (Regex.match_at p ""); simpl; lia.
  - destruct skip as [|skip]; cbn [Regex.scan].
    + destruct (Regex.match_at p (String c r)); cbn [List.length String.length].
      * specialize (IH (Nat.pred (List.length p))). lia.
      * specialize (IH 0%nat). lia.
    + specialize (IH skip). cbn [String.length]. lia.
Qed.

End Counts.

(** X4: on texts and keywords made of the code points 0..255, the
    characters of this development, on which [str.lower] works character
    by character and [re.IGNORECASE] is equality after lower-casing, the
    counts do not depend on the case of the text or of the keyword: two
    texts that agree once lower-cased give the same records, counting in
    the lower-cased text gives the same records, and two keywords that
    agree once lower-cased get the same count (each keeps its own
    record).  Beyond these code points lower-casing can change the number
    of characters, and the statement is not made. *)
Theorem counts_ignore_case (T : string) :
  (forall T' K, lower T = lower T' -> count_keywords T K = count_keywords T' K)
  /\ (forall k k' v v',
        lower k = lower k' ->
        map count_of (count_keywords T [(k, v); (k', v')])
        = [occurrences k T; occurrences k T])
  /\ (forall K, count_keywords (lower T) K = count_keywords T K).
Proof.
  assert (H1 : forall T' K, lower T = lower T' ->
                            count_keywords T K = count_keywords T' K).
  { intros T' K H. rewrite !count_keywords_records. apply map_ext. intros [k v].
    unfold occurrences, Regex.findall. cbn [fst snd].
    now rewrite (scan_length_lower _ T T' 0%nat H). }
  split; [exact H1|]. split.
  - intros k k' v v' H. rewrite count_keywords_records. cbn [map fst snd count_of].
    unfold occurrences, Regex.compile_escaped. now rewrite H.
  - intros K. symmetry. apply H1. clear. induction T as [|c r IH]; simpl; [reflexivity|].
    now rewrite lower_char_idem, <- IH.
Qed.

(** X5: every count is between 0 and the length of the text plus one,
    the counted occurrences fit into the text side by side, and every
    subtotal is the count times the value; a keyword longer than the text
    is counted zero times. *)
Theorem counts_fit_the_text (T : string) (K : dict Z) :
  Forall (fun r =>
            0 <= count_of r <= Z.of_nat (String.length T) + 1
            /\ count_of r * Z.of_nat (String.length (keyword_of r))
               <= Z.of_nat (String.length T)
            /\ subtotal_of r = count_of r * value_of r)
         (count_keywords T K)
  /\ (forall k v, (String.length T < String.length k)%nat ->
                  count_keywords T [(k, v)] = [(k, 0, v, 0)]).
Proof.
  assert (Hfit : forall k, occurrences k T * Z.of_nat (String.length k)
                           <= Z.of_nat (String.length T)).
  { intros k. unfold occurrences, Regex.findall.
    destruct (String.length k) as [|n] eqn:Hk; [lia|].
    pose proof (scan_fits (Regex.compile_escaped k)
                  ltac:(rewrite compile_escaped_length; lia) T 0%nat ltac:(lia)) as H.
    rewrite compile_escaped_length, Hk in H. nia. }
  split.
  - rewrite count_keywords_records, Forall_map, Forall_forall.
    intros [k v] _. cbn [fst snd count_of keyword_of subtotal_of value_of].
    split; [|split; [apply Hfit | reflexivity]].
    unfold occurrences, Regex.findall.
    pose proof (scan_at_most (Regex.compile_escaped k) T 0%nat). lia.
  - intros k v Hlt. rewrite count_keywords_records. cbn [map fst snd].
    assert (H0 : occurrences k T = 0).
    { specialize (Hfit k). unfold occurrences in *. nia. }
    now rewrite H0.
Qed.

Section Lines.

Variable p : Regex.pattern.
Hypothesis Hp : (1 <= List.length p)%nat.
Hypothesis Hnl : ~ In (chr 10) p.

Lemma match_at_line (q : Regex.pattern) :
  ~ In (chr 10) q ->
  forall s T, Regex.match_at q (s ++ String (chr 10) T) = Regex.match_at q s.
Proof.
  induction q as [|a q IH]; intros Hq s T; [reflexivity|].
  destruct s as [|c r]; cbn [String.append Regex.match_at].
  - destruct (Ascii.eqb_spec (lower_char (chr 10)) a) as [E|_]; [|reflexivity].
    exfalso. apply Hq. left. now rewrite <- E.
  - rewrite IH; [reflexivity|]. intros Hin. apply Hq. now right.
Qed.

Lemma scan_line :
  forall s T skip,
    (skip <= String.length s)%nat ->
    List.length (Regex.scan p skip (s ++ String (chr 10) T))
    = (List.length (Regex.scan p skip s) + List.length (Regex.scan p 0 T))%nat.
Proof using Hp Hnl.
  induction s as [|c r IH]; intros T skip Hs.
  - simpl in Hs. assert (skip = 0)%nat as -> by lia.
    change ("" ++ String (chr 10) T) with (String (chr 10) T).
    cbn [Regex.scan].
    pose proof (match_at_line p Hnl "" T) as Hm.
    change ("" ++ String (chr 10) T) with (String (chr 10) T) in Hm. rewrite Hm.
    destruct (Regex.match_at p "") eqn:E; [|reflexivity].
    apply match_at_length in E. simpl in E. lia.
  - change (String c r ++ String (chr 10) T) with (String c (r ++ String (chr 10) T)).
    destruct skip as [|skip]; cbn [Regex.scan].
    + pose proof (match_at_line p Hnl (String c r) T) as Hm.
      change (String c r ++ String (chr 10) T)
        with (String c (r ++ String (chr 10) T)) in Hm. rewrite Hm.
      destruct (Regex.match_at p (String c r)) eqn:E.
      * apply match_at_length in E. cbn [String.length] in E.
        cbn [List.length]. rewrite IH by lia. reflexivity.
      * apply IH. lia.
    + apply IH. cbn [String.length] in Hs. lia.
Qed.

End Lines.

Lemma compile_escaped_line (k : string) :
  single_line k -> ~ In (chr 10) (Regex.compile_escaped k).
Proof.
  unfold single_line, Regex.compile_escaped.
  induction k as [|c k IH]; intros H; simpl; [tauto|].
  intros [Hc|Hin].
  - apply H. left.
    destruct c as [[] [] [] [] [] [] [] []]; try discriminate Hc; reflexivity.
  - apply IH; [|exact Hin]. intros Hk. apply H. now right.
Qed.

Lemma occurrences_line (k s T : string) :
  k <> "" -> single_line k ->
  occurrences k ((s ++ newline) ++ T) = occurrences k s + occurrences k T.
Proof.
  intros Hk Hl. unfold occurrences, Regex.findall, newline.
  rewrite str_app_assoc. cbn [String.append].
  rewrite (scan_line (Regex.compile_escaped k)); [lia | | | lia].
  - rewrite compile_escaped_length. destruct k; [congruence | simpl; lia].
  - now apply compile_escaped_line.
Qed.

Lemma occurrences_empty_text (k : string) : k <> "" -> occurrences k "" = 0.
Proof.
  intros Hk. destruct k as [|c k]; [congruence|]. reflexivity.
Qed.

Lemma occurrences_page_text (sv : Services) (k : string) (p : Z) (T : string) :
  k <> "" -> single_line k ->
  occurrences k (page_text sv p ++ T) = occurrences k (page_text sv p) + occurrences k T.
Proof.
  intros Hk Hl. unfold page_text.
  destruct (convert_from_path sv p) as [[|image images]|msg];
    try (cbn [String.append]; rewrite occurrences_empty_text by exact Hk; lia).
  destruct (image_to_string sv image) as [s|msg];
    try (cbn [String.append]; rewrite occurrences_empty_text by exact Hk; lia).
  rewrite occurrences_line by assumption.
  pose proof (occurrences_line k s "" Hk Hl) as H.
  rewrite string_app_nil_r, occurrences_empty_text in H by exact Hk. lia.
Qed.

(** X6: for keywords that are not empty and hold no line feed, the count
    in the text that a successful run delivers is the sum of the counts in
    the pages: no occurrence is found across a page break and none is
    lost. *)
Theorem counts_add_up_over_pages (sv : Services) (N : Z) (K : dict Z) :
  (forall k, In k (map fst K) -> k <> "" /\ single_line k) ->
  count_keywords (document_text sv N) K
  = map (fun kv =>
           let count := fold_right Z.add 0
                          (map (fun p => occurrences (fst kv) (page_text sv p))
                               (page_range N)) in
           (fst kv, count, snd kv, count * snd kv)) K.
Proof.
  intros HK. rewrite count_keywords_records. apply map_ext_in.
  intros [k v] Hin. cbn [fst snd]. cbv zeta.
  destruct (HK k) as [Hk Hl]; [apply in_map_iff; now exists (k, v)|].
  assert (H : occurrences k (document_text sv N)
              = fold_right Z.add 0
                  (map (fun p => occurrences k (page_text sv p)) (page_range N))).
  { unfold document_text. induction (page_range N) as [|p pages IH].
    - now apply occurrences_empty_text.
    - change (map (page_text sv) (p :: pages))
        with ([page_text sv p] ++ map (page_text sv) pages)%list.
      rewrite string_concat_app. cbn [String.concat map fold_right].
      rewrite occurrences_page_text by assumption. now rewrite IH. }
  now rewrite H.
Qed.

Lemma counts_add_up_three_pages :
  count_keywords (document_text three_pages 3) [("page", 2)] = [("page", 2, 2, 4)].
Proof.
  rewrite (counts_add_up_over_pages three_pages 3 [("page", 2)]).
  - reflexivity.
  - intros k [<-|[]]. split; [discriminate|].
    unfold single_line. cbn. intros [H|[H|[H|[H|[]]]]]; discriminate.
Defined.

Section Maximal.

Variable k : string.
Hypothesis Hk : k <> "".

Lemma occurs_at_cons (c : ascii) (r : string) (q : nat) :
  occurs_at k (String c r) (S q) <-> occurs_at k r q.
Proof.
  split.
  - intros (pre & m & post & E & Hl & Hm).
    destruct pre as [|c' pre]; [discriminate|]. simpl in E, Hl.
    injection E as -> ->. injection Hl as Hl. now exists pre, m, post.
  - intros (pre & m & post & -> & <- & Hm). now exists (String c pre), m, post.
Qed.

Lemma disjoint_weaken (T : string) (lo lo' : nat) (Q : list nat) :
  (lo' <= lo)%nat -> disjoint_occurrences k T lo Q -> disjoint_occurrences k T lo' Q.
Proof.
  intros Hle. destruct Q as [|q Q]; [trivial|].
  cbn [disjoint_occurrences]. intros (H1 & H2 & H3). split; [lia | tauto].
Qed.

Lemma disjoint_shift (c : ascii) (r : string) (Q : list nat) :
  forall lo,
    disjoint_occurrences k (String c r) (S lo) Q ->
    exists Q', List.length Q' = List.length Q /\ disjoint_occurrences k r lo Q'.
Proof using Type.
  induction Q as [|q Q IH]; intros lo H.
  - now exists [].
  - cbn [disjoint_occurrences] in H. destruct H as (Hlo & Ho & H).
    destruct q as [|q]; [lia|]. apply occurs_at_cons in Ho.
    change (S q + String.length k)%nat with (S (q + String.length k)) in H.
    destruct (IH _ H) as (Q' & Hlen & HQ').
    exists (q :: Q'). cbn [List.length disjoint_occurrences].
    split; [now rewrite Hlen|]. split; [lia|]. split; assumption.
Qed.

Lemma scan_is_maximal :
  forall T skip Q,
    disjoint_occurrences k T skip Q ->
    (List.length Q <= List.length (Regex.scan (Regex.compile_escaped k) skip T))%nat.
Proof using Hk.
  assert (Hlen : (1 <= String.length k)%nat).
  { destruct k; [congruence | simpl; lia]. }
  induction T as [|c r IH]; intros skip Q H.
  - destruct Q as [|q Q]; [simpl; lia|].
    cbn [disjoint_occurrences] in H. destruct H as (_ & Ho & _).
    apply occurs_at_bound in Ho. simpl in Ho. lia.
  - destruct skip as [|skip]; cbn [Regex.scan].
    + destruct (Regex.match_at (Regex.compile_escaped k) (String c r)) eqn:Hm.
      * destruct Q as [|q Q]; [simpl; lia|].
        cbn [disjoint_occurrences] in H. destruct H as (_ & _ & H).
        apply (disjoint_weaken _ _ (S (Nat.pred (String.length k)))) in H; [|lia].
        destruct (disjoint_shift _ _ _ _ H) as (Q' & HQ & HQ').
        apply IH in HQ'. rewrite compile_escaped_length.
        cbn [List.length]. lia.
      * assert (H1 : disjoint_occurrences k (String c r) 1 Q).
        { destruct Q as [|q Q]; [exact I|].
          cbn [disjoint_occurrences] in *. destruct H as (_ & Ho & H).
          split; [|tauto]. destruct q as [|q]; [|lia].
          apply (occurs_at_here k "" (String c r)) in Ho. congruence. }
        destruct (disjoint_shift _ _ _ _ H1) as (Q' & HQ & HQ').
        apply IH in HQ'. lia.
    + destruct (disjoint_shift _ _ _ _ H) as (Q' & HQ & HQ').
      apply IH in HQ'. lia.
Qed.

(** The offsets found by the search loop are such a choice. *)
Lemma scan_offsets_disjoint :
  forall text pre skip,
    (skip <= String.length text)%nat ->
    disjoint_occurrences k (pre ++ text) (String.length pre + skip)
      (Regex.scan_offsets (Regex.compile_escaped k) skip (String.length pre) text).
Proof using Hk.
  assert (Hlen : (1 <= String.length k)%nat).
  { destruct k; [congruence | simpl; lia]. }
  induction text as [|c r IH]; intros pre skip Hs.
  - simpl in Hs. assert (skip = 0)%nat as -> by lia. cbn [Regex.scan_offsets].
    destruct (Regex.match_at (Regex.compile_escaped k) "") eqn:Hm; [|exact I].
    apply match_at_length in Hm. rewrite compile_escaped_length in Hm. simpl in Hm. lia.
  - destruct (snoc_char pre c r) as [E1 E2].
    destruct skip as [|skip]; cbn [Regex.scan_offsets].
    + destruct (Regex.match_at (Regex.compile_escaped k) (String c r)) eqn:Hm.
      * cbn [disjoint_occurrences]. split; [lia|].
        split; [now apply occurs_at_here|].
        pose proof Hm as Hm'. apply match_at_length in Hm'.
        rewrite compile_escaped_length in Hm'. cbn [String.length] in Hm'.
        specialize (IH (pre ++ String c "") (Nat.pred (String.length k)) ltac:(lia)).
        rewrite E1, E2, compile_escaped_length in *.
        replace (String.length pre + String.length k)%nat
          with (S (String.length pre) + Nat.pred (String.length k))%nat by lia.
        exact IH.
      * specialize (IH (pre ++ String c "") 0%nat ltac:(lia)).
        rewrite E1, E2 in IH. eapply disjoint_weaken; [|exact IH]. lia.
    + cbn [String.length] in Hs.
      specialize (IH (pre ++ String c "") skip ltac:(lia)).
      rewrite E1, E2 in IH.
      replace (String.length pre + S skip)%nat
        with (S (String.length pre) + skip)%nat by lia.
      exact IH.
Qed.

End Maximal.

(** X7: for a keyword that is not empty, the count is the largest number
    of occurrences that can be chosen in the text without overlap: some
    choice has that many, and no choice has more. *)
Theorem count_is_the_most_possible (k T : string) (v : Z) :
  k <> "" ->
  exists c,
    count_keywords T [(k, v)] = [(k, Z.of_nat c, v, Z.of_nat c * v)]
    /\ (exists Q, disjoint_occurrences k T 0 Q /\ List.length Q = c)
    /\ (forall Q, disjoint_occurrences k T 0 Q -> (List.length Q <= c)%nat).
Proof.
  intros Hk.
  exists (List.length (Regex.findall (Regex.compile_escaped k) T)).
  split; [now rewrite count_keywords_cons|]. split.
  - exists (Regex.scan_offsets (Regex.compile_escaped k) 0 0 T).
    split; [|unfold Regex.findall; apply scan_offsets_length].
    exact (scan_offsets_disjoint k Hk T "" 0%nat ltac:(lia)).
  - intros Q HQ. now apply scan_is_maximal.
Qed.

Lemma count_is_the_most_possible_in_aaa :
  "aa" <> ""
  /\ exists c,
       count_keywords "aaa" [("aa", 1)] = [("aa", Z.of_nat c, 1, Z.of_nat c * 1)]
       /\ (exists Q, disjoint_occurrences "aa" "aaa" 0 Q /\ List.length Q = c)
       /\ (forall Q, disjoint_occurrences "aa" "aaa" 0 Q -> (List.length Q <= c)%nat).
Proof.
  split; [discriminate|].
  apply (count_is_the_most_possible "aa" "aaa" 1). discriminate.
Defined.

(** A keyword that holds a line feed can be found across a page break:
    the pages "a" and "b" hold it nowhere, the text of the document holds
    it once. *)
Example keyword_with_a_line_feed_spans_pages :
  occurrences ("a" ++ newline ++ "b") (("a" ++ newline) ++ ("b" ++ newline)) = 1
  /\ occurrences ("a" ++ newline ++ "b") "a" + occurrences ("a" ++ newline ++ "b") "b" = 0.
Proof. split; vm_compute; reflexivity. Qed.

(* ===================================================================== *)
(** * The [csv] module: what is written is read back *)
(* ===================================================================== *)

Section CsvFacts.

Import Csv.

Lemma read_records_cons_char (r : Reader) (c : ascii) (l : string) (ls : list string) :
  read_records r (String c l :: ls)
  = match parse_process_char r (Some c) with
    | Raise e => Raise e
    | Ok r1 => read_records r1 (l :: ls)
    end.
Proof.
  cbn [read_records process_line].
  now destruct (parse_process_char r (Some c)).
Qed.

(** The loop over the characters reads what the loop over the lines
    reads. *)
Lemma read_chars_lines (text : string) :
  forall r,
    read_chars r false text = read_records r (readlines text)
    /\ read_chars r true text
       = read_records r (match readlines text with
                         | [] => [EmptyString]
                         | ls => ls
                         end).
Proof.
  induction text as [|c rest IH]; intros r; [split; reflexivity|].
  assert (H : forall b,
             read_chars r b (String c rest)
             = read_records r (readlines (String c rest))).
  { intros b. cbn [read_chars readlines].
    destruct (Ascii.eqb c LF) eqn:Ec.
    - apply Ascii.eqb_eq in Ec. subst c. rewrite read_records_cons_char.
      destruct (parse_process_char r (Some LF)) as [r1|e]; [|reflexivity].
      cbn [read_records process_line].
      destruct (parse_process_char r1 None) as [r2|e]; [|reflexivity].
      destruct (IH reset) as [IH0 _]. destruct (IH r2) as [IH2 _].
      rewrite IH0, IH2. reflexivity.
    - destruct (parse_process_char r (Some c)) as [r1|e] eqn:E1.
      + destruct (IH r1) as [_ IH1]. rewrite IH1.
        destruct (readlines rest) as [|l ls];
          rewrite read_records_cons_char, E1; reflexivity.
      + destruct (readlines rest) as [|l ls];
          rewrite read_records_cons_char, E1; reflexivity. }
  split; [apply H|]. rewrite H.
  cbn [readlines]. destruct (Ascii.eqb c LF); [reflexivity|].
  now destruct (readlines rest).
Qed.

Lemma reader_read_chars (text : string) :
  reader text = read_chars reset false (universal_newlines text).
Proof. unfold reader. now destruct (read_chars_lines (universal_newlines text) reset). Qed.

(** The flag matters at the end of the text only. *)
Lemma read_chars_flag (r : Reader) (b b' : bool) (c : ascii) (rest : string) :
  read_chars r b (String c rest) = read_chars r b' (String c rest).
Proof. reflexivity. Qed.

Lemma is_special_false (c : ascii) :
  is_special c = false ->
  Ascii.eqb c delimiter = false /\ Ascii.eqb c quotechar = false
  /\ is_newline c = false /\ Ascii.eqb c LF = false.
Proof.
  unfold is_special, is_newline. intros H.
  repeat (apply orb_false_iff in H; destruct H as [H ?]).
  repeat split; try assumption. apply orb_false_iff. now split.
Qed.

Lemma read_chars_step (r r1 : Reader) (b : bool) (c : ascii) (rest : string) :
  parse_process_char r (Some c) = Ok r1 -> Ascii.eqb c LF = false ->
  read_chars r b (String c rest) = read_chars r1 true rest.
Proof. intros H1 Hc. cbn [read_chars]. now rewrite H1, Hc. Qed.

Lemma read_chars_step_lf (r r1 r2 : Reader) (b : bool) (rest : string) :
  parse_process_char r (Some LF) = Ok r1 -> parse_process_char r1 None = Ok r2 ->
  read_chars r b (String LF rest)
  = match state r2 with
    | START_RECORD =>
        match read_chars reset false rest with
        | Ok records => Ok (fields r2 :: records)
        | Raise e => Raise e
        end
    | _ => read_chars r2 false rest
    end.
Proof. intros H1 H2. cbn [read_chars]. now rewrite H1, H2. Qed.

Lemma room (acc s : string) (c : ascii) :
  Z.of_nat (String.length acc + String.length (String c s)) <= field_limit ->
  (field_limit <=? Z.of_nat (String.length acc)) = false
  /\ (forall t, (acc ++ String c "") ++ t = acc ++ String c t)
  /\ Z.of_nat (String.length (acc ++ String c "") + String.length s) <= field_limit.
Proof.
  cbn [String.length]. intros H. split; [apply Z.leb_gt; lia|]. split.
  - intros t. now rewrite str_app_assoc.
  - rewrite str_app_length. cbn [String.length]. lia.
Qed.

(** The characters of an unquoted field. *)
Lemma in_field_chars (s : string) :
  forall fs acc b b' t rest,
    has_special s = false ->
    Z.of_nat (String.length acc + String.length s) <= field_limit ->
    read_chars {| state := IN_FIELD; fields := fs; field := acc |} b
      (s ++ String t rest)
    = read_chars {| state := IN_FIELD; fields := fs; field := acc ++ s |} b'
        (String t rest).
Proof.
  induction s as [|c s IH]; intros fs acc b b' t rest Hs Hl.
  - now rewrite string_app_nil_r.
  - cbn [has_special] in Hs. apply orb_false_iff in Hs. destruct Hs as [Hc Hs].
    destruct (is_special_false c Hc) as (Hd & Hq & Hn & Hlf).
    destruct (room acc s c Hl) as (Hroom & Happ & Hl').
    cbn [String.append].
    rewrite (read_chars_step _ {| state := IN_FIELD; fields := fs;
                                  field := acc ++ String c "" |} b c _);
      [|unfold parse_process_char, parse_add_char; cbn [state fields field];
        now rewrite Hn, Hd, Hroom | exact Hlf].
    rewrite (IH fs _ true b' t rest Hs Hl'). now rewrite Happ.
Qed.

(** The characters of a quoted field, up to its closing quote. *)
Lemma quoted_chars (s : string) :
  forall fs acc b b' t rest,
    Z.of_nat (String.length acc + String.length s) <= field_limit ->
    read_chars {| state := IN_QUOTED_FIELD; fields := fs; field := acc |} b
      (doubled s ++ String quotechar (String t rest))
    = read_chars {| state := QUOTE_IN_QUOTED_FIELD; fields := fs; field := acc ++ s |} b'
        (String t rest).
Proof.
  induction s as [|c s IH]; intros fs acc b b' t rest Hl.
  - rewrite string_app_nil_r. reflexivity.
  - destruct (room acc s c Hl) as (Hroom & Happ & Hl').
    cbn [doubled]. destruct (Ascii.eqb c quotechar) eqn:Eq.
    + apply Ascii.eqb_eq in Eq. subst c. cbn [String.append].
      rewrite (read_chars_step _ {| state := QUOTE_IN_QUOTED_FIELD; fields := fs;
                                    field := acc |} b quotechar _);
        [|reflexivity..].
      rewrite (read_chars_step _ {| state := IN_QUOTED_FIELD; fields := fs;
                                    field := acc ++ String quotechar "" |}
                 true quotechar _);
        [|unfold parse_process_char, parse_add_char; cbn [state fields field];
          change (Ascii.eqb quotechar quotechar) with true; cbv iota;
          now rewrite Hroom | reflexivity].
      rewrite (IH fs _ true b' t rest Hl'). now rewrite Happ.
    + assert (Hstep : parse_process_char
                        {| state := IN_QUOTED_FIELD; fields := fs; field := acc |}
                        (Some c)
                      = Ok {| state := IN_QUOTED_FIELD; fields := fs;
                              field := acc ++ String c "" |}).
      { unfold parse_process_char, parse_add_char. cbn [state fields field].
        now rewrite Eq, Hroom. }
      cbn [String.append]. destruct (Ascii.eqb c LF) eqn:Elf.
      * apply Ascii.eqb_eq in Elf. subst c.
        rewrite (read_chars_step_lf _ _ _ b _ Hstep eq_refl). cbn [state].
        rewrite (IH fs _ false b' t rest Hl'). now rewrite Happ.
      * rewrite (read_chars_step _ _ b c _ Hstep Elf).
        rewrite (IH fs _ true b' t rest Hl'). now rewrite Happ.
Qed.

End CsvFacts.

Section CsvRoundTrip.

Import Csv.

Lemma start_step (s : ParserState) (fs : list string) (c : ascii) :
  s = START_FIELD \/ s = START_RECORD ->
  is_newline c = false ->
  parse_process_char {| state := s; fields := fs; field := "" |} (Some c)
  = start_field {| state := START_FIELD; fields := fs; field := "" |} (Some c).
Proof.
  intros [->| ->] Hn; unfold parse_process_char; cbn [state]; [reflexivity|].
  now rewrite Hn.
Qed.

Lemma quoted_open (s : ParserState) (fs : list string) (b : bool) (text : string) :
  s = START_FIELD \/ s = START_RECORD ->
  read_chars {| state := s; fields := fs; field := "" |} b (String quotechar text)
  = read_chars {| state := IN_QUOTED_FIELD; fields := fs; field := "" |} true text.
Proof.
  intros Hs. apply read_chars_step; [|reflexivity].
  now rewrite (start_step s fs quotechar Hs eq_refl).
Qed.

Lemma unquoted_open (s : ParserState) (fs : list string) (b : bool)
    (c : ascii) (text : string) :
  s = START_FIELD \/ s = START_RECORD ->
  is_special c = false ->
  read_chars {| state := s; fields := fs; field := "" |} b (String c text)
  = read_chars {| state := IN_FIELD; fields := fs; field := String c "" |} true text.
Proof.
  intros Hs Hc. destruct (is_special_false c Hc) as (Hd & Hq & Hn & Hlf).
  apply read_chars_step; [|exact Hlf].
  rewrite (start_step s fs c Hs Hn). unfold start_field. now rewrite Hn, Hq, Hd.
Qed.

Lemma emit_record (r : Reader) (b : bool) (rest : string) :
  state r = IN_FIELD \/ state r = QUOTE_IN_QUOTED_FIELD \/ state r = START_FIELD ->
  read_chars r b (String LF rest)
  = match read_chars reset false rest with
    | Ok records => Ok ((fields r ++ [field r])%list :: records)
    | Raise e => Raise e
    end.
Proof.
  intros Hs.
  rewrite (read_chars_step_lf r (set_state EAT_CRNL (parse_save_field r))
             (set_state START_RECORD (set_state EAT_CRNL (parse_save_field r))) b rest).
  - reflexivity.
  - unfold parse_process_char. destruct Hs as [-> | [-> | ->]]; reflexivity.
  - reflexivity.
Qed.

Lemma save_on_delimiter (r : Reader) (b : bool) (rest : string) :
  state r = IN_FIELD \/ state r = QUOTE_IN_QUOTED_FIELD ->
  read_chars r b (String delimiter rest)
  = read_chars {| state := START_FIELD; fields := (fields r ++ [field r])%list;
                  field := "" |} true rest.
Proof.
  intros Hs. apply read_chars_step; [|reflexivity].
  unfold parse_process_char. destruct Hs as [-> | ->]; reflexivity.
Qed.

Lemma join_append_quoted (f t : string) :
  has_special f = true ->
  join_append f ++ t = String quotechar (doubled f ++ String quotechar t).
Proof.
  intros H. unfold join_append. rewrite H. cbn [String.append].
  now rewrite str_app_assoc.
Qed.

(** A field followed by the delimiter. *)
Lemma field_then_delimiter (f : string) (s : ParserState) (fs : list string)
    (b : bool) (rest : string) :
  s = START_FIELD \/ s = START_RECORD ->
  Z.of_nat (String.length f) <= field_limit ->
  read_chars {| state := s; fields := fs; field := "" |} b
    (join_append f ++ String delimiter rest)
  = read_chars {| state := START_FIELD; fields := (fs ++ [f])%list; field := "" |}
      true rest.
Proof.
  intros Hs Hl. destruct (has_special f) eqn:Hsp.
  - rewrite (join_append_quoted f _ Hsp), (quoted_open s fs b _ Hs).
    rewrite (quoted_chars f fs "" true true delimiter rest Hl).
    now rewrite save_on_delimiter by (right; reflexivity).
  - unfold join_append. rewrite Hsp. destruct f as [|c f].
    + cbn [String.append]. apply read_chars_step; [|reflexivity].
      now rewrite (start_step s fs delimiter Hs eq_refl).
    + cbn [has_special] in Hsp. apply orb_false_iff in Hsp. destruct Hsp as [Hc Hf].
      cbn [String.append]. rewrite (unquoted_open s fs b c _ Hs Hc).
      rewrite (in_field_chars f fs (String c "") true true delimiter rest Hf)
        by (cbn [String.length] in *; lia).
      now rewrite save_on_delimiter by (left; reflexivity).
Qed.

(** The last field of a record, followed by the end of the line. *)
Lemma field_then_line_end (f : string) (s : ParserState) (fs : list string)
    (b : bool) (rest : string) :
  s = START_FIELD \/ (s = START_RECORD /\ join_append f <> "") ->
  Z.of_nat (String.length f) <= field_limit ->
  read_chars {| state := s; fields := fs; field := "" |} b
    (join_append f ++ String LF rest)
  = match read_chars reset false rest with
    | Ok records => Ok ((fs ++ [f])%list :: records)
    | Raise e => Raise e
    end.
Proof.
  intros Hs Hl.
  assert (Hs' : s = START_FIELD \/ s = START_RECORD) by tauto.
  destruct (has_special f) eqn:Hsp.
  - rewrite (join_append_quoted f _ Hsp), (quoted_open s fs b _ Hs').
    rewrite (quoted_chars f fs "" true true LF rest Hl).
    now rewrite emit_record by (right; left; reflexivity).
  - unfold join_append in *. rewrite Hsp in *. destruct f as [|c f].
    + destruct Hs as [->|[_ Hne]]; [|congruence].
      cbn [String.append]. now rewrite emit_record by (right; right; reflexivity).
    + cbn [has_special] in Hsp. apply orb_false_iff in Hsp. destruct Hsp as [Hc Hf].
      cbn [String.append]. rewrite (unquoted_open s fs b c _ Hs' Hc).
      rewrite (in_field_chars f fs (String c "") true true LF rest Hf)
        by (cbn [String.length] in *; lia).
      now rewrite emit_record by (left; reflexivity).
Qed.

Lemma join_cons (f g : string) (fs : list string) :
  join (f :: g :: fs) = join_append f ++ String delimiter (join (g :: fs)).
Proof. reflexivity. Qed.

Lemma join_nonempty (f g : string) (fs : list string) : join (f :: g :: fs) <> "".
Proof. rewrite join_cons. destruct (join_append f); discriminate. Qed.

(** The fields of a record, up to the end of its line. *)
Lemma record_fields (fs : list string) :
  forall f done s b rest,
    s = START_FIELD \/ (s = START_RECORD /\ join (f :: fs) <> "") ->
    Forall (fun x => Z.of_nat (String.length x) <= field_limit) (f :: fs) ->
    read_chars {| state := s; fields := done; field := "" |} b
      (join (f :: fs) ++ String LF rest)
    = match read_chars reset false rest with
      | Ok records => Ok ((done ++ f :: fs)%list :: records)
      | Raise e => Raise e
      end.
Proof.
  induction fs as [|g fs IH]; intros f done s b rest Hs Hl;
    inversion Hl as [|? ? Hf Hfs]; subst.
  - cbn [join]. now apply field_then_line_end.
  - rewrite join_cons, str_app_assoc. cbn [String.append].
    rewrite field_then_delimiter by (tauto || assumption).
    rewrite (IH g (done ++ [f])%list START_FIELD true rest (or_introl eq_refl) Hfs).
    now rewrite <- app_assoc.
Qed.

(** One written record is read back, and the reader starts afresh. *)
Lemma record_read_back (fs : list string) (b : bool) (rest : string) :
  Forall (fun x => Z.of_nat (String.length x) <= field_limit) fs ->
  read_chars reset b (record_text fs ++ String LF rest)
  = match read_chars reset false rest with
    | Ok records => Ok (fs :: records)
    | Raise e => Raise e
    end.
Proof.
  intros Hl. destruct fs as [|f fs].
  - cbn [record_text join String.append].
    now rewrite (read_chars_step_lf reset (set_state EAT_CRNL reset)
                   (set_state START_RECORD (set_state EAT_CRNL reset)) b rest).
  - unfold record_text. destruct (join (f :: fs)) as [|c rec] eqn:Ej.
    + destruct fs as [|g fs]; [|now destruct (join_nonempty f g fs)].
      cbn [join] in Ej. unfold join_append in Ej.
      destruct (has_special f); [discriminate|]. subst f. reflexivity.
    + rewrite <- Ej.
      apply (record_fields fs f [] START_RECORD b rest); [|exact Hl].
      right. split; [reflexivity|]. now rewrite Ej.
Qed.

Lemma universal_newlines_terminator (a b : string) :
  no_carriage_return a ->
  universal_newlines (a ++ String CR (String LF b))
  = a ++ String LF (universal_newlines b).
Proof.
  unfold no_carriage_return. induction a as [|c a IH]; intros H.
  - reflexivity.
  - cbn [String.append universal_newlines].
    destruct (Ascii.eqb_spec c CR) as [->|_]; [exfalso; apply H; now left|].
    rewrite IH; [reflexivity|]. intros Hin. apply H. now right.
Qed.

Lemma no_carriage_return_app (a b : string) :
  no_carriage_return (a ++ b) <-> no_carriage_return a /\ no_carriage_return b.
Proof.
  unfold no_carriage_return. induction a as [|c a IH]; simpl; [tauto|]. tauto.
Qed.

Lemma doubled_no_carriage_return (s : string) :
  no_carriage_return s -> no_carriage_return (doubled s).
Proof.
  unfold no_carriage_return. induction s as [|c s IH]; simpl; [tauto|].
  intros H. destruct (Ascii.eqb_spec c quotechar) as [->|_]; simpl.
  - intros [E|[E|Hin]]; try discriminate. apply IH; tauto.
  - intros [E|Hin]; [tauto | apply IH; tauto].
Qed.

Lemma join_append_no_carriage_return (f : string) :
  no_carriage_return f -> no_carriage_return (join_append f).
Proof.
  intros H. unfold join_append. destruct (has_special f); [|exact H].
  change (String quotechar (doubled f ++ String quotechar ""))
    with (String quotechar "" ++ doubled f ++ String quotechar "").
  rewrite !no_carriage_return_app. split; [|split].
  - intros [E|[]]. discriminate.
  - now apply doubled_no_carriage_return.
  - intros [E|[]]. discriminate.
Qed.

Lemma record_no_carriage_return (fs : list string) :
  Forall no_carriage_return fs -> no_carriage_return (record_text fs).
Proof.
  intros H.
  assert (Hj : no_carriage_return (join fs)).
  { induction H as [|f fs Hf Hfs IH]; [intros []|].
    destruct fs as [|g fs]; [now apply join_append_no_carriage_return|].
    rewrite join_cons.
    change (String delimiter (join (g :: fs)))
      with (String delimiter "" ++ join (g :: fs)).
    rewrite !no_carriage_return_app. split; [|split].
    - now apply join_append_no_carriage_return.
    - intros [E|[]]. discriminate.
    - exact IH. }
  unfold record_text. destruct fs as [|f fs]; [exact Hj|].
  destruct (join (f :: fs)); [|exact Hj].
  intros [E|[E|[]]]; discriminate.
Qed.

Lemma string_concat_cons (x : string) (l : list string) :
  String.concat "" (x :: l) = x ++ String.concat "" l.
Proof.
  change (x :: l) with ([x] ++ l)%list. now rewrite string_concat_app.
Qed.

Lemma writerows_read_back (rows : list (list string)) :
  Forall (Forall plain_field) rows ->
  reader (writerows rows) = Ok rows.
Proof.
  intros H. rewrite reader_read_chars. unfold writerows.
  induction H as [|fs rows Hfs _ IH]; [reflexivity|].
  cbn [map]. rewrite string_concat_cons. unfold writerow at 1.
  rewrite str_app_assoc. cbn [String.append].
  rewrite universal_newlines_terminator.
  - rewrite record_read_back, IH; [reflexivity|].
    eapply Forall_impl; [|exact Hfs]. now intros f (_ & _ & Hf).
  - apply record_no_carriage_return.
    eapply Forall_impl; [|exact Hfs]. now intros f [Hf _].
Qed.

End CsvRoundTrip.

Section AsCPython.

Let q : string := String Csv.quotechar "".
Let cr : string := String Csv.CR "".
Let lf : string := String Csv.LF "".

(** Texts as CPython's reader reads them from a file opened in text
    mode. *)
Example reader_values :
  Csv.reader ("a,b" ++ cr ++ lf ++ "c,d") = Ok [["a"; "b"]; ["c"; "d"]]
  /\ Csv.reader (q ++ "x" ++ q ++ q ++ "y" ++ q ++ ",z" ++ lf)
     = Ok [["x" ++ q ++ "y"; "z"]]
  /\ Csv.reader ("a" ++ lf ++ lf ++ "b" ++ lf) = Ok [["a"]; []; ["b"]]
  /\ Csv.reader (q ++ "open," ++ lf ++ "still open")
     = Ok [["open," ++ lf ++ "still open"]]
  /\ Csv.reader ("ab" ++ q ++ "c," ++ q ++ "d" ++ q ++ "e" ++ lf)
     = Ok [["ab" ++ q ++ "c"; "de"]].
Proof. repeat split; vm_compute; reflexivity. Qed.

(** Rows as CPython's writer writes them. *)
Example writer_values :
  Csv.writerows [["a,b"; "c"]; [""]; []; ["say " ++ q ++ "hi" ++ q; " x "]]
  = q ++ "a,b" ++ q ++ ",c" ++ cr ++ lf
    ++ q ++ q ++ cr ++ lf
    ++ cr ++ lf
    ++ q ++ "say " ++ q ++ q ++ "hi" ++ q ++ q ++ q ++ ", x " ++ cr ++ lf.
Proof. vm_compute. reflexivity. Qed.

(** A carriage return inside a field is written as it is and read back
    as a line feed. *)
Example carriage_return_is_not_kept :
  Csv.reader (Csv.writerows [["a" ++ cr ++ "b"; "1"]]) = Ok [["a" ++ lf ++ "b"; "1"]].
Proof. vm_compute. reflexivity. Qed.

End AsCPython.

(* ===================================================================== *)
(** * The keywords file: saving, loading, auto-save *)
(* ===================================================================== *)

Section Strip.

Lemma lstrip_cases (s : string) :
  lstrip s = "" \/ exists c r, lstrip s = String c r /\ is_space c = false.
Proof.
  induction s as [|c s IH]; [now left|]. cbn [lstrip].
  destruct (is_space c) eqn:E; [exact IH|]. right. now exists c, s.
Qed.

Lemma lstrip_fixed (c : ascii) (r : string) :
  is_space c = false -> lstrip (String c r) = String c r.
Proof. intros H. cbn [lstrip]. now rewrite H. Qed.

Lemma rstrip_head (c : ascii) (r : string) :
  is_space c = false -> exists r', rstrip (String c r) = String c r'.
Proof.
  intros H. cbn [rstrip]. destruct (rstrip r); rewrite ?H; eauto.
Qed.

Lemma rstrip_idem (s : string) : rstrip (rstrip s) = rstrip s.
Proof.
  induction s as [|c s IH]; [reflexivity|]. cbn [rstrip].
  destruct (rstrip s) as [|d t] eqn:E.
  - destruct (is_space c) eqn:Ec; [reflexivity|]. cbn [rstrip]. now rewrite Ec.
  - change (rstrip (String c (String d t)))
      with (match rstrip (String d t) with
            | "" => if is_space c then "" else String c ""
            | String a s0 => String c (String a s0)
            end).
    now rewrite IH.
Qed.

Lemma strip_idem (s : string) : strip (strip s) = strip s.
Proof.
  unfold strip.
  assert (H : lstrip (rstrip (lstrip s)) = rstrip (lstrip s)).
  { destruct (lstrip_cases s) as [->|(c & r & -> & Hc)]; [reflexivity|].
    destruct (rstrip_head c r Hc) as [r' ->]. now apply lstrip_fixed. }
  rewrite H. apply rstrip_idem.
Qed.

Lemma lstrip_sub (s : string) (c : ascii) :
  In c (list_ascii_of_string (lstrip s)) -> In c (list_ascii_of_string s).
Proof.
  induction s as [|d s IH]; [trivial|]. cbn [lstrip].
  destruct (is_space d); [|trivial]. intros H. right. now apply IH.
Qed.

Lemma rstrip_sub (s : string) (c : ascii) :
  In c (list_ascii_of_string (rstrip s)) -> In c (list_ascii_of_string s).
Proof.
  induction s as [|d s IH]; [trivial|]. cbn [rstrip].
  destruct (rstrip s) as [|e t].
  - destruct (is_space d); [intros []|]. intros [H|[]]. now left.
  - intros [H|H]; [now left|]. right. now apply IH.
Qed.

Lemma lstrip_length (s : string) : (String.length (lstrip s) <= String.length s)%nat.
Proof.
  induction s as [|d s IH]; [simpl; lia|]. cbn [lstrip].
  destruct (is_space d); simpl in *; lia.
Qed.

Lemma rstrip_length (s : string) : (String.length (rstrip s) <= String.length s)%nat.
Proof.
  induction s as [|d s IH]; [simpl; lia|]. cbn [rstrip].
  destruct (rstrip s) as [|e t].
  - destruct (is_space d); simpl; lia.
  - simpl in *. lia.
Qed.

Lemma strip_plain (s : string) : plain_field s -> plain_field (strip s).
Proof.
  intros (Hcr & Hnul & Hlen). unfold strip. split; [|split].
  - intros H. apply Hcr. now apply lstrip_sub, rstrip_sub.
  - intros H. apply Hnul. now apply lstrip_sub, rstrip_sub.
  - pose proof (rstrip_length (lstrip s)). pose proof (lstrip_length s). lia.
Qed.

End Strip.

Section KeywordsFileFacts.

Import Store.

Lemma save_rows_kept (table : list TableRow) :
  forall acc,
    fold_left save_row table acc
    = (acc ++ map fields_of_row (kept_rows table))%list.
Proof.
  induction table as [|[[k|] [v|]] table IH]; intros acc; cbn [fold_left kept_rows flat_map];
    try (cbn [save_row app]; now rewrite ?app_nil_r, ?IH).
  cbn [save_row]. destruct (truthy (strip k) && truthy (strip v)).
  - rewrite IH. cbn [app map]. now rewrite <- app_assoc.
  - rewrite IH. reflexivity.
Qed.

Lemma kept_rows_shape (table : list TableRow) :
  Forall (fun row => exists k v, row = (Some k, Some v) /\ k <> "" /\ v <> ""
                                 /\ strip k = k /\ strip v = v)
         (kept_rows table).
Proof.
  unfold kept_rows. rewrite Forall_forall. intros row Hin.
  apply in_flat_map in Hin. destruct Hin as ([[k|] [v|]] & _ & Hin);
    try contradiction.
  destruct (truthy (strip k)) eqn:Hk; [|contradiction].
  destruct (truthy (strip v)) eqn:Hv; [|contradiction].
  destruct Hin as [<-|[]]. exists (strip k), (strip v).
  apply truthy_iff in Hk, Hv. repeat split; auto using strip_idem.
Qed.

Lemma kept_rows_plain (table : list TableRow) :
  plain_cells table -> plain_cells (kept_rows table).
Proof.
  unfold plain_cells, kept_rows. rewrite !Forall_forall. intros H row Hin.
  apply in_flat_map in Hin. destruct Hin as ([[k|] [v|]] & Hrow & Hin);
    try contradiction.
  destruct (truthy (strip k) && truthy (strip v)); [|contradiction].
  destruct Hin as [<-|[]]. destruct (H _ Hrow) as [Hk Hv]. cbn [fst snd] in *.
  split; intros s [= <-]; apply strip_plain; auto.
Qed.

(** Reading a table over again: the rows that saving drops are the rows
    that the reading of the dictionary passes over, and trimming twice is
    trimming once. *)
Lemma get_keywords_kept (table : list TableRow) :
  get_keywords_from_table (kept_rows table) = get_keywords_from_table table.
Proof.
  unfold get_keywords_from_table. generalize (@nil (string * Z), @nil MessageBox).
  induction table as [|[[k|] [v|]] table IH]; intros acc;
    cbn [kept_rows flat_map fold_left]; try (cbn [read_row]; apply IH).
  - reflexivity.
  - fold (kept_rows table).
    destruct (truthy (strip k) && truthy (strip v)) eqn:E.
    + cbn [app fold_left]. rewrite IH. f_equal.
      cbn [read_row]. now rewrite !strip_idem, E.
    + cbn [app read_row]. rewrite E. apply IH.
Qed.

Lemma set_item_both (done : list TableRow) (k v : string) (row : TableRow)
    (rest : list TableRow) :
  set_item (List.length done) 1 v
    (set_item (List.length done) 0 k (done ++ row :: rest))
  = (done ++ (Some k, Some v) :: rest)%list.
Proof.
  induction done as [|d done IH]; cbn [List.length app set_item].
  - now destruct row.
  - destruct d. now rewrite IH.
Qed.

(** The loop fills the blank rows one after the other. *)
Lemma populate_rows (rows : list TableRow) :
  forall done tail,
    Forall (fun row => exists k v, row = (Some k, Some v)) rows ->
    populate (map fields_of_row rows ++ tail)
      (List.length done)
      (done ++ repeat (None, None) (List.length rows + List.length tail))
    = populate tail (List.length (done ++ rows))
        (done ++ rows ++ repeat (None, None) (List.length tail)).
Proof.
  induction rows as [|row rows IH]; intros done tail H; [now rewrite app_nil_r|].
  inversion H as [|? ? (k & v & ->) Hrows]; subst.
  cbn [map app fields_of_row populate List.length Nat.add repeat].
  rewrite set_item_both.
  replace (S (List.length done))
    with (List.length (done ++ [(Some k, Some v)])%list)
    by (rewrite length_app; simpl; lia).
  change (done ++ (Some k, Some v)
            :: repeat (None, None) (List.length rows + List.length tail))%list
    with (done ++ [(Some k, Some v)]
            ++ repeat (None, None) (List.length rows + List.length tail))%list.
  rewrite app_assoc, (IH _ tail Hrows), <- !app_assoc. reflexivity.
Qed.

End KeywordsFileFacts.

Section SavingAndLoading.

Import Store.

Lemma kept_rows_written (table : list TableRow) :
  plain_cells table ->
  Csv.reader (Csv.writerows (map fields_of_row (kept_rows table)))
  = Ok (map fields_of_row (kept_rows table)).
Proof.
  intros H. apply writerows_read_back.
  apply kept_rows_plain in H. unfold plain_cells in H.
  rewrite Forall_map. rewrite Forall_forall in *. intros [[k|] [v|]] Hin;
    cbn [fields_of_row]; try constructor.
  - destruct (H _ Hin) as [Hk Hv]. now apply Hk.
  - constructor; [|constructor]. destruct (H _ Hin) as [Hk Hv]. now apply Hv.
Qed.

Lemma populate_kept (rows : list TableRow) :
  Forall (fun row => exists k v, row = (Some k, Some v)) rows ->
  populate (map fields_of_row rows) 0
    (repeat (None, None) (List.length (map fields_of_row rows)))
  = (rows, Ok tt).
Proof.
  intros H. pose proof (populate_rows rows [] [] H) as P.
  cbn [app List.length repeat populate] in P. unfold TableRow in *.
  rewrite Nat.add_0_r, !app_nil_r in P. rewrite length_map. exact P.
Qed.

End SavingAndLoading.

(** X8: saving the table and loading the file again.  When every text of
    the table is free of carriage returns and within the field limit of
    the reader, a save that the system lets happen changes nothing in the
    window and writes a file that the reader reads back as the kept rows:
    the rows with an item in both cells and both texts non-empty once
    trimmed, trimmed, in the order of the table.  Loading that file sets
    the table to these rows, or leaves the table alone when no row was
    kept; and the table loaded gives the same dictionary and the same
    warnings as the table saved. *)
Theorem saved_keywords_are_reloaded (st st' : State) (file : Store.KeywordsFile) :
  plain_cells (keywords_table st) ->
  Store.save_keywords Store.Saved st file
  = (st, Some (Ok (Csv.writerows (map fields_of_row (kept_rows (keywords_table st))))))
  /\ Csv.reader (Csv.writerows (map fields_of_row (kept_rows (keywords_table st))))
     = Ok (map fields_of_row (kept_rows (keywords_table st)))
  /\ Store.load_keywords (snd (Store.save_keywords Store.Saved st file)) st'
     = match kept_rows (keywords_table st) with
       | [] => st'
       | rows => Store.with_table rows st'
       end
  /\ get_keywords_from_table (kept_rows (keywords_table st))
     = get_keywords_from_table (keywords_table st).
Proof.
  intros Hplain.
  assert (Hsave : Store.save_keywords Store.Saved st file
                  = (st, Some (Ok (Csv.writerows
                                     (map fields_of_row (kept_rows (keywords_table st))))))).
  { unfold Store.save_keywords. now rewrite save_rows_kept. }
  pose proof (kept_rows_written _ Hplain) as Hread.
  split; [exact Hsave|]. split; [exact Hread|]. split; [|apply get_keywords_kept].
  rewrite Hsave. cbn [snd]. unfold Store.load_keywords. rewrite Hread.
  pose proof (kept_rows_shape (keywords_table st)) as Hshape.
  assert (Hshape' : Forall (fun row => exists k v, row = (Some k, Some v))
                      (kept_rows (keywords_table st))).
  { eapply Forall_impl; [|exact Hshape]. intros row (k & v & -> & _). eauto. }
  pose proof (populate_kept _ Hshape') as Hpop.
  destruct (kept_rows (keywords_table st)) as [|row rows]; [reflexivity|].
  cbn [map] in *. now rewrite Hpop.
Qed.

Lemma sample_table_is_reloaded :
  Store.load_keywords
    (snd (Store.save_keywords Store.Saved (Store.with_table sample_table Store.init_ui) None))
    Store.init_ui
  = Store.with_table
      [(Some "invoice", Some "12"); (Some "tax, total", Some "x");
       (Some ("say " ++ String Csv.quotechar "hi" ++ String Csv.quotechar ""), Some "-4")]
      Store.init_ui.
Proof.
  assert (H : plain_cells sample_table).
  { unfold plain_cells, sample_table. rewrite Forall_forall. intros row Hin.
    cbn [In] in Hin.
    repeat (destruct Hin as [<-|Hin]); [..|contradiction];
      (split; cbn [fst snd]; intros s E; [try discriminate E..]);
      injection E as <-;
      (split; [|split]; [cbv; intuition discriminate.. | cbv; discriminate]). }
  destruct (saved_keywords_are_reloaded (Store.with_table sample_table Store.init_ui)
              Store.init_ui None H) as (_ & _ & Hload & _).
  rewrite Hload. reflexivity.
Defined.

(** X9: what [load_keywords] does with the file.  A file that does not
    exist and a file without records leave the window as it is; a file
    that cannot be read, and a text that the reader refuses, give the
    "Load Error" warning and leave the table as it is.  When the reader
    yields records of two fields followed by a record [bad] that has not
    two fields (an empty line gives one without any), the table gets one
    row per record, the rows before [bad] are filled, the rows from [bad]
    on stay empty, and the "Load Error" warning is shown. *)
Theorem load_keywords_by_cases (st : State) :
  Store.load_keywords None st = st
  /\ (forall text, Csv.reader text = Ok [] -> Store.load_keywords (Some (Ok text)) st = st)
  /\ Store.load_keywords (Some (Ok "")) st = st
  /\ (forall e, Store.load_keywords (Some (Raise e)) st
                = show (Store.load_error_box e) st)
  /\ (forall text e, Csv.reader text = Raise e ->
                     Store.load_keywords (Some (Ok text)) st
                     = show (Store.load_error_box e) st)
  /\ (forall text rows bad rest,
        Csv.reader text = Ok (map fields_of_row rows ++ bad :: rest)%list ->
        Forall (fun row => exists k v, row = (Some k, Some v)) rows ->
        List.length bad <> 2%nat ->
        Store.load_keywords (Some (Ok text)) st
        = show (Store.load_error_box (Store.unpack_error (List.length bad)))
            (Store.with_table
               (rows ++ repeat (None, None) (S (List.length rest)))%list st)).
Proof.
  split; [reflexivity|]. split; [intros text H; unfold Store.load_keywords; now rewrite H|].
  split; [reflexivity|]. split; [reflexivity|].
  split; [intros text e H; unfold Store.load_keywords; now rewrite H|].
  intros text rows bad rest Hread Hrows Hbad.
  unfold Store.load_keywords. rewrite Hread.
  pose proof (populate_rows rows [] (bad :: rest) Hrows) as P.
  cbn [app List.length] in P.
  assert (Hstop : forall n t, Store.populate (bad :: rest) n t
                              = (t, Raise (Store.unpack_error (List.length bad)))).
  { intros n t. destruct bad as [|a [|b [|c bad]]]; try reflexivity.
    now contradiction Hbad. }
  rewrite Hstop in P.
  rewrite length_app, length_map. cbn [List.length].
  destruct (map fields_of_row rows ++ bad :: rest)%list eqn:E.
  - destruct (map fields_of_row rows); discriminate.
  - now rewrite P.
Qed.

(** A file with an empty line between two records. *)
Example load_keywords_empty_line :
  Store.load_keywords
    (Some (Ok ("a,1" ++ OCRWorker.newline ++ OCRWorker.newline ++ "b,2" ++ OCRWorker.newline)))
    Store.init_ui
  = show (Store.load_error_box "not enough values to unpack (expected 2, got 0)")
      (Store.with_table [(Some "a", Some "1"); (None, None); (None, None)] Store.init_ui).
Proof. vm_compute. reflexivity. Qed.

Section AutoSave.

Lemma shows_all (ws : list MessageBox) :
  forall st,
    fold_left (fun s b => show b s) ws st
    = {| pdf_path := pdf_path st; keywords_table := keywords_table st;
         ocr_worker := ocr_worker st; progress_dialog := progress_dialog st;
         extracted_text := extracted_text st; results_table := results_table st;
         export_enabled := export_enabled st; current_results := current_results st;
         boxes := (boxes st ++ ws)%list |}.
Proof.
  induction ws as [|w ws IH]; intros st; cbn [fold_left].
  - destruct st. cbn. now rewrite app_nil_r.
  - rewrite IH. cbn [show pdf_path keywords_table ocr_worker progress_dialog
      extracted_text results_table export_enabled current_results boxes].
    now rewrite <- app_assoc.
Qed.

End AutoSave.

(* ===================================================================== *)
(** * The start of a calculation *)
(* ===================================================================== *)

Section StartOfACalculation.

(** The keywords of the dictionary are the keywords of the rows that give
    an entry. *)
Lemma table_keywords (table : list TableRow) (k : string) :
  In k (map fst (fst (get_keywords_from_table table)))
  <-> exists row v, In row table /\ valid_row row k v.
Proof.
  unfold get_keywords_from_table.
  induction table as [|row table IH] using rev_ind.
  - simpl. split; [intros [] | intros (row & v & [] & _)].
  - rewrite fold_read_row_snoc.
    destruct (read_row_cases (fold_left read_row table ([], [])) row)
      as [(k0 & v0 & Hv & ->)|[(k0 & Hi & ->)|(Hnv & _ & ->)]]; cbn [fst].
    + rewrite dict_set_keys, IH. split.
      * intros [->|(r & v & Hin & Hr)].
        -- exists row, v0. split; [apply in_or_app; right; now left | exact Hv].
        -- exists r, v. split; [apply in_or_app; now left | exact Hr].
      * intros (r & v & Hin & Hr). apply in_app_or in Hin.
        destruct Hin as [Hin|[<-|[]]]; [right; eauto|].
        left. now destruct (valid_row_functional _ _ _ _ _ Hr Hv).
    + rewrite IH. split.
      * intros (r & v & Hin & Hr). exists r, v.
        split; [apply in_or_app; now left | exact Hr].
      * intros (r & v & Hin & Hr). apply in_app_or in Hin.
        destruct Hin as [Hin|[<-|[]]]; [eauto|].
        now destruct (valid_not_invalid _ _ _ _ Hr Hi).
    + rewrite IH. split.
      * intros (r & v & Hin & Hr). exists r, v.
        split; [apply in_or_app; now left | exact Hr].
      * intros (r & v & Hin & Hr). apply in_app_or in Hin.
        destruct Hin as [Hin|[<-|[]]]; [eauto|]. now destruct (Hnv _ _ Hr).
Qed.

Lemma table_gives_keywords (table : list TableRow) :
  fst (get_keywords_from_table table) <> []
  <-> exists row k v, In row table /\ valid_row row k v.
Proof.
  split.
  - intros Hne. destruct (fst (get_keywords_from_table table)) as [|[k v] d] eqn:E;
      [congruence|].
    destruct (proj1 (table_keywords table k)) as (row & v' & Hin & Hr).
    { rewrite E. now left. }
    now exists row, k, v'.
  - intros (row & k & v & Hin & Hr) E.
    assert (H : In k (map fst (fst (get_keywords_from_table table)))).
    { apply table_keywords. eauto. }
    now rewrite E in H.
Qed.

End StartOfACalculation.

Section TheWholeMethod.

Variable sv : Services.
Variable io : Store.SaveIO.
Variable st : State.
Variable file : Store.KeywordsFile.

Lemma selected_iff :
  match pdf_path st with Some p => truthy p | None => false end = true
  <-> document_selected st.
Proof.
  unfold document_selected. destruct (pdf_path st) as [p|].
  - rewrite truthy_iff. split; [intros H; now exists p|].
    intros (q & [= <-] & H). exact H.
  - split; [discriminate | intros (q & H & _); discriminate].
Qed.

(** What the method does, by its three ways out. *)
Lemma calculate_total_and_save_cases :
  (~ document_selected st
   /\ Store.calculate_total_and_save sv io st file
      = (show {| icon := Warning; title := "No PDF Selected";
                 body := "Please select a PDF file first." |} st, file, None))
  \/ (document_selected st
      /\ fst (get_keywords_from_table (keywords_table st)) = []
      /\ Store.calculate_total_and_save sv io st file
         = (show {| icon := Warning; title := "No Keywords";
                    body := "Please enter at least one keyword with a value." |}
              (fold_left (fun s b => show b s)
                 (snd (get_keywords_from_table (keywords_table st))) st),
            file, None))
  \/ (document_selected st
      /\ fst (get_keywords_from_table (keywords_table st)) <> []
      /\ Store.calculate_total_and_save sv io st file
         = (extract_text_with_ocr sv
              (fst (Store.save_keywords io
                      (fold_left (fun s b => show b s)
                         (snd (get_keywords_from_table (keywords_table st))) st)
                      file)),
            snd (Store.save_keywords io
                   (fold_left (fun s b => show b s)
                      (snd (get_keywords_from_table (keywords_table st))) st)
                   file),
            Some (fst (get_keywords_from_table (keywords_table st))))).
Proof.
  pose proof selected_iff as Hsel. unfold Store.calculate_total_and_save.
  destruct (match pdf_path st with Some p => truthy p | None => false end);
    cbn [negb].
  - assert (Hd : document_selected st) by now apply Hsel.
    destruct (get_keywords_from_table (keywords_table st)) as [keywords warnings].
    cbn [fst snd]. destruct keywords as [|kv keywords].
    + right; left. repeat split; assumption.
    + right; right. split; [exact Hd|]. split; [discriminate|].
      now destruct (Store.save_keywords io _ file).
  - left. split; [|reflexivity]. intros Hd. apply Hsel in Hd. discriminate.
Qed.

Lemma save_keywords_boxes (st0 : State) :
  fst (Store.save_keywords io st0 file)
  = fold_left (fun s b => show b s) (save_boxes io) st0.
Proof. unfold Store.save_keywords. now destruct io. Qed.

End TheWholeMethod.

(** X11: [calculate_total], the auto-save included, starts a worker
    exactly when a document is selected and some row of the table gives
    an entry (both texts non-empty once trimmed, the value an integer).
    Without a document it shows the one warning "No PDF Selected" and
    reads neither the table nor the file; when it starts no worker it
    leaves the file, the worker, the dialog, the table and the results as
    they were; when it starts one, the worker is new, the progress dialog
    is open at 0, the dictionary handed on is the one read from the
    table, and the boxes shown are the warnings of the reading followed
    by the "Save Error" box if the save failed. *)
Theorem calculation_starts_iff_document_and_keyword (sv : Services)
    (io : Store.SaveIO) (st : State) (file : Store.KeywordsFile) :
  (snd (Store.calculate_total_and_save sv io st file) <> None
   <-> document_selected st
       /\ exists row k v, In row (keywords_table st) /\ valid_row row k v)
  /\ (~ document_selected st ->
      Store.calculate_total_and_save sv io st file
      = (show {| icon := Warning; title := "No PDF Selected";
                 body := "Please select a PDF file first." |} st, file, None))
  /\ (snd (Store.calculate_total_and_save sv io st file) = None ->
      snd (fst (Store.calculate_total_and_save sv io st file)) = file
      /\ ocr_worker (fst (fst (Store.calculate_total_and_save sv io st file)))
         = ocr_worker st
      /\ progress_dialog (fst (fst (Store.calculate_total_and_save sv io st file)))
         = progress_dialog st
      /\ keywords_table (fst (fst (Store.calculate_total_and_save sv io st file)))
         = keywords_table st
      /\ results_view (fst (fst (Store.calculate_total_and_save sv io st file)))
         = results_view st)
  /\ (forall keywords,
        snd (Store.calculate_total_and_save sv io st file) = Some keywords ->
        keywords = fst (get_keywords_from_table (keywords_table st))
        /\ ocr_worker (fst (fst (Store.calculate_total_and_save sv io st file)))
           = Some {| script := run sv; executed := 0 |}
        /\ progress_dialog (fst (fst (Store.calculate_total_and_save sv io st file)))
           = Some {| dialog_value := 0; dialog_label := "Initializing OCR...";
                     dialog_open := true |}
        /\ boxes (fst (fst (Store.calculate_total_and_save sv io st file)))
           = (boxes st ++ snd (get_keywords_from_table (keywords_table st))
              ++ save_boxes io)%list).
Proof.
  pose proof (table_gives_keywords (keywords_table st)) as Hiff.
  destruct (calculate_total_and_save_cases sv io st file)
    as [(Hn & ->)|[(Hd & He & ->)|(Hd & Hne & ->)]]; cbn [fst snd].
  - split; [split; [intros H; now contradiction H | intros [H _]; now contradiction Hn]|].
    split; [reflexivity|]. split; [intros _; repeat split | discriminate].
  - rewrite (shows_all _ st).
    split; [split; [intros H; now contradiction H|]|].
    { intros [_ H]. apply Hiff in H. now contradiction H. }
    split; [intros H; now contradiction H|].
    split; [intros _; repeat split | discriminate].
  - rewrite save_keywords_boxes, !shows_all.
    split; [split; [intros _; split; [exact Hd | now apply Hiff] | discriminate]|].
    split; [intros H; now contradiction H|]. split; [discriminate|].
    intros keywords [= <-].
    cbn [extract_text_with_ocr ocr_worker progress_dialog boxes].
    repeat split. now rewrite app_assoc.
Qed.

(** X10: the auto-save of [calculate_total].  The keywords file is
    touched only when a worker is started, and before it is started.
    When the save runs to its end the file holds the kept rows of the
    table, and these include every row that the reading of the dictionary
    passed over with the "Invalid Value" warning.  When making the
    directory or opening the file raises, the file stays as it was; when
    writing raises after the file was opened, the file is what the failed
    write left of it.  In both cases the "Save Error" box is shown after
    the warnings of the reading, and the worker is started all the
    same. *)
Theorem calculation_saves_the_keywords (sv : Services) (io : Store.SaveIO)
    (st : State) (file : Store.KeywordsFile) :
  (snd (Store.calculate_total_and_save sv io st file) = None ->
   snd (fst (Store.calculate_total_and_save sv io st file)) = file)
  /\ (snd (Store.calculate_total_and_save sv io st file) <> None ->
      snd (fst (Store.calculate_total_and_save sv io st file))
      = match io with
        | Store.Saved =>
            Some (Ok (Csv.writerows
                        (map fields_of_row (kept_rows (keywords_table st)))))
        | Store.RaisesBeforeOpen _ => file
        | Store.RaisesAfterOpen _ remains => Some remains
        end
      /\ ocr_worker (fst (fst (Store.calculate_total_and_save sv io st file)))
         = Some {| script := run sv; executed := 0 |}
      /\ boxes (fst (fst (Store.calculate_total_and_save sv io st file)))
         = (boxes st ++ snd (get_keywords_from_table (keywords_table st))
            ++ save_boxes io)%list)
  /\ (forall row k,
        In row (keywords_table st) -> invalid_row row k ->
        exists value_text,
          In (Some k, Some value_text) (kept_rows (keywords_table st))
          /\ py_int value_text = None).
Proof.
  split; [|split].
  - destruct (calculate_total_and_save_cases sv io st file)
      as [(_ & ->)|[(_ & _ & ->)|(_ & _ & ->)]]; cbn [fst snd];
      [reflexivity | reflexivity | discriminate].
  - destruct (calculate_total_and_save_cases sv io st file)
      as [(_ & ->)|[(_ & _ & ->)|(_ & _ & ->)]]; cbn [fst snd];
      [intros H; now contradiction H.. |].
    intros _. rewrite save_keywords_boxes, !shows_all.
    cbn [extract_text_with_ocr ocr_worker boxes].
    split; [|split; [reflexivity | now rewrite app_assoc]].
    unfold Store.save_keywords. cbn [keywords_table].
    rewrite save_rows_kept. now destruct io.
  - intros row k Hin (kt & vt & -> & <- & Hk & Hv & Hint).
    exists (strip vt). split; [|exact Hint].
    unfold kept_rows. apply in_flat_map. exists (Some kt, Some vt).
    split; [exact Hin|].
    apply truthy_iff in Hk, Hv. rewrite Hk, Hv. now left.
Qed.

(** A save that fails after the file was opened: the keywords of the last
    session are gone, and the calculation goes on. *)
Example failed_write_loses_the_file :
  Store.calculate_total_and_save one_page
    (Store.RaisesAfterOpen "No space left on device" (Ok ""))
    (Store.with_table [(Some "text", Some "3")] idle)
    (Some (Ok ("old,1" ++ String Csv.CR (String Csv.LF ""))))
  = (extract_text_with_ocr one_page
       (show (Store.save_error_box "No space left on device")
          (Store.with_table [(Some "text", Some "3")] idle)),
     Some (Ok ""), Some [("text", 3)]).
Proof. vm_compute. reflexivity. Qed.

(* ===================================================================== *)
(** * An invariant of the window *)
(* ===================================================================== *)

Section Window.

Lemma count_keywords_nonempty (text : string) (keywords : dict Z) :
  keywords <> [] -> count_keywords text keywords <> [].
Proof.
  rewrite count_keywords_records. now destruct keywords.
Qed.

Lemma load_keywords_view (f : Store.KeywordsFile) (st : State) :
  results_view (Store.load_keywords f st) = results_view st.
Proof.
  unfold Store.load_keywords. destruct f as [[text|e]|]; try reflexivity.
  destruct (Csv.reader text) as [[|r rs]|e]; try reflexivity.
  destruct (Store.populate _ _ _) as [t [u|e]]; reflexivity.
Qed.

Lemma calculate_total_view (sv : Services) (io : Store.SaveIO) (st : State)
    (f : Store.KeywordsFile) :
  results_view (fst (fst (Store.calculate_total_and_save sv io st f))) = results_view st
  /\ forall keywords,
       snd (Store.calculate_total_and_save sv io st f) = Some keywords ->
       keywords <> [] /\ NoDup (map fst keywords).
Proof.
  unfold Store.calculate_total_and_save.
  destruct (negb _); [split; [reflexivity | discriminate]|].
  pose proof (get_keywords_from_table_spec (keywords_table st)) as (Hnd & _).
  destruct (get_keywords_from_table (keywords_table st)) as [keywords warnings].
  rewrite (shows_all warnings st). cbn [fst] in Hnd.
  destruct keywords as [|kv keywords]; [split; [reflexivity | discriminate]|].
  unfold Store.save_keywords. destruct io; cbn [fst snd];
    (split; [reflexivity|]); intros k [= <-]; (split; [discriminate | exact Hnd]).
Qed.

Lemma on_ocr_finished_view (text : string) (keywords : dict Z) (st : State) :
  results_view (on_ocr_finished text keywords st) = results_view st
  \/ results_view (on_ocr_finished text keywords st)
     = (true, Some (count_keywords text keywords),
        (map result_row (sort_results (count_keywords text keywords))
         ++ [total_row (total_of_subtotals (count_keywords text keywords))])%list).
Proof.
  unfold on_ocr_finished. destruct (negb (truthy (strip text))); [now left|].
  right. unfold results_view, display_results, sum_subtotals.
  cbn [export_enabled current_results results_table].
  now rewrite sum_subtotals_from.
Qed.

Lemma export_to_excel_view (file_path : string) (save : result unit) (st : State) :
  results_view (fst (export_to_excel file_path save st)) = results_view st.
Proof.
  unfold export_to_excel. destruct (current_results st) as [[|r rs]|]; try reflexivity.
  destruct (negb (truthy file_path)); [reflexivity|]. now destruct save.
Qed.

End Window.

Lemma stored_results_ok_view (st st' : State) :
  results_view st' = results_view st -> stored_results_ok st -> stored_results_ok st'.
Proof.
  unfold results_view, stored_results_ok. intros [= -> -> ->]. trivial.
Qed.

Lemma reachable_sound (s : Session) :
  reachable s ->
  stored_results_ok (window s)
  /\ Forall (fun keywords => keywords <> [] /\ NoDup (map fst keywords)) (connected s).
Proof.
  induction 1 as [file0|s s' _ [IHw IHc] Hstep].
  - split; [|constructor]. cbn [window].
    apply (stored_results_ok_view Store.init_ui); [apply load_keywords_view|].
    now split.
  - assert (Hsame : forall st', results_view st' = results_view (window s) ->
                               stored_results_ok st').
    { intros st' Hv. now apply (stored_results_ok_view (window s)). }
    destruct Hstep; cbn [window connected with_window].
    + split; [apply Hsame | exact IHc].
      unfold Store.browse_pdf. now destruct (truthy file_path).
    + split; [now apply Hsame | exact IHc].
    + split; [now apply Hsame | exact IHc].
    + split; [apply Hsame | exact IHc].
      unfold Store.remove_table_row. now destruct (0 <=? current_row).
    + split; [now apply Hsame | exact IHc].
    + split; [apply Hsame | exact IHc].
      unfold Store.manual_save_keywords, Store.save_keywords. now destruct io.
    + split; [apply Hsame, load_keywords_view | exact IHc].
    + destruct (calculate_total_view sv io (window s) (file s)) as [Hv Hk].
      split; [now apply Hsame|].
      destruct (snd (Store.calculate_total_and_save sv io (window s) (file s))) as [k|];
        [|exact IHc].
      apply Forall_app. split; [exact IHc|]. constructor; [|constructor].
      now apply Hk.
    + split; [now apply Hsame | exact IHc].
    + split; [|exact IHc].
      destruct (on_ocr_finished_view text keywords (window s)) as [Hv|Hv];
        [now apply Hsame|].
      rewrite Forall_forall in IHc. destruct (IHc _ H) as [Hne Hnd].
      unfold results_view in Hv. injection Hv as He Hc Ht.
      unfold stored_results_ok. rewrite Hc, He, Ht.
      split; [reflexivity|]. split; [now apply count_keywords_nonempty|].
      rewrite count_keywords_records. split; [|split; [|reflexivity]].
      * rewrite map_map. cbn [keyword_of fst]. exact Hnd.
      * rewrite Forall_map, Forall_forall. intros [k v] _.
        cbn [count_of subtotal_of value_of fst snd]. split; [|reflexivity].
        unfold occurrences. lia.
    + split; [now apply Hsame | exact IHc].
    + split; [now apply Hsame | exact IHc].
    + split; [apply Hsame, export_to_excel_view | exact IHc].
Qed.

(** X12: an invariant of the window.  In every session that the program
    can reach from its start through its slots, the export button is
    enabled exactly when results are stored; stored results are never
    empty, name no keyword twice, and have subtotals equal to count times
    value with counts that are not negative; the results table shows
    exactly the stored results, sorted, and their grand total, and is
    empty while nothing is stored.  So a click on the export button never
    meets the "No Results" warning: with a file chosen and a save that
    succeeds, the sheet of the stored results is written. *)
Theorem window_shows_the_stored_results (s : Session) :
  reachable s ->
  (export_enabled (window s) = true <-> current_results (window s) <> None)
  /\ (current_results (window s) = None -> results_table (window s) = [])
  /\ (forall results,
        current_results (window s) = Some results ->
        results <> []
        /\ NoDup (map keyword_of results)
        /\ Forall (fun r => 0 <= count_of r /\ subtotal_of r = count_of r * value_of r)
             results
        /\ results_table (window s)
           = (map result_row (sort_results results)
              ++ [total_row (total_of_subtotals results)])%list
        /\ forall file_path,
             file_path <> "" ->
             snd (export_to_excel file_path (Ok tt) (window s))
             = Some (build_sheet results)).
Proof.
  intros Hr. destruct (reachable_sound s Hr) as [Hok _].
  unfold stored_results_ok in Hok.
  destruct (current_results (window s)) as [results|] eqn:E.
  - destruct Hok as (He & Hne & Hnd & Hf & Ht).
    split; [split; [discriminate | intros _; exact He]|].
    split; [discriminate|]. intros results' [= <-].
    repeat (split; [assumption|]).
    intros file_path Hp. unfold export_to_excel. rewrite E.
    destruct results as [|r rs]; [congruence|].
    destruct file_path; [congruence | reflexivity].
  - destruct Hok as [He Ht].
    split; [split; [congruence | intros H; now contradiction H]|].
    split; [intros _; exact Ht | discriminate].
Qed.

Lemma window_after_a_first_calculation :
  reachable session_4
  /\ current_results (window session_4) = Some [("apple", 2, 10, 20)]
  /\ results_table (window session_4)
     = [["apple"; "2"; "10"; "20"]; ["GRAND TOTAL"; ""; ""; "20"]]
  /\ export_enabled (window session_4) = true.
Proof.
  assert (Hr : reachable session_4).
  { apply (stepped session_3); [|apply finished_signal; now left].
    apply (stepped session_2); [|apply calculate_clicked].
    apply (stepped session_1); [|apply browse_clicked].
    apply (stepped session_0); [|apply reload_keywords_clicked].
    apply started. }
  split; [exact Hr|].
  destruct (window_shows_the_stored_results session_4 Hr) as (He & _ & Hres).
  assert (Hc : current_results (window session_4) = Some [("apple", 2, 10, 20)])
    by reflexivity.
  destruct (Hres _ Hc) as (_ & _ & _ & Ht & _).
  split; [exact Hc|]. split; [rewrite Ht; reflexivity|].
  apply He. rewrite Hc. discriminate.
Defined.

(* ===================================================================== *)
(** * The preview, the proposed file name, the buttons of the table *)
(* ===================================================================== *)

Section Preview.

Lemma take_all (s : string) :
  forall n, (String.length s <= n)%nat -> take n s = s.
Proof.
  induction s as [|c s IH]; intros n Hn; [now destruct n|].
  destruct n as [|n]; [simpl in Hn; lia|]. cbn [take]. rewrite IH; [reflexivity|].
  simpl in Hn. lia.
Qed.

Lemma take_length (s : string) :
  forall n, (n <= String.length s)%nat -> String.length (take n s) = n.
Proof.
  induction s as [|c s IH]; intros n Hn.
  - simpl in Hn. assert (n = 0)%nat as -> by lia. reflexivity.
  - destruct n as [|n]; [reflexivity|]. cbn [take String.length].
    rewrite IH; [reflexivity|]. simpl in Hn. lia.
Qed.

Lemma take_prefix (s : string) :
  forall n, exists rest, s = take n s ++ rest.
Proof.
  induction s as [|c s IH]; intros n.
  - exists "". now destruct n.
  - destruct n as [|n]; [now exists (String c s)|].
    destruct (IH n) as [rest Hrest]. exists rest. cbn [take String.append].
    now rewrite <- Hrest.
Qed.

End Preview.

(** X13: the text preview.  A text of at most 5000 characters is shown as
    it is; of a longer text the first 5000 characters are shown, followed
    by two line feeds and the note that gives the total number of
    characters.  Nothing else of the window changes. *)
Theorem preview_shows_the_first_5000_characters (text : string) (st : State) :
  ((String.length text <= 5000)%nat ->
   extracted_text (display_extracted_text text st) = text)
  /\ ((5000 < String.length text)%nat ->
      extracted_text (display_extracted_text text st)
      = take 5000 text ++ newline ++ newline
        ++ "... (showing first 5000 characters of "
        ++ str_of_int (Z.of_nat (String.length text)) ++ " total)"
      /\ String.length (take 5000 text) = 5000%nat
      /\ exists rest, text = take 5000 text ++ rest)
  /\ results_view (display_extracted_text text st) = results_view st
  /\ boxes (display_extracted_text text st) = boxes st
  /\ keywords_table (display_extracted_text text st) = keywords_table st.
Proof.
  unfold display_extracted_text, max_chars. cbn [extracted_text].
  split; [|split; [|repeat split]].
  - intros H. destruct (Nat.ltb_spec 5000 (String.length text)) as [Hlt|_]; [lia|].
    now apply take_all.
  - intros H. destruct (Nat.ltb_spec 5000 (String.length text)) as [_|Hle]; [|lia].
    split; [|split].
    + replace (str_of_int (Z.of_nat 5000)) with "5000" by (vm_compute; reflexivity).
      reflexivity.
    + apply take_length. lia.
    + apply take_prefix.
Qed.

Section ProposedName.

Import ExportName.

Lemma join_filter_kept (keep : ascii -> bool) (s : string) (c : ascii) :
  In c (list_ascii_of_string (join_filter keep s)) ->
  keep c = true /\ In c (list_ascii_of_string s).
Proof.
  induction s as [|d s IH]; [intros []|]. cbn [join_filter].
  destruct (keep d) eqn:E.
  - intros [<-|H]; [split; [exact E | now left]|].
    destruct (IH H). split; [assumption | now right].
  - intros H. destruct (IH H). split; [assumption | now right].
Qed.

Lemma join_filter_all (keep : ascii -> bool) (s : string) :
  (forall c, In c (list_ascii_of_string s) -> keep c = true) ->
  join_filter keep s = s.
Proof.
  induction s as [|d s IH]; intros H; [reflexivity|]. cbn [join_filter].
  rewrite (H d) by now left. rewrite IH; [reflexivity|].
  intros c Hc. apply H. now right.
Qed.

Lemma strip_sub (s : string) (c : ascii) :
  In c (list_ascii_of_string (strip s)) -> In c (list_ascii_of_string s).
Proof. unfold strip. intros H. now apply lstrip_sub, rstrip_sub. Qed.

Lemma in_app_string (a b : string) (c : ascii) :
  In c (list_ascii_of_string (a ++ b))
  <-> In c (list_ascii_of_string a) \/ In c (list_ascii_of_string b).
Proof. induction a as [|d a IH]; simpl; [tauto|]. rewrite IH. tauto. Qed.

End ProposedName.

(** The characters that [str.isalnum] accepts among the first 256 code
    points, as CPython lists them. *)
Example is_alnum_table :
  filter (fun n => ExportName.is_alnum (chr n)) (map Z.of_nat (seq 0 256))
  = [48;49;50;51;52;53;54;55;56;57;65;66;67;68;69;70;71;72;73;74;75;76;77;78;79;80;
     81;82;83;84;85;86;87;88;89;90;97;98;99;100;101;102;103;104;105;106;107;108;
     109;110;111;112;113;114;115;116;117;118;119;120;121;122;170;178;179;181;185;
     186;188;189;190;192;193;194;195;196;197;198;199;200;201;202;203;204;205;206;
     207;208;209;210;211;212;213;214;216;217;218;219;220;221;222;223;224;225;226;
     227;228;229;230;231;232;233;234;235;236;237;238;239;240;241;242;243;244;245;
     246;248;249;250;251;252;253;254;255].
Proof. vm_compute. reflexivity. Qed.

(** X14: the file name proposed for the export.  The sanitized name of
    the document holds only characters of the name that are letters or
    digits, spaces, hyphens or underscores, in their order, and neither
    begins nor ends with a space; sanitizing it again changes nothing.
    So, with a time stamp of digits and underscores, the proposed name is
    made of such characters and the one dot of its extension: it holds no
    directory separator, whatever the document is called. *)
Theorem proposed_file_name_is_plain (pdf_name timestamp : string) :
  (forall c, In c (list_ascii_of_string (ExportName.sanitize pdf_name)) ->
             ExportName.kept_char c = true /\ In c (list_ascii_of_string pdf_name))
  /\ strip (ExportName.sanitize pdf_name) = ExportName.sanitize pdf_name
  /\ ExportName.sanitize (ExportName.sanitize pdf_name) = ExportName.sanitize pdf_name
  /\ ((forall c, In c (list_ascii_of_string timestamp) -> ExportName.kept_char c = true) ->
      forall stem,
        exists base,
          ExportName.default_filename stem timestamp = base ++ ".xlsx"
          /\ forall c, In c (list_ascii_of_string base) ->
                       ExportName.kept_char c = true
                       /\ c <> "/"%char /\ c <> "\"%char /\ c <> "."%char
                       /\ c <> ":"%char).
Proof.
  assert (Hkept : forall name c,
             In c (list_ascii_of_string (ExportName.sanitize name)) ->
             ExportName.kept_char c = true /\ In c (list_ascii_of_string name)).
  { intros name c H. apply strip_sub in H. now apply join_filter_kept in H. }
  assert (Hplain : forall c, ExportName.kept_char c = true ->
                             ExportName.kept_char c = true
                             /\ c <> "/"%char /\ c <> "\"%char /\ c <> "."%char
                             /\ c <> ":"%char).
  { intros c H. split; [exact H|].
    repeat split; intros ->; vm_compute in H; discriminate. }
  split; [apply Hkept|]. split; [apply strip_idem|]. split.
  - unfold ExportName.sanitize at 1.
    rewrite join_filter_all; [apply strip_idem|].
    intros c Hc. now apply Hkept in Hc.
  - intros Hts stem. destruct stem as [name|]; cbn [ExportName.default_filename].
    + exists (ExportName.sanitize name ++ "_results_" ++ timestamp).
      split; [now rewrite !str_app_assoc|].
      intros c Hc. apply Hplain. rewrite !in_app_string in Hc.
      destruct Hc as [Hc|[Hc|Hc]].
      * now apply Hkept in Hc.
      * cbn in Hc. repeat (destruct Hc as [<-|Hc]; [reflexivity|]). contradiction.
      * now apply Hts.
    + exists ("keyword_results_" ++ timestamp).
      split; [now rewrite !str_app_assoc|].
      intros c Hc. apply Hplain. rewrite in_app_string in Hc.
      destruct Hc as [Hc|Hc].
      * cbn in Hc. repeat (destruct Hc as [<-|Hc]; [reflexivity|]). contradiction.
      * now apply Hts.
Qed.

Example proposed_file_name_example :
  ExportName.default_filename (Some "../Q3 report (final).v2") "20240131_235959"
  = "Q3 report finalv2_results_20240131_235959.xlsx".
Proof. vm_compute. reflexivity. Qed.

(** X15: the buttons of the keyword table.  "Add Row" appends one empty
    row and "Remove Selected Row" takes out the selected row, or warns
    when none is selected and leaves the table alone; "Clear All" empties
    every cell and keeps the rows, after which no row is kept by a save,
    the dictionary read from the table is empty, and a calculation on a
    selected document stops at the "No Keywords" warning.  A row that is
    added changes neither the dictionary nor the warnings. *)
Theorem table_buttons_and_the_dictionary (sv : Services) (st : State) :
  keywords_table (Store.add_table_row st) = (keywords_table st ++ [(None, None)])%list
  /\ get_keywords_from_table (keywords_table (Store.add_table_row st))
     = get_keywords_from_table (keywords_table st)
  /\ (forall n, n < 0 ->
        Store.remove_table_row n st
        = show {| icon := Warning; title := "No Selection";
                  body := "Please select a row to remove." |} st)
  /\ (forall n, 0 <= n ->
        keywords_table (Store.remove_table_row n st)
        = (firstn (Z.to_nat n) (keywords_table st)
           ++ skipn (S (Z.to_nat n)) (keywords_table st))%list)
  /\ List.length (keywords_table (Store.clear_table st))
     = List.length (keywords_table st)
  /\ kept_rows (keywords_table (Store.clear_table st)) = []
  /\ get_keywords_from_table (keywords_table (Store.clear_table st)) = ([], [])
  /\ (pdf_path st <> None ->
      calculate_total sv (Store.clear_table st)
      = (show {| icon := Warning; title := "No Keywords";
                 body := "Please enter at least one keyword with a value." |}
           (Store.clear_table st), None)).
Proof.
  assert (Hclear : get_keywords_from_table (keywords_table (Store.clear_table st))
                   = ([], [])).
  { unfold Store.clear_table, get_keywords_from_table. cbn [Store.with_table keywords_table].
    generalize (@nil (string * Z), @nil MessageBox).
    induction (keywords_table st) as [|row t IH]; intros acc; [reflexivity|].
    cbn [map fold_left read_row]. apply IH. }
  split; [reflexivity|]. split.
  { unfold Store.add_table_row, get_keywords_from_table.
    cbn [Store.with_table keywords_table]. now rewrite fold_read_row_snoc. }
  split.
  { intros n Hn. unfold Store.remove_table_row.
    destruct (Z.leb_spec 0 n); [lia | reflexivity]. }
  split.
  { intros n Hn. unfold Store.remove_table_row.
    destruct (Z.leb_spec 0 n); [|lia]. cbn [Store.with_table keywords_table].
    generalize (Z.to_nat n). clear. intros m. revert m.
    induction (keywords_table st) as [|row t IH]; intros [|m]; try reflexivity.
    cbn [Store.remove_row firstn skipn app]. f_equal. apply IH. }
  split; [apply length_map|]. split.
  { unfold Store.clear_table. cbn [Store.with_table keywords_table].
    induction (keywords_table st) as [|row t IH]; [reflexivity | exact IH]. }
  split; [exact Hclear|].
  intros Hpdf. unfold calculate_total.
  replace (pdf_path (Store.clear_table st)) with (pdf_path st) by reflexivity.
  destruct (pdf_path st); [|congruence]. now rewrite Hclear.
Qed.

(* ===================================================================== *)
(** * The signals of a run and their slots *)
(* ===================================================================== *)

Section Delivery.

Variable keywords : dict Z.

Lemma deliver_quiet (t : list Action) :
  forall st,
    Forall (fun a => is_terminal a = false) t ->
    results_view (deliver keywords t st) = results_view st
    /\ boxes (deliver keywords t st) = boxes st
    /\ extracted_text (deliver keywords t st) = extracted_text st
    /\ dialog_is_open (deliver keywords t st) = dialog_is_open st.
Proof.
  unfold deliver. induction t as [|a t IH]; intros st H; [repeat split|].
  inversion H as [|? ? Ha Ht]; subst. cbn [fold_left].
  destruct (IH (slot keywords a st) Ht) as (H1 & H2 & H3 & H4).
  rewrite H1, H2, H3, H4.
  destruct a as [[value message|text|message]| | |]; try discriminate Ha;
    repeat split.
  cbn [slot]. unfold dialog_is_open, on_ocr_progress. cbn [progress_dialog].
  now destruct (progress_dialog st).
Qed.

Lemma deliver_snoc (t : list Action) (a : Action) (st : State) :
  deliver keywords (t ++ [a]) st = slot keywords a (deliver keywords t st).
Proof. unfold deliver. now rewrite fold_left_app. Qed.

Lemma close_progress_dialog_closed (st : State) :
  dialog_is_open st = Some true ->
  dialog_is_open (close_progress_dialog st) = Some false.
Proof.
  unfold dialog_is_open, close_progress_dialog. cbn [progress_dialog].
  now destruct (progress_dialog st).
Qed.

End Delivery.

(** X16: from the start of a worker to the end of its run.  When all the
    signals of a run have reached their slots in a window whose progress
    dialog is open, the dialog is closed and exactly one of three things
    has happened, by the outcome of the run: on an error signal, the "OCR
    Error" box with the message is shown and the results are as before;
    on a text that is blank, the "No Text Found" warning is shown and the
    results are as before; on any other text, no box is shown, the
    records of [count_keywords] for this text and the dictionary of the
    calculation are stored and displayed, and the export is enabled.
    [calculate_total] leaves the dialog open when it starts a worker. *)
Theorem whole_run_delivered (sv : Services) (keywords : dict Z) (st : State) :
  dialog_is_open st = Some true ->
  dialog_is_open (deliver keywords (run sv) st) = Some false
  /\ match outcome (run sv) with
     | Some (error message) =>
         boxes (deliver keywords (run sv) st)
         = (boxes st ++ [ocr_error_box message])%list
         /\ results_view (deliver keywords (run sv) st) = results_view st
     | Some (finished text) =>
         if truthy (strip text) then
           boxes (deliver keywords (run sv) st) = boxes st
           /\ results_view (deliver keywords (run sv) st)
              = results_view (display_results (count_keywords text keywords) st)
           /\ current_results (deliver keywords (run sv) st)
              = Some (count_keywords text keywords)
         else
           boxes (deliver keywords (run sv) st) = (boxes st ++ [no_text_box])%list
           /\ results_view (deliver keywords (run sv) st) = results_view st
     | _ => False
     end
  /\ (forall sv' st0,
        snd (calculate_total sv' st0) <> None ->
        dialog_is_open (fst (calculate_total sv' st0)) = Some true).
Proof.
  intros Hopen. split; [|split].
  3:{ intros sv' st0 Hs. unfold calculate_total in *.
      destruct (pdf_path st0); [|now contradiction Hs].
      destruct (get_keywords_from_table (keywords_table st0)) as [k w].
      destruct k; [now contradiction Hs | reflexivity]. }
  - destruct (run_terminal_last sv) as (t & a & -> & Ha & Hq).
    rewrite deliver_snoc.
    destruct (deliver_quiet keywords t st Hq) as (_ & _ & _ & Hd).
    assert (Hopen1 : dialog_is_open (deliver keywords t st) = Some true) by congruence.
    pose proof (close_progress_dialog_closed _ Hopen1) as Hc.
    destruct a as [[value message|text|message]| | |]; try discriminate Ha; cbn [slot].
    + unfold on_ocr_finished. destruct (negb (truthy (strip text))); exact Hc.
    + exact Hc.
  - destruct (run_terminal_last sv) as (t & a & -> & Ha & Hq).
    destruct (outcome_last t a Ha) as (s & -> & ->).
    rewrite deliver_snoc.
    destruct (deliver_quiet keywords t st Hq) as (Hv & Hb & _ & _).
    rewrite <- Hv, <- Hb.
    destruct s as [value message|text|message]; try discriminate Ha; cbn [slot].
    + unfold on_ocr_finished. destruct (truthy (strip text)); cbn [negb];
        repeat split.
    + repeat split.
Qed.

Lemma whole_run_of_one_page_delivered :
  current_results
    (deliver [("text", 3)] (run one_page)
       (fst (calculate_total one_page
               (Store.with_table [(Some "text", Some "3")] idle))))
  = Some [("text", 1, 3, 3)].
Proof.
  destruct (whole_run_delivered one_page [("text", 3)]
              (fst (calculate_total one_page
                      (Store.with_table [(Some "text", Some "3")] idle)))
              eq_refl) as (_ & H & _).
  change (outcome (run one_page)) with (Some (finished ("text" ++ newline))) in H.
  cbv iota in H. change (truthy (strip ("text" ++ newline))) with true in H.
  cbv iota in H. destruct H as (_ & _ & H). rewrite H. reflexivity.
Defined.

(* ===================================================================== *)
(** * The order of the rows *)
(* ===================================================================== *)

Section OrderOfTheRows.

Lemma string_leb_antisym (a b : string) :
  String.leb a b = true -> String.leb b a = true -> a = b.
Proof.
  rewrite !string_leb_cases. intros [H1|H1] [H2|H2]; auto.
  rewrite String.compare_antisym, H1 in H2. discriminate.
Qed.

(** A list without two equal keys has one sorted arrangement. *)
Lemma sorted_unique (l : list CountRecord) :
  forall l',
    StronglySorted ci_le l -> StronglySorted ci_le l' ->
    Permutation l l' -> NoDup (map ci_key l) -> l = l'.
Proof.
  induction l as [|x l IH]; intros l' Hs Hs' Hp Hnd.
  - apply Permutation_nil in Hp. now subst.
  - destruct l' as [|x' l'].
    { apply Permutation_sym, Permutation_nil in Hp. discriminate. }
    inversion Hs as [|? ? Hsl Hx]; subst. inversion Hs' as [|? ? Hsl' Hx']; subst.
    inversion Hnd as [|? ? Hnx Hndl]; subst.
    assert (E : x = x').
    { assert (Hin : In x (x' :: l')) by (apply (Permutation_in _ Hp); now left).
      destruct Hin as [->|Hin]; [reflexivity|].
      assert (Hin' : In x' (x :: l)).
      { apply (Permutation_in _ (Permutation_sym Hp)). now left. }
      destruct Hin' as [->|Hin']; [reflexivity|]. exfalso.
      rewrite Forall_forall in Hx, Hx'.
      pose proof (string_leb_antisym _ _ (Hx _ Hin') (Hx' _ Hin)) as Hk.
      apply Hnx. fold (ci_key x). rewrite Hk. now apply in_map. }
    subst x'. f_equal. apply IH; try assumption.
    now apply Permutation_cons_inv in Hp.
Qed.

End OrderOfTheRows.

(** X17: when no two keywords are equal up to case, the rows displayed
    and the sheet exported do not depend on the order in which the
    records come: two lists with the same records give the same sorted
    rows, the same results table and the same sheet. *)
Theorem rows_do_not_depend_on_the_order_of_the_records
    (results results' : list CountRecord) (st : State) :
  Permutation results results' ->
  NoDup (map ci_key results) ->
  sort_results results = sort_results results'
  /\ results_table (display_results results st)
     = results_table (display_results results' st)
  /\ build_sheet results = build_sheet results'.
Proof.
  intros Hp Hnd.
  assert (Hsort : sort_results results = sort_results results').
  { apply sorted_unique.
    - apply (sorted_ordered (fun x => lower (keyword_of x))).
    - apply (sorted_ordered (fun x => lower (keyword_of x))).
    - unfold sort_results. rewrite !sorted_perm. exact Hp.
    - eapply Permutation_NoDup; [|exact Hnd].
      apply Permutation_map, Permutation_sym, sorted_perm. }
  split; [exact Hsort|]. split.
  - unfold display_results, sum_subtotals. cbn [results_table].
    rewrite !sum_subtotals_from, Hsort, (total_of_subtotals_perm _ _ Hp). reflexivity.
  - rewrite !build_sheet_rows, Hsort, (total_of_subtotals_perm _ _ Hp). reflexivity.
Qed.

Lemma rows_of_two_keywords_either_way :
  sort_results [("pear", 1, 2, 2); ("Apple", 3, 1, 3)]
  = sort_results [("Apple", 3, 1, 3); ("pear", 1, 2, 2)].
Proof.
  apply (rows_do_not_depend_on_the_order_of_the_records _ _ idle).
  - apply perm_swap.
  - repeat constructor; cbn; intuition discriminate.
Defined.

(** Two keywords that are equal up to case stand in the order in which
    they come. *)
Example rows_of_equal_keywords_keep_their_order :
  sort_results [("Apple", 1, 1, 1); ("apple", 1, 2, 2)]
  = [("Apple", 1, 1, 1); ("apple", 1, 2, 2)]
  /\ sort_results [("apple", 1, 2, 2); ("Apple", 1, 1, 1)]
     = [("apple", 1, 2, 2); ("Apple", 1, 1, 1)].
Proof. split; vm_compute; reflexivity. Qed.

(* ===================================================================== *)
(** * Cancellation *)
(* ===================================================================== *)

Section CancelledWorker.



End CancelledWorker.


